(** * CSV event-log repair pipeline ([solution.py]): model and verification

    The development embeds the preprocessing half of [solution.py]
    ([preprocess] and [fix_bad_line]) together with the parts of the Python
    runtime those two functions lean on:

    - [Utf8]: the strict UTF-8 codec behind [bytes.decode('utf-8')] and behind
      text-mode files (a UTF-8 locale is assumed);
    - [Csv]: the reader state machine and the writer of the [csv] module for
      the default ("excel") dialect;
    - [Io]: binary line iteration, universal-newline text reading and the
      on-disk store with [os.replace];
    - [Solution]: the two functions of the program, first on records, then on
      the store.

    Text is a list of code points, file content a list of bytes, the
    malformed-line dictionary a [gmap] from line numbers to records.

    The runtime is modelled as CPython 3.11 or later on a POSIX system with
    a UTF-8 locale: a text-mode file writes LF as it is and encodes in
    UTF-8, and the [csv] reader treats U+0000 as any other character. The
    store is a map from paths to contents; a run lists the states the store
    goes through, one per write to the temporary file and one for
    [os.replace], which is a single step. *)

From Stdlib Require Import NArith Strings.Byte Ascii String.
From stdpp Require Import gmap strings list fin_maps.

(** Python [str]: a sequence of code points. *)
Abbreviation text := (list N).
(** Python [bytes]. *)
Abbreviation bytes := (list byte).
(** One CSV record: the list of fields [csv.reader] yields for it. *)
Abbreviation record := (list text).

Definition NUL : byte := x00.
Definition LF : N := 10%N.
Definition CR : N := 13%N.
Definition COMMA : N := 44%N.
Definition DQUOTE : N := 34%N.

(** The exceptions that can leave [preprocess]. *)
Inductive error :=
| FileNotFoundError
| UnicodeDecodeError
| UnicodeEncodeError
| CsvError
| StopIteration.

(** ASCII literals as text, for examples. *)
Definition txt (s : string) : text := map Byte.to_N (list_byte_of_string s).

(** ** Strict UTF-8 *)
Module Utf8.
Local Open Scope N_scope.

Definition between (lo hi : N) (b : byte) : bool :=
  (lo <=? Byte.to_N b) && (Byte.to_N b <=? hi).

(** A continuation byte, 10xxxxxx. *)
Definition cont (b : byte) : bool := between 128 191 b.

(** The six payload bits of a continuation byte. *)
Definition low6 (b : byte) : N := Byte.to_N b - 128.

(** Allowed range of the second byte after a three-byte lead: E0 excludes
    overlong forms, ED excludes surrogates. *)
Definition second3 (lead : N) (b : byte) : bool :=
  if lead =? 224 then between 160 191 b
  else if lead =? 237 then between 128 159 b
  else cont b.

(** Allowed range of the second byte after a four-byte lead: F0 excludes
    overlong forms, F4 stops at U+10FFFF. *)
Definition second4 (lead : N) (b : byte) : bool :=
  if lead =? 240 then between 144 191 b
  else if lead =? 244 then between 128 143 b
  else cont b.

(** [bytes.decode('utf-8')] with the default [errors='strict']: [None] stands
    for [UnicodeDecodeError]. *)
Fixpoint decode (bs : bytes) : option text :=
  match bs with
  | [] => Some []
  | b1 :: r1 =>
    let n1 := Byte.to_N b1 in
    if n1 <? 128 then cons n1 <$> decode r1
    else if between 194 223 b1 then
      match r1 with
      | b2 :: r2 =>
        if cont b2 then cons ((n1 - 192) * 64 + low6 b2) <$> decode r2
        else None
      | _ => None
      end
    else if between 224 239 b1 then
      match r1 with
      | b2 :: b3 :: r3 =>
        if second3 n1 b2 && cont b3
        then cons ((n1 - 224) * 4096 + low6 b2 * 64 + low6 b3) <$> decode r3
        else None
      | _ => None
      end
    else if between 240 244 b1 then
      match r1 with
      | b2 :: b3 :: b4 :: r4 =>
        if second4 n1 b2 && cont b3 && cont b4
        then cons ((n1 - 240) * 262144 + low6 b2 * 4096 + low6 b3 * 64 + low6 b4)
               <$> decode r4
        else None
      | _ => None
      end
    else None
  end.

(** The byte with value [n]; only used below 256. *)
Definition byte_of_N (n : N) : byte := default x00 (Byte.of_N n).

(** UTF-8 form of one code point; surrogates and values past U+10FFFF
    have none ([UnicodeEncodeError]). *)
Definition encode_cp (c : N) : option bytes :=
  if c <? 128 then Some [byte_of_N c]
  else if c <? 2048 then
    Some [byte_of_N (192 + c / 64); byte_of_N (128 + c mod 64)]
  else if c <? 65536 then
    if (55296 <=? c) && (c <? 57344) then None
    else Some [byte_of_N (224 + c / 4096);
               byte_of_N (128 + (c / 64) mod 64);
               byte_of_N (128 + c mod 64)]
  else if c <? 1114112 then
    Some [byte_of_N (240 + c / 262144);
          byte_of_N (128 + (c / 4096) mod 64);
          byte_of_N (128 + (c / 64) mod 64);
          byte_of_N (128 + c mod 64)]
  else None.

(** [str.encode('utf-8')], as done by a text-mode file on write. *)
Fixpoint encode (t : text) : option bytes :=
  match t with
  | [] => Some []
  | c :: t' =>
    match encode_cp c, encode t' with
    | Some b, Some bs => Some (b ++ bs)
    | _, _ => None
    end
  end.

(** A code point a decoded string can hold. *)
Definition scalar (c : N) : Prop :=
  c < 1114112 ∧ ¬ (55296 ≤ c ∧ c < 57344).

End Utf8.

(** ** The [csv] module, default dialect

    delimiter comma, quotechar double quote, doublequote on, no escapechar,
    skipinitialspace off, lineterminator CR LF, QUOTE_MINIMAL, not strict. *)
Module Csv.
Local Open Scope N_scope.

(** Parser states of [_csv.c]; the two escape states are left out because
    the dialect has no escapechar and they cannot be entered. *)
Inductive state :=
| START_RECORD
| START_FIELD
| IN_FIELD
| IN_QUOTED_FIELD
| QUOTE_IN_QUOTED_FIELD
| EAT_CRNL.

#[global] Instance state_eq_dec : EqDecision state.
Proof. solve_decision. Defined.

(** The reader object: parser state, fields saved so far for the current
    record, and the buffer of the field being read. *)
Record reader := Reader {
  st : state;
  fields : record;
  field : text
}.

(** [csv.field_size_limit()], 128 KiB by default. *)
Definition field_limit : N := 131072.

Definition parse_reset : reader := Reader START_RECORD [] [].

(** [parse_add_char]: refuses to grow a field past the limit. *)
Definition parse_add_char (r : reader) (s : state) (c : N) : option reader :=
  if field_limit <=? N.of_nat (length (field r)) then None
  else Some (Reader s (fields r) (field r ++ [c])).

(** [parse_save_field]: the buffer becomes the next field. *)
Definition parse_save_field (r : reader) (s : state) : reader :=
  Reader s (fields r ++ [field r]) [].

Definition is_newline (c : N) : bool := (c =? LF) || (c =? CR).

(** [parse_process_char]; the input [None] is the end-of-line marker [EOL]
    that the reader feeds after the last character of every line. [None] as
    a result is [csv.Error]. *)
Definition parse_process_char (r : reader) (c : option N) : option reader :=
  match st r with
  | START_RECORD =>
    match c with
    | None => Some r
    | Some ch =>
      if is_newline ch then Some (Reader EAT_CRNL (fields r) (field r))
      else if ch =? DQUOTE then Some (Reader IN_QUOTED_FIELD (fields r) (field r))
      else if ch =? COMMA then Some (parse_save_field r START_FIELD)
      else parse_add_char r IN_FIELD ch
    end
  | START_FIELD =>
    match c with
    | None => Some (parse_save_field r START_RECORD)
    | Some ch =>
      if is_newline ch then Some (parse_save_field r EAT_CRNL)
      else if ch =? DQUOTE then Some (Reader IN_QUOTED_FIELD (fields r) (field r))
      else if ch =? COMMA then Some (parse_save_field r START_FIELD)
      else parse_add_char r IN_FIELD ch
    end
  | IN_FIELD =>
    match c with
    | None => Some (parse_save_field r START_RECORD)
    | Some ch =>
      if is_newline ch then Some (parse_save_field r EAT_CRNL)
      else if ch =? COMMA then Some (parse_save_field r START_FIELD)
      else parse_add_char r IN_FIELD ch
    end
  | IN_QUOTED_FIELD =>
    match c with
    | None => Some r
    | Some ch =>
      if ch =? DQUOTE then Some (Reader QUOTE_IN_QUOTED_FIELD (fields r) (field r))
      else parse_add_char r IN_QUOTED_FIELD ch
    end
  | QUOTE_IN_QUOTED_FIELD =>
    match c with
    | None => Some (parse_save_field r START_RECORD)
    | Some ch =>
      if ch =? DQUOTE then parse_add_char r IN_QUOTED_FIELD ch
      else if ch =? COMMA then Some (parse_save_field r START_FIELD)
      else if is_newline ch then Some (parse_save_field r EAT_CRNL)
      else parse_add_char r IN_FIELD ch
    end
  | EAT_CRNL =>
    match c with
    | None => Some (Reader START_RECORD (fields r) (field r))
    | Some ch => if is_newline ch then Some r else None
    end
  end.

(** The characters of one line, in order. *)
Fixpoint feed (r : reader) (line : text) : option reader :=
  match line with
  | [] => Some r
  | c :: rest =>
    match parse_process_char r (Some c) with
    | Some r' => feed r' rest
    | None => None
    end
  end.

(** One pass of the loop of [Reader_iternext]: a whole line, then [EOL]. *)
Definition feed_line (r : reader) (line : text) : option reader :=
  match feed r line with
  | Some r' => parse_process_char r' None
  | None => None
  end.

(** Everything the reader yields over an iterator of lines, and the
    exception that ends the iteration early, if any. A line [None] is a line
    whose production raised [UnicodeDecodeError] (the generator handed to
    [csv.reader] decodes lazily). The records before the failure have
    already been yielded. When the input ends inside a record, the record is
    yielded if a field is in progress. *)
Fixpoint read_rows (r : reader) (lines : list (option text))
  : list record * option error :=
  match lines with
  | [] =>
    if negb (N.of_nat (length (field r)) =? 0)
       || bool_decide (st r = IN_QUOTED_FIELD)
    then ([fields (parse_save_field r (st r))], None)
    else ([], None)
  | None :: _ => ([], Some UnicodeDecodeError)
  | Some line :: rest =>
    match feed_line r line with
    | None => ([], Some CsvError)
    | Some r' =>
      if bool_decide (st r' = START_RECORD)
      then let '(rows, e) := read_rows parse_reset rest in (fields r' :: rows, e)
      else read_rows r' rest
    end
  end.

Definition reader_rows (lines : list (option text)) : list record * option error :=
  read_rows parse_reset lines.

(** Characters that force a field into quotes: the delimiter, the quote
    character and the characters of the line terminator. *)
Definition special (c : N) : bool :=
  (c =? COMMA) || (c =? DQUOTE) || (c =? CR) || (c =? LF).

(** Field data as [join_append_data] copies it: quote characters doubled. *)
Definition double_quotes (f : text) : text :=
  flat_map (λ c, if c =? DQUOTE then [DQUOTE; DQUOTE] else [c]) f.

Definition write_field (f : text) : text :=
  if existsb special f then DQUOTE :: double_quotes f ++ [DQUOTE] else f.

Fixpoint join_fields (fs : list text) : text :=
  match fs with
  | [] => []
  | [f] => write_field f
  | f :: rest => write_field f ++ COMMA :: join_fields rest
  end.

(** The record as [csv_writerow] joins it: a record made of one empty field
    is written as a pair of quotes. *)
Definition join_record (row : record) : text :=
  match row with
  | [[]] => [DQUOTE; DQUOTE]
  | _ => join_fields row
  end.

(** [writer.writerow]: the text handed to the file's [write]. *)
Definition writerow (row : record) : text := join_record row ++ [CR; LF].

(** [writer.writerows], as one text. *)
Definition writerows (rows : list record) : text := flat_map writerow rows.

(** *** The parser's input as one sequence

    What [read_rows] feeds to [parse_process_char], flattened: the characters
    of every line, each line followed by the end-of-line marker. *)
Definition tokens (lines : list text) : list (option N) :=
  flat_map (λ line, map Some line ++ [None]) lines.

(** The same reader over that sequence. *)
Fixpoint read_tokens (r : reader) (toks : list (option N))
  : list record * option error :=
  match toks with
  | [] =>
    if negb (N.of_nat (length (field r)) =? 0)
       || bool_decide (st r = IN_QUOTED_FIELD)
    then ([fields (parse_save_field r (st r))], None)
    else ([], None)
  | tok :: rest =>
    match parse_process_char r tok with
    | None => ([], Some CsvError)
    | Some r' =>
      match tok with
      | None =>
        if bool_decide (st r' = START_RECORD)
        then let '(rows, e) := read_tokens parse_reset rest in
             (fields r' :: rows, e)
        else read_tokens r' rest
      | Some _ => read_tokens r' rest
      end
    end
  end.

(** The characters of a text with the marker after every LF. *)
Definition eols (t : text) : list (option N) :=
  flat_map (λ c, if c =? LF then [Some c; None] else [Some c]) t.

(** Whether a text read from a line start, or from inside a line when [b]
    holds, ends inside a line. *)
Definition open_from (b : bool) (t : text) : bool :=
  fold_left (λ _ c, negb (c =? LF)) t b.

(** A field the reader accepts: not longer than the limit. *)
Definition fits (f : text) : Prop := N.of_nat (length f) ≤ field_limit.

(** The invariant of the reader: its fields, saved or in progress, fit and
    are made of characters with the property [P]. *)
Definition good (P : N → Prop) (r : reader) : Prop :=
  Forall (λ f, fits f ∧ Forall P f) (fields r) ∧ fits (field r) ∧ Forall P (field r).

(** The line terminators the reader is shown: CR LF as written, LF after
    universal-newline translation. *)
Definition terminator (term : text) : Prop := term = [CR; LF] ∨ term = [LF].

(** The writer with another line terminator in place of CR LF. *)
Definition writerows_with (lineterminator : text) (rows : list record) : text :=
  flat_map (λ row, join_record row ++ lineterminator) rows.

End Csv.

(** ** Files *)
Module Io.
Local Open Scope N_scope.

(** Splitting at a terminator, which stays at the end of its line; a last
    line without terminator is kept. [cur] is the line in progress. *)
Fixpoint lines_from {A} (nl : A → bool) (cur l : list A) : list (list A) :=
  match l with
  | [] => match cur with [] => [] | _ => [cur] end
  | x :: l' =>
    if nl x then (cur ++ [x]) :: lines_from nl [] l'
    else lines_from nl (cur ++ [x]) l'
  end.

(** Iterating over a file opened with ['rb']. *)
Definition binary_lines (content : bytes) : list bytes :=
  lines_from (λ b, Byte.eqb b x0a) [] content.

(** Universal newlines on read (text mode, [newline=None]): CR LF and a lone
    CR both become LF. *)
Fixpoint universal_newlines (t : text) : text :=
  match t with
  | [] => []
  | c :: t' =>
    if c =? CR then
      match t' with
      | c' :: t'' =>
        if c' =? LF then LF :: universal_newlines t''
        else LF :: universal_newlines t'
      | [] => [LF]
      end
    else c :: universal_newlines t'
  end.

(** The same translation as one pass from left to right; [after_cr] tells
    that the previous character was a CR, already turned into LF. *)
Fixpoint translate (after_cr : bool) (t : text) : text :=
  match t with
  | [] => []
  | c :: t' =>
    if c =? CR then LF :: translate true t'
    else if c =? LF then
      if after_cr then translate false t' else LF :: translate false t'
    else c :: translate false t'
  end.

Definition text_lines (t : text) : list text :=
  lines_from (λ c, c =? LF) [] t.

(** Iterating over a file opened with ['r']: [None] when the content is not
    UTF-8. This is exact on UTF-8 content. On other content the file object
    of CPython, which decodes a block at a time, hands out the lines of the
    blocks before the bad byte and raises then; here the error comes before
    the first line. *)
Definition read_text_lines (content : bytes) : option (list text) :=
  text_lines ∘ universal_newlines <$> Utf8.decode content.

(** The store: path to content. *)
Abbreviation fs := (gmap string bytes).

(** [os.replace(src, dst)]. The program only calls it on a source it has
    just written; without a source the store is left as it is. *)
Definition os_replace (src dst : string) (σ : fs) : fs :=
  match σ !! src with
  | Some c => <[dst := c]> (delete src σ)
  | None => σ
  end.

End Io.

(** ** The program *)
Module Solution.
Import Csv Io.

(** One constructor per [LOGGER.info] call of the two functions, carrying
    the values formatted into the message. *)
Inductive log_entry :=
| Malformed (n : nat) (f : string)    (* Line n in f is malformed *)
| Fixing (f : string)                 (* Fixing malformed lines in f *)
| Empty (l : nat) (f : string)        (* Line l in file f is empty *)
| Combined (a b : nat) (f : string).  (* Successfully combined lines a and b from file f *)

(** What one iteration of a writing loop does: the records it hands to
    [writer.writerow], then the messages it logs. *)
Abbreviation step := (list record * list log_entry)%type.

Definition written (steps : list step) : list record := flat_map fst steps.
Definition logged (steps : list step) : list log_entry := flat_map snd steps.

(** Truth value of a string: non-empty. *)
Definition truthy (s : text) : bool :=
  match s with [] => false | _ => true end.

(** [len(list(filter(None, line)))], the number of populated fields. *)
Definition populated (line : record) : nat := length (List.filter truthy line).

(** The scanning loop of [preprocess] (lines 140-147) over the data records,
    numbered from [idx] on; [len] is [len(headers)]. *)
Fixpoint scan (fp : string) (len idx : nat) (rows : list record)
    (malformed : gmap nat record) : gmap nat record * list log_entry :=
  match rows with
  | [] => (malformed, [])
  | line :: rest =>
    let check := populated line in
    if (check <? len) && (0 <? check) then
      let '(m, lg) := scan fp len (S idx) rest (<[idx := line]> malformed) in
      (m, Malformed idx fp :: lg)
    else scan fp len (S idx) rest malformed
  end.

(** The body of the loop of [fix_bad_line] (lines 180-200) for the record
    [line] at line number [idx]. The lists [a] and [b] the source builds in
    the merge branch are never read and are left out. *)
Definition fix_line (file_path : string) (corrupt_map : gmap nat record)
    (num_cols idx : nat) (line : record) : step :=
  if bool_decide (corrupt_map !! idx = None) && bool_decide (line ≠ []) then
    ([line], [])
  else if length line =? 0 then
    ([], [Empty idx file_path])
  else
    match corrupt_map !! idx, corrupt_map !! (idx + 1) with
    | Some this_line, Some next_line =>
      if bool_decide (this_line ≠ []) && bool_decide (next_line ≠ []) then
        if length this_line + length next_line =? num_cols then
          ([this_line ++ next_line], [Combined idx (idx + 1) file_path])
        else ([], [])
      else ([], [])
    | _, _ => ([], [])
    end.

(** The loop of [fix_bad_line] over the records of the file, numbered from
    [idx] on (the source starts at 1, the header). *)
Fixpoint fix_steps (file_path : string) (corrupt_map : gmap nat record)
    (num_cols idx : nat) (rows : list record) : list step :=
  match rows with
  | [] => []
  | line :: rest =>
    fix_line file_path corrupt_map num_cols idx line
      :: fix_steps file_path corrupt_map num_cols (S idx) rest
  end.

(** Lines 137-152 on the records [rows] read from the sanitized file: the
    records the file holds afterwards and the messages logged. Without a
    header [reader.__next__()] raises; without malformed lines the file is
    left as it is. *)
Definition repair (fp : string) (rows : list record)
  : option (list record * list log_entry) :=
  match rows with
  | [] => None
  | headers :: data =>
    let '(malformed, lg) := scan fp (length headers) 2 data ∅ in
    if 0 <? size malformed then
      let steps := fix_steps fp malformed (length headers) 1 rows in
      Some (written steps, lg ++ Fixing fp :: logged steps)
    else Some (rows, lg)
  end.

(** The test of line 142 on its own. *)
Definition is_malformed (len : nat) (line : record) : bool :=
  (populated line <? len) && (0 <? populated line).

(** The malformed-line dictionary [preprocess] builds for [rows]. *)
Definition malformed_index (fp : string) (rows : list record) : gmap nat record :=
  match rows with
  | [] => ∅
  | headers :: data => (scan fp (length headers) 2 data ∅).1
  end.

(** A log entry names line [idx]. *)
Definition cites (idx : nat) (e : log_entry) : bool :=
  match e with
  | Malformed n _ => n =? idx
  | Fixing _ => false
  | Empty l _ => l =? idx
  | Combined a b _ => (a =? idx) || (b =? idx)
  end.

(** *** On the store *)

(** [line.replace(b'\x00', b'')]. *)
Definition replace_nul (line : bytes) : bytes :=
  List.filter (λ b, negb (Byte.eqb b NUL)) line.

(** The generator handed to [csv.reader] on line 129. *)
Definition sanitized_lines (content : bytes) : list (option text) :=
  map (λ line, Utf8.decode (replace_nul line)) (binary_lines content).

(** [csv.reader] over a file opened with ['r']. A text-mode file decodes
    ahead of the lines it hands out, a block at a time; content that is not
    UTF-8 is taken to raise before the first record, where CPython yields
    the records of the blocks before the bad byte first. This is exact on
    UTF-8 content, which is all the sanitizing pass leaves. *)
Definition text_reader (content : bytes) : list record * option error :=
  match read_text_lines content with
  | None => ([], Some UnicodeDecodeError)
  | Some ls => reader_rows (map Some ls)
  end.

(** A run: the states the store goes through (after the initial one), the
    log, and the exception raised, if any. *)
Abbreviation run := (list fs * list log_entry * option error)%type.

Definition final (σ : fs) (tr : list fs) : fs := List.last tr σ.

(** Writing to the open temporary file, one iteration after the other; [acc]
    is what the file holds so far. In an iteration the write comes before
    the log call, so an encoding failure loses the messages of that
    iteration and of those after it. *)
Fixpoint write_steps (σ : fs) (tmp : string) (acc : bytes) (steps : list step)
  : run :=
  match steps with
  | [] => ([], [], None)
  | (rows, lg) :: rest =>
    match Utf8.encode (writerows rows) with
    | None => ([], [], Some UnicodeEncodeError)
    | Some b =>
      let σ' := <[tmp := acc ++ b]> σ in
      let '(tr, lgs, e) := write_steps σ' tmp (acc ++ b) rest in
      (match rows with [] => tr | _ => σ' :: tr end, lg ++ lgs, e)
    end
  end.

(** The shape shared by lines 127-133 and 176-202: open [tmp] for writing
    (which creates or truncates it), run the loop, and replace [fp] by [tmp]
    once the [with] block is left normally. [perr] is the exception the
    producer of the iterations raised after the last of them, if any. *)
Definition rewrite_pass (σ : fs) (fp tmp : string) (steps : list step)
    (perr : option error) : run :=
  let σ0 := <[tmp := []]> σ in
  let '(tr, lg, werr) := write_steps σ0 tmp [] steps in
  match werr, perr with
  | Some e, _ => (σ0 :: tr, lg, Some e)
  | None, Some e => (σ0 :: tr, lg, Some e)
  | None, None => (σ0 :: tr ++ [os_replace tmp fp (final σ0 tr)], lg, None)
  end.

(** What atomic replacement means for the states [tr] of a pass over the
    file [fp], started in the store [σ]. While the pass writes, every path
    but the temporary one holds what it held in [σ], the file [fp] included.
    A failed pass has no other state. A successful one ends with one more
    state, in which [fp] holds the whole encoded [new_text] and every other
    path but the temporary one still holds what it held. *)
Definition replaced_atomically (fp : string) (σ : fs) (new_text : text)
    (tr : list fs) (e : option error) : Prop :=
  let untouched (σ' : fs) := ∀ p, p ≠ fp +:+ "_tmp" → σ' !! p = σ !! p in
  match e with
  | Some _ => ∀ σ', σ' ∈ tr → untouched σ'
  | None =>
    ∃ body last new,
      tr = body ++ [last] ∧ (∀ σ', σ' ∈ body → untouched σ') ∧
      Utf8.encode new_text = Some new ∧ last !! fp = Some new ∧
      ∀ p, p ≠ fp +:+ "_tmp" → p ≠ fp → last !! p = σ !! p
  end.

(** [fix_bad_line]. *)
Definition fix_bad_line (file_path : string) (corrupt_map : gmap nat record)
    (num_cols : nat) (σ : fs) : run :=
  let tmp := file_path +:+ "_tmp" in
  match σ !! file_path with
  | None => ([], [], Some FileNotFoundError)
  | Some content =>
    let '(rows, rerr) := text_reader content in
    rewrite_pass σ file_path tmp
      (fix_steps file_path corrupt_map num_cols 1 rows) rerr
  end.

(** [str(DATA / fin)] for a plain file name, where the path is [DATA], a
    slash and the name. For other names [pathlib] does more than append: it
    drops a [.] component and repeated slashes, and an absolute name
    replaces [DATA]. *)
Definition data_path (DATA fin : string) : string := DATA +:+ "/" +:+ fin.

Fixpoint has_slash (s : string) : bool :=
  match s with
  | EmptyString => false
  | String c s' => Ascii.eqb c "/"%char || has_slash s'
  end.

(** A plain file name, as [os.walk] yields them: not empty, not [.] and
    without a slash. *)
Definition plain_name (fin : string) : bool :=
  negb (String.eqb fin EmptyString) && negb (String.eqb fin ".")
  && negb (has_slash fin).

(** The sanitizing pass of [preprocess] (lines 124-133) on one file. *)
Definition sanitize (fp : string) (σ : fs) : run :=
  let tmp := fp +:+ "_tmp" in
  match σ !! fp with
  | None => ([], [], Some FileNotFoundError)
  | Some content =>
    let '(rows, rerr) := reader_rows (sanitized_lines content) in
    rewrite_pass σ fp tmp (map (λ r, ([r], [])) rows) rerr
  end.

(** The scan and the conditional repair (lines 135-152) on one file. *)
Definition scan_and_fix (fp : string) (σ : fs) : run :=
  match σ !! fp with
  | None => ([], [], Some FileNotFoundError)
  | Some content =>
    let '(rows, rerr) := text_reader content in
    match rows with
    | [] => ([], [], Some (default StopIteration rerr))
    | headers :: data =>
      let '(malformed, lg) := scan fp (length headers) 2 data ∅ in
      match rerr with
      | Some e => ([], lg, Some e)
      | None =>
        if 0 <? size malformed then
          let '(tr, lg', e) := fix_bad_line fp malformed (length headers) σ in
          (tr, lg ++ Fixing fp :: lg', e)
        else ([], lg, None)
      end
    end
  end.

(** One iteration of the loop of [preprocess]. *)
Definition preprocess_file (DATA fin : string) (σ : fs) : run :=
  let fp := data_path DATA fin in
  let '(tr1, lg1, e1) := sanitize fp σ in
  match e1 with
  | Some e => (tr1, lg1, Some e)
  | None =>
    let '(tr2, lg2, e2) := scan_and_fix fp (final σ tr1) in
    (tr1 ++ tr2, lg1 ++ lg2, e2)
  end.

(** [preprocess]: nothing catches an exception, so the first one ends the
    loop. *)
Fixpoint preprocess (DATA : string) (files : list string) (σ : fs) : run :=
  match files with
  | [] => ([], [], None)
  | fin :: rest =>
    let '(tr, lg, e) := preprocess_file DATA fin σ in
    match e with
    | Some err => (tr, lg, Some err)
    | None =>
      let '(tr', lg', e') := preprocess DATA rest (final σ tr) in
      (tr ++ tr', lg ++ lg', e')
    end
  end.

End Solution.

(** ** Around [preprocess]: file discovery, upload and [etl] *)
Module Loader.
Import Csv Io Solution.

(** [s.endswith(suffix)]: some tail of [s] is [suffix]. *)
Fixpoint endswith (s suffix : string) : bool :=
  String.eqb s suffix
  || match s with
     | EmptyString => false
     | String _ s' => endswith s' suffix
     end.

(** The loop of [get_data_file_names] (lines 65-66) over what [os.walk]
    yields, one triple (dirpath, dirnames, filenames) per directory: every
    iteration assigns [fns] anew. *)
Fixpoint walk_loop (fns : list string)
    (walk : list (string * list string * list string)) : list string :=
  match walk with
  | [] => fns
  | (_, _, fn) :: rest =>
    walk_loop (List.filter (λ f, endswith f ".csv") fn) rest
  end.

(** [get_data_file_names]; [walk] is [os.walk(str(DATA))]. *)
Definition get_data_file_names
    (walk : list (string * list string * list string)) : list string :=
  walk_loop [] walk.

(** [s.split('_')[0]]: what comes before the first underscore. *)
Fixpoint before_underscore (s : string) : string :=
  match s with
  | EmptyString => EmptyString
  | String c s' =>
    if Ascii.eqb c "_"%char then EmptyString
    else String c (before_underscore s')
  end.

(** Lines 93-95: the table a file is copied into. *)
Definition table_name (fin : string) : string :=
  let table := before_underscore fin in
  if String.eqb table "user" then "users" else table.

(** The two statements [upload_to_db] executes. *)
Inductive statement := CREATE_MARKETING | CREATE_USER.

(** The calls [upload_to_db] makes on the cursor. [CopyFrom] carries what
    is left of the file after [next(f)], as lines, and the other arguments
    of [cursor.copy_from]. *)
Inductive db_call :=
| Execute (sql : statement)
| CopyFrom (file : list text) (table sep null : string).

(** The messages of [upload_to_db]. *)
Inductive upload_log :=
| CreatedMarketing   (* Created the marketing table *)
| CreatedUsers.      (* Created the users table *)

(** The loop of [upload_to_db] (lines 92-104). The file is opened in text
    mode; [next(f)] takes its first line and raises [StopIteration] when
    there is none. What the database does with a call is outside the
    program. For a file that is not UTF-8 the error is placed at [next(f)],
    as in [read_text_lines]; in CPython it can come later, inside
    [copy_from], when the bad byte lies past the first block. The loop is
    exact for files that are missing, empty or UTF-8. *)
Fixpoint copy_files (DATA : string) (files : list string) (σ : fs)
  : list db_call * option error :=
  match files with
  | [] => ([], None)
  | fin :: rest =>
    let table := table_name fin in
    let fp := data_path DATA fin in
    match σ !! fp with
    | None => ([], Some FileNotFoundError)
    | Some content =>
      match read_text_lines content with
      | None => ([], Some UnicodeDecodeError)
      | Some [] => ([], Some StopIteration)
      | Some (_ :: f) =>
        let '(calls, e) := copy_files DATA rest σ in
        (CopyFrom f table "," "NULL" :: calls, e)
      end
    end
  end.

(** [upload_to_db]: the calls made, the messages logged, the exception. *)
Definition upload_to_db (DATA : string) (files : list string) (σ : fs)
  : list db_call * list upload_log * option error :=
  let '(calls, e) := copy_files DATA files σ in
  (Execute CREATE_MARKETING :: Execute CREATE_USER :: calls,
   [CreatedMarketing; CreatedUsers], e).

(** [etl]: the states of the store and the log of [preprocess], then what
    [upload_to_db] does on the store [preprocess] leaves. An exception in
    [preprocess] ends [etl] before [upload_to_db] is called. *)
Definition etl (DATA : string)
    (walk : list (string * list string * list string)) (σ : fs)
  : list fs * list log_entry * list db_call * list upload_log * option error :=
  let files := get_data_file_names walk in
  let '(tr, lg, e) := preprocess DATA files σ in
  match e with
  | Some err => (tr, lg, [], [], Some err)
  | None =>
    let '(calls, ulg, e') := upload_to_db DATA files (final σ tr) in
    (tr, lg, calls, ulg, e')
  end.

(** Whether [next(f)] can take a line from the file at [p]: it is there, is
    UTF-8 and is not empty. *)
Definition readable (σ : fs) (p : string) : bool :=
  match σ !! p with
  | Some content =>
    match read_text_lines content with
    | Some (_ :: _) => true
    | _ => false
    end
  | None => false
  end.

End Loader.

Import Csv Io Solution Loader.

(** * Facts about the codec *)

Section utf8_facts.
Import Utf8.
Local Open Scope N_scope.

Lemma byte_of_N_to_N n : n < 256 → Byte.to_N (byte_of_N n) = n.
Proof.
  intros Hn. unfold byte_of_N.
  destruct (Byte.of_N n) as [b|] eqn:E; cbn.
  - by apply Byte.to_of_N.
  - apply Byte.of_N_None_iff in E. lia.
Qed.

Ltac decide_tests :=
  repeat match goal with
  | |- context [N.ltb ?a ?b] => destruct (N.ltb_spec a b); try lia
  | |- context [N.leb ?a ?b] => destruct (N.leb_spec a b); try lia
  | |- context [N.eqb ?a ?b] => destruct (N.eqb_spec a b); try lia
  end.

Lemma decode_encode_cp c bc rest :
  encode_cp c = Some bc → decode (bc ++ rest) = cons c <$> decode rest.
Proof.
  unfold encode_cp.
  destruct (N.ltb_spec c 128).
  { intros [= <-]. cbn [app decode]. rewrite byte_of_N_to_N by lia.
    destruct (N.ltb_spec c 128); [done|lia]. }
  pose proof (N.Div0.div_mod c 64) as D1. pose proof (N.mod_lt c 64) as M1.
  pose proof (N.Div0.div_mod (c / 64) 64) as D2. pose proof (N.mod_lt (c / 64) 64) as M2.
  pose proof (N.Div0.div_mod (c / 64 / 64) 64) as D3. pose proof (N.mod_lt (c / 64 / 64) 64) as M3.
  change 4096 with (64 * 64). change 262144 with (64 * 64 * 64).
  rewrite <- !N.Div0.div_div.
  set (q1 := c / 64) in *. set (r1 := c mod 64) in *.
  set (q2 := q1 / 64) in *. set (r2 := q1 mod 64) in *.
  set (q3 := q2 / 64) in *. set (r3 := q2 mod 64) in *.
  destruct (N.ltb_spec c 2048).
  { intros [= <-]. cbn [app decode]. unfold between, cont, low6, between.
    rewrite !byte_of_N_to_N by lia. decide_tests. cbn. do 2 f_equal. lia. }
  destruct (N.ltb_spec c 65536).
  { destruct (N.leb_spec 55296 c); destruct (N.ltb_spec c 57344); cbn [andb]; try done.
    all: intros [= <-]; cbn [app decode]; unfold between, second3, cont, low6, between;
      rewrite !byte_of_N_to_N by lia; decide_tests; cbn; do 2 f_equal; lia. }
  destruct (N.ltb_spec c 1114112); [|done].
  intros [= <-]. cbn [app decode]. unfold between, second4, cont, low6, between.
  rewrite !byte_of_N_to_N by lia. decide_tests. all: cbn; do 2 f_equal; lia.
Qed.

Lemma encode_app t1 t2 b1 b2 :
  encode t1 = Some b1 → encode t2 = Some b2 → encode (t1 ++ t2) = Some (b1 ++ b2).
Proof.
  revert b1. induction t1 as [|c t1 IH]; intros b1; cbn.
  - by intros [= <-].
  - destruct (encode_cp c) as [bc|]; [|done].
    destruct (encode t1) as [b1'|]; [|done]. intros [= <-] H2.
    by rewrite (IH _ eq_refl H2), <- app_assoc.
Qed.

Lemma encode_app_inv t1 t2 b :
  encode (t1 ++ t2) = Some b →
  ∃ b1 b2, encode t1 = Some b1 ∧ encode t2 = Some b2 ∧ b = b1 ++ b2.
Proof.
  revert b. induction t1 as [|c t1 IH]; intros b; cbn.
  - intros H. by exists [], b.
  - destruct (encode_cp c) as [bc|]; [|done].
    destruct (encode (t1 ++ t2)) as [b'|]; [|done]. intros [= <-].
    destruct (IH _ eq_refl) as (b1 & b2 & -> & -> & ->).
    exists (bc ++ b1), b2. by rewrite <- app_assoc.
Qed.

Lemma utf8_decode_encode t b : encode t = Some b → decode b = Some t.
Proof.
  revert b. induction t as [|c t IH]; intros b; cbn.
  - by intros [= <-].
  - destruct (encode_cp c) as [bc|] eqn:Hc; [|done].
    destruct (encode t) as [b'|]; [|done]. intros [= <-].
    by rewrite (decode_encode_cp _ _ _ Hc), (IH _ eq_refl).
Qed.

Lemma scalar_encodable c : scalar c → is_Some (encode_cp c).
Proof.
  intros [H1 H2]. unfold encode_cp.
  destruct (N.ltb_spec c 128); [done|].
  destruct (N.ltb_spec c 2048); [done|].
  destruct (N.ltb_spec c 65536).
  - destruct (N.leb_spec 55296 c); destruct (N.ltb_spec c 57344); cbn; try done.
    lia.
  - destruct (N.ltb_spec c 1114112); [done|lia].
Qed.

Lemma to_N_zero b : Byte.to_N b = 0 → b = x00.
Proof.
  intros H. pose proof (Byte.of_to_N b) as E. rewrite H in E. cbn in E. congruence.
Qed.

Lemma between_spec lo hi b :
  between lo hi b = true ↔ lo ≤ Byte.to_N b ≤ hi.
Proof. unfold between. rewrite andb_true_iff, !N.leb_le. done. Qed.

(** One step of the decoder: a non-empty prefix is consumed and gives one
    scalar value, which is zero only for the byte zero. *)
Lemma decode_cons_inv b1 r1 t :
  decode (b1 :: r1) = Some t →
  ∃ c t' pre r',
    b1 :: r1 = pre ++ r' ∧ pre ≠ [] ∧ t = c :: t' ∧ decode r' = Some t' ∧
    scalar c ∧ (c = 0 → x00 ∈ pre).
Proof.
  cbn [decode]. destruct (N.ltb_spec (Byte.to_N b1) 128) as [H1|H1].
  { intros (t' & Ht & ->)%fmap_Some. exists (Byte.to_N b1), t', [b1], r1.
    split_and!; try done.
    - unfold scalar. lia.
    - intros ->%to_N_zero. apply list_elem_of_here. }
  destruct (between 194 223 b1) eqn:H2.
  { apply between_spec in H2. destruct r1 as [|b2 r2]; [done|].
    destruct (cont b2) eqn:H3; [|done]. apply between_spec in H3.
    intros (t' & Ht & ->)%fmap_Some. eexists _, t', [b1; b2], r2.
    split_and!; try done.
    - unfold scalar, low6. lia.
    - unfold low6. lia. }
  destruct (between 224 239 b1) eqn:H3.
  { apply between_spec in H3. destruct r1 as [|b2 [|b3 r3]]; try done.
    destruct (second3 (Byte.to_N b1) b2 && cont b3) eqn:H4; [|done].
    apply andb_true_iff in H4 as [H4 H5]. apply between_spec in H5.
    intros (t' & Ht & ->)%fmap_Some. eexists _, t', [b1; b2; b3], r3.
    unfold second3 in H4.
    destruct (N.eqb_spec (Byte.to_N b1) 224);
      [|destruct (N.eqb_spec (Byte.to_N b1) 237)]; apply between_spec in H4.
    all: split_and!; try done; unfold scalar, low6; lia. }
  destruct (between 240 244 b1) eqn:H4; [|done].
  apply between_spec in H4. destruct r1 as [|b2 [|b3 [|b4 r4]]]; try done.
  destruct (second4 (Byte.to_N b1) b2 && cont b3 && cont b4) eqn:H5; [|done].
  apply andb_true_iff in H5 as [[H5 H6]%andb_true_iff H7].
  apply between_spec in H6, H7.
  intros (t' & Ht & ->)%fmap_Some. eexists _, t', [b1; b2; b3; b4], r4.
  unfold second4 in H5.
  destruct (N.eqb_spec (Byte.to_N b1) 240);
    [|destruct (N.eqb_spec (Byte.to_N b1) 244)]; apply between_spec in H5.
  all: split_and!; try done; unfold scalar, low6; lia.
Qed.

(** Decoded text holds scalar values only, and no U+0000 unless the bytes
    hold a zero. *)
Lemma decode_scalar b : ∀ t,
  decode b = Some t →
  Forall scalar t ∧ (x00 ∉ b → 0 ∉ t).
Proof.
  remember (length b) as n eqn:Hn. revert b Hn.
  induction n as [n IH] using lt_wf_ind. intros [|b1 r1] Hn t.
  { cbn. intros [= <-]. split; [constructor|]. by intros _ ?%elem_of_nil. }
  intros (c & t' & pre & r' & Hb & Hpre & -> & Hd & Hc & H0)%decode_cons_inv.
  assert (length r' < length (b1 :: r1))%nat as Hlen.
  { rewrite Hb, length_app. destruct pre; [done|cbn; lia]. }
  destruct (IH (length r') ltac:(lia) r' eq_refl t' Hd) as [IH1 IH2].
  split; [by constructor|].
  rewrite Hb. intros Hnz [Heq|Hin]%elem_of_cons.
  - apply Hnz, elem_of_app. left. by apply H0.
  - revert Hin. apply IH2. intros ?. apply Hnz, elem_of_app. by right.
Qed.


Lemma encode_cp_bytes c bc :
  encode_cp c = Some bc →
  (c < 128 ∧ bc = [byte_of_N c]) ∨ (128 ≤ c ∧ Forall (λ b, 128 ≤ Byte.to_N b) bc).
Proof.
  unfold encode_cp.
  destruct (N.ltb_spec c 128); [intros [= <-]; by left|].
  pose proof (N.Div0.div_mod c 64) as D1. pose proof (N.mod_lt c 64) as M1.
  pose proof (N.Div0.div_mod (c / 64) 64) as D2.
  pose proof (N.mod_lt (c / 64) 64) as M2.
  pose proof (N.Div0.div_mod (c / 64 / 64) 64) as D3.
  pose proof (N.mod_lt (c / 64 / 64) 64) as M3.
  change 4096 with (64 * 64). change 262144 with (64 * 64 * 64).
  rewrite <- !N.Div0.div_div.
  set (q1 := c / 64) in *. set (r1 := c mod 64) in *.
  set (q2 := q1 / 64) in *. set (r2 := q1 mod 64) in *.
  set (q3 := q2 / 64) in *. set (r3 := q2 mod 64) in *.
  destruct (N.ltb_spec c 2048).
  { intros [= <-]. right. split; [done|].
    repeat first [apply List.Forall_nil | apply List.Forall_cons];
      rewrite byte_of_N_to_N; lia. }
  destruct (N.ltb_spec c 65536).
  { destruct ((55296 <=? c) && (c <? 57344)); [done|]. intros [= <-]. right.
    split; [done|]. repeat first [apply List.Forall_nil | apply List.Forall_cons];
      rewrite byte_of_N_to_N; lia. }
  destruct (N.ltb_spec c 1114112); [|done]. intros [= <-]. right.
  split; [done|]. repeat first [apply List.Forall_nil | apply List.Forall_cons];
      rewrite byte_of_N_to_N; lia.
Qed.

Lemma encode_cp_nonempty c : encode_cp c ≠ Some [].
Proof. unfold encode_cp. repeat case_match; done. Qed.

Lemma byte_eqb_false b b' : Byte.to_N b ≠ Byte.to_N b' → Byte.eqb b b' = false.
Proof.
  intros H. destruct (Byte.eqb b b') eqn:E; [|done].
  apply Byte.byte_dec_bl in E. congruence.
Qed.

(** Only U+000A is encoded with the byte 0A and only U+0000 with the byte 00. *)
Lemma encode_cp_other c bc b0 :
  Byte.to_N b0 < 128 → c ≠ Byte.to_N b0 → encode_cp c = Some bc →
  Forall (λ b, Byte.eqb b b0 = false) bc.
Proof.
  intros Hb Hne [[Hc ->]|[Hc Hall]]%encode_cp_bytes.
  - repeat constructor. apply byte_eqb_false. rewrite byte_of_N_to_N; lia.
  - eapply Forall_impl; [exact Hall|]. intros b Hge. cbn beta in Hge.
    apply byte_eqb_false. lia.
Qed.

Lemma lines_from_skip {A} (nl : A → bool) xs : ∀ cur l,
  Forall (λ x, nl x = false) xs →
  lines_from nl cur (xs ++ l) = lines_from nl (cur ++ xs) l.
Proof.
  induction xs as [|x xs IH]; intros cur l H; cbn.
  - by rewrite app_nil_r.
  - apply Forall_cons in H as [-> H]. rewrite IH by done. by rewrite <- app_assoc.
Qed.

Lemma lines_from_Forall {A} (nl : A → bool) (P : A → Prop) t : ∀ cur,
  Forall P cur → Forall P t → Forall (Forall P) (lines_from nl cur t).
Proof.
  induction t as [|c t IH]; intros cur Hcur Ht; cbn.
  - destruct cur; [constructor|]. apply List.Forall_cons; [done|constructor].
  - apply Forall_cons in Ht as [Hc Ht].
    assert (Forall P (cur ++ [c])).
    { apply Forall_app. split; [done|]. apply List.Forall_cons; [done|constructor]. }
    destruct (nl c); [constructor|]; auto.
Qed.

(** The binary lines of an encoded text are the encoded lines of the text. *)
Lemma lines_encode t : ∀ cur b cb,
  encode t = Some b → encode cur = Some cb →
  Forall2 (λ l bl, encode l = Some bl)
    (lines_from (λ c, c =? LF) cur t) (lines_from (λ x, Byte.eqb x x0a) cb b).
Proof.
  induction t as [|c t IH]; intros cur b cb; cbn [encode].
  - intros [= <-] Hcur. cbn. destruct cur as [|c0 cur].
    + cbn in Hcur. injection Hcur as <-. constructor.
    + destruct cb as [|b0 cb].
      { cbn in Hcur. destruct (encode_cp c0) as [bc|] eqn:Hc; [|done].
        destruct (encode cur); [|done]. injection Hcur as Hnil.
        apply app_eq_nil in Hnil as [-> _].
        by apply encode_cp_nonempty in Hc. }
      apply List.Forall2_cons; [done|constructor].
  - destruct (encode_cp c) as [bc|] eqn:Hc; [|done].
    destruct (encode t) as [b'|] eqn:Ht; [|done]. intros [= <-] Hcur.
    assert (encode (cur ++ [c]) = Some (cb ++ bc)) as Hcur'.
    { apply encode_app; [done|]. cbn. by rewrite Hc, app_nil_r. }
    cbn [lines_from]. destruct (N.eqb_spec c LF) as [->|Hne].
    + vm_compute in Hc. injection Hc as <-. cbn [app lines_from Byte.eqb].
      change (Byte.eqb x0a x0a) with true. cbn iota.
      constructor; [done|]. by apply IH.
    + rewrite lines_from_skip by (eapply (encode_cp_other c bc x0a); done).
      by apply IH.
Qed.

Lemma replace_nul_id bl : x00 ∉ bl → replace_nul bl = bl.
Proof.
  induction bl as [|b bl IH]; intros H; [done|]. cbn.
  destruct (Byte.eqb b NUL) eqn:E.
  - apply Byte.byte_dec_bl in E. subst b. exfalso. apply H, list_elem_of_here.
  - cbn. f_equal. apply IH. intros ?. apply H. by apply list_elem_of_further.
Qed.

Lemma encode_no_nul t : ∀ b, encode t = Some b → 0 ∉ t → x00 ∉ b.
Proof.
  induction t as [|c t IH]; intros b; cbn.
  - intros [= <-] _. by intros ?%elem_of_nil.
  - destruct (encode_cp c) as [bc|] eqn:Hc; [|done].
    destruct (encode t) as [b'|]; [|done]. intros [= <-] Hz.
    intros [Hin|Hin]%elem_of_app.
    + assert (c ≠ 0) as Hc0 by (intros ->; apply Hz, list_elem_of_here).
      pose proof (encode_cp_other c bc x00 ltac:(done) Hc0 Hc) as Hall.
      rewrite Forall_forall in Hall. specialize (Hall _ Hin). done.
    + revert Hin. apply (IH _ eq_refl). intros ?. apply Hz.
      by apply list_elem_of_further.
Qed.

(** Reading back, the way the sanitizing pass reads, a text that was
    written encoded: its lines come back as they are. *)
Lemma sanitized_lines_encode t b :
  encode t = Some b → 0 ∉ t → sanitized_lines b = map Some (text_lines t).
Proof.
  intros Hb Hz. unfold sanitized_lines, binary_lines, text_lines.
  pose proof (lines_encode t [] b [] Hb eq_refl) as H2.
  assert (Forall (Forall (λ c, c ≠ 0)) (lines_from (λ c, c =? LF) [] t)) as Hnz.
  { apply lines_from_Forall; [constructor|]. apply Forall_forall.
    intros c Hc ->. done. }
  induction H2 as [|l bl ls bls Hl _ IH]; [done|].
  apply Forall_cons in Hnz as [Hl0 Hnz]. cbn. rewrite IH by done. f_equal.
  rewrite replace_nul_id.
  - by apply utf8_decode_encode.
  - eapply encode_no_nul; [done|]. rewrite list_elem_of_In. intros Hin.
    rewrite Forall_forall in Hl0. by apply (Hl0 0); [apply list_elem_of_In|].
Qed.

End utf8_facts.

(** * Facts about the reader and the writer *)

Section csv_facts.
Local Open Scope N_scope.
Implicit Types (r : reader) (f buf : text) (fs : record) (rest : list (option N)).

Lemma read_tokens_char r c rest r' :
  parse_process_char r (Some c) = Some r' →
  read_tokens r (Some c :: rest) = read_tokens r' rest.
Proof. intros H. cbn [read_tokens]. by rewrite H. Qed.

Ltac step r' :=
  match goal with
  | |- read_tokens ?r (Some ?c :: ?rest) = _ =>
    rewrite (read_tokens_char r c rest r')
  end.

Lemma read_tokens_eol_inside r rest :
  st r = IN_QUOTED_FIELD →
  read_tokens r (None :: rest) = read_tokens r rest.
Proof.
  intros H. cbn [read_tokens]. unfold parse_process_char. rewrite H.
  by rewrite bool_decide_eq_false_2 by (rewrite H; done).
Qed.

Lemma read_tokens_eol_end r rest r' :
  parse_process_char r None = Some r' → st r' = START_RECORD →
  read_tokens r (None :: rest) =
    let '(rows, e) := read_tokens parse_reset rest in (fields r' :: rows, e).
Proof.
  intros H Hs. cbn [read_tokens]. rewrite H.
  by rewrite bool_decide_eq_true_2.
Qed.

Lemma read_tokens_feed line : ∀ r rest,
  read_tokens r (map Some line ++ rest) =
    match feed r line with
    | Some r' => read_tokens r' rest
    | None => ([], Some CsvError)
    end.
Proof.
  induction line as [|c line IH]; intros r rest; [done|].
  cbn [map app read_tokens feed].
  destruct (parse_process_char r (Some c)) as [r'|]; [apply IH|done].
Qed.

(** The reader over lines is the reader over their flattening. *)
Lemma read_rows_tokens lines : ∀ r,
  read_rows r (map Some lines) = read_tokens r (tokens lines).
Proof.
  induction lines as [|line lines IH]; intros r; [done|].
  cbn [map read_rows tokens flat_map]. rewrite <- app_assoc, read_tokens_feed.
  unfold feed_line. destruct (feed r line) as [r1|]; [|done].
  cbn [app read_tokens].
  destruct (parse_process_char r1 None) as [r2|]; [|done].
  fold (tokens lines). rewrite !IH. done.
Qed.

Lemma open_from_app b t1 t2 :
  open_from b (t1 ++ t2) = open_from (open_from b t1) t2.
Proof. apply fold_left_app. Qed.

(** The flattening of the lines of a text. *)
Lemma tokens_lines t : ∀ cur,
  tokens (lines_from (λ c, c =? LF) cur t) =
    map Some cur ++ eols t
      ++ (if open_from (negb (bool_decide (cur = []))) t then [None] else []).
Proof.
  induction t as [|c t IH]; intros cur.
  - cbn. destruct cur; cbn; [done|]. by rewrite app_nil_r.
  - cbn [lines_from eols flat_map open_from fold_left].
    fold (open_from (negb (c =? LF)) t). fold (eols t).
    destruct (c =? LF) eqn:Hc.
    + cbn [tokens flat_map]. fold (tokens (lines_from (λ c, c =? LF) [] t)).
      rewrite IH. cbn [map app negb]. rewrite map_app, <- !app_assoc. done.
    + rewrite IH. rewrite bool_decide_eq_false_2 by (by destruct cur).
      cbn [negb]. rewrite map_app, <- !app_assoc. done.
Qed.

Lemma eols_app t1 t2 : eols (t1 ++ t2) = eols t1 ++ eols t2.
Proof. apply flat_map_app. Qed.

Lemma add_char r s c :
  fits (field r ++ [c]) →
  parse_add_char r s c = Some (Reader s (fields r) (field r ++ [c])).
Proof.
  unfold fits, parse_add_char. rewrite length_app. cbn [length]. intros H.
  destruct (N.leb_spec field_limit (N.of_nat (length (field r)))); [lia|done].
Qed.

Lemma fits_prefix f1 f2 : fits (f1 ++ f2) → fits f1.
Proof. unfold fits. rewrite length_app. lia. Qed.

(** The data of a quoted field, read back inside the quotes. *)
Lemma quoted_body f : ∀ buf fs rest,
  fits (buf ++ f) →
  read_tokens (Reader IN_QUOTED_FIELD fs buf) (eols (double_quotes f) ++ rest) =
  read_tokens (Reader IN_QUOTED_FIELD fs (buf ++ f)) rest.
Proof.
  induction f as [|c f IH]; intros buf fs rest Hfit.
  { by rewrite app_nil_r. }
  assert (fits (buf ++ [c])) as Hc.
  { apply (fits_prefix _ f). by rewrite <- app_assoc. }
  replace (buf ++ c :: f) with ((buf ++ [c]) ++ f) in * by (by rewrite <- app_assoc).
  cbn [double_quotes flat_map]. fold (double_quotes f).
  destruct (N.eqb_spec c DQUOTE) as [->|Hq].
  - cbn [app eols flat_map]. fold (eols (double_quotes f)).
    change (DQUOTE =? LF) with false. cbn iota. cbn [app].
    step (Reader QUOTE_IN_QUOTED_FIELD fs buf); [|reflexivity].
    step (Reader IN_QUOTED_FIELD fs (buf ++ [DQUOTE])).
    2:{ unfold parse_process_char. cbn [st]. change (DQUOTE =? DQUOTE) with true.
        cbn iota. by rewrite add_char. }
    by apply IH.
  - cbn [app eols flat_map]. fold (eols (double_quotes f)).
    assert (parse_process_char (Reader IN_QUOTED_FIELD fs buf) (Some c)
            = Some (Reader IN_QUOTED_FIELD fs (buf ++ [c]))) as Hstep.
    { unfold parse_process_char. cbn [st].
      rewrite (proj2 (N.eqb_neq _ _) Hq). by rewrite add_char. }
    destruct (c =? LF); cbn [app]; (step (Reader IN_QUOTED_FIELD fs (buf ++ [c])); [|done]).
    + rewrite read_tokens_eol_inside by done. by apply IH.
    + by apply IH.
Qed.

Lemma special_false c :
  special c = false → c ≠ COMMA ∧ c ≠ DQUOTE ∧ c ≠ CR ∧ c ≠ LF.
Proof.
  unfold special. rewrite !orb_false_iff, !N.eqb_neq. tauto.
Qed.

(** An unquoted field read back: any character opens the field, the others
    extend it. *)
Lemma unquoted_body f : ∀ s buf fs rest,
  existsb special f = false →
  s = START_RECORD ∨ s = START_FIELD ∨ s = IN_FIELD →
  fits (buf ++ f) →
  read_tokens (Reader s fs buf) (eols f ++ rest) =
  read_tokens (Reader (match f with [] => s | _ => IN_FIELD end) fs (buf ++ f)) rest.
Proof.
  induction f as [|c f IH]; intros s buf fs rest Hsp Hs Hfit.
  { by rewrite app_nil_r. }
  cbn [existsb] in Hsp. apply orb_false_iff in Hsp as [Hc Hsp].
  apply special_false in Hc as (Hcomma & Hq & Hcr & Hlf).
  assert (fits (buf ++ [c])) as Hfc.
  { apply (fits_prefix _ f). by rewrite <- app_assoc. }
  replace (buf ++ c :: f) with ((buf ++ [c]) ++ f) in * by (by rewrite <- app_assoc).
  cbn [eols flat_map]. fold (eols f). rewrite (proj2 (N.eqb_neq _ _) Hlf).
  cbn [app].
  step (Reader IN_FIELD fs (buf ++ [c])).
  2:{ unfold parse_process_char, is_newline.
      rewrite (proj2 (N.eqb_neq _ _) Hlf), (proj2 (N.eqb_neq _ _) Hcr),
        (proj2 (N.eqb_neq _ _) Hq), (proj2 (N.eqb_neq _ _) Hcomma).
      destruct Hs as [-> | [-> | ->]]; cbn [st orb]; by rewrite add_char. }
  rewrite IH by auto. by destruct f.
Qed.

(** A written field followed by the delimiter: the field is saved and the
    reader waits for the next one. *)
Lemma field_comma f s fs rest :
  s = START_RECORD ∨ s = START_FIELD → fits f →
  read_tokens (Reader s fs []) (eols (write_field f) ++ Some COMMA :: rest) =
  read_tokens (Reader START_FIELD (fs ++ [f]) []) rest.
Proof.
  intros Hs Hfit. unfold write_field. destruct (existsb special f) eqn:Hsp.
  - cbn [eols flat_map]. fold (eols (double_quotes f ++ [DQUOTE])).
    change (DQUOTE =? LF) with false. cbn iota. cbn [app].
    step (Reader IN_QUOTED_FIELD fs []); [|by destruct Hs as [-> | ->]].
    rewrite eols_app, <- app_assoc, quoted_body by done.
    cbn [eols flat_map app]. change (DQUOTE =? LF) with false. cbn iota.
    cbn [app]. step (Reader QUOTE_IN_QUOTED_FIELD fs f); [|reflexivity].
    by step (Reader START_FIELD (fs ++ [f]) []).
  - rewrite unquoted_body by tauto. cbn [app].
    destruct f as [|c f].
    + by step (Reader START_FIELD (fs ++ [[]]) []); [|by destruct Hs as [-> | ->]].
    + by step (Reader START_FIELD (fs ++ [c :: f]) []).
Qed.

(** After the data of a field, the terminator saves the field and ends the
    record. *)
Lemma field_end r term rest :
  terminator term →
  st r = START_FIELD ∨ st r = IN_FIELD ∨ st r = QUOTE_IN_QUOTED_FIELD →
  read_tokens r (eols term ++ rest) =
    let '(rows, e) := read_tokens parse_reset rest in
    ((fields r ++ [field r]) :: rows, e).
Proof.
  intros [-> | ->] Hs; destruct r as [s fs buf]; cbn [st fields field] in *.
  - change (eols [CR; LF]) with [Some CR; Some LF; None]. cbn [app].
    step (Reader EAT_CRNL (fs ++ [buf]) []);
      [|by destruct Hs as [-> | [-> | ->]]].
    step (Reader EAT_CRNL (fs ++ [buf]) []); [|reflexivity].
    by rewrite (read_tokens_eol_end _ _ (Reader START_RECORD (fs ++ [buf]) [])).
  - change (eols [LF]) with [Some LF; None]. cbn [app].
    step (Reader EAT_CRNL (fs ++ [buf]) []);
      [|by destruct Hs as [-> | [-> | ->]]].
    by rewrite (read_tokens_eol_end _ _ (Reader START_RECORD (fs ++ [buf]) [])).
Qed.

(** A record without fields is a bare terminator. *)
Lemma empty_record term rest :
  terminator term →
  read_tokens parse_reset (eols term ++ rest) =
    let '(rows, e) := read_tokens parse_reset rest in ([] :: rows, e).
Proof.
  intros [-> | ->].
  - change (eols [CR; LF]) with [Some CR; Some LF; None]. cbn [app].
    step (Reader EAT_CRNL [] []); [|reflexivity].
    step (Reader EAT_CRNL [] []); [|reflexivity].
    by rewrite (read_tokens_eol_end _ _ (Reader START_RECORD [] [])).
  - change (eols [LF]) with [Some LF; None]. cbn [app].
    step (Reader EAT_CRNL [] []); [|reflexivity].
    by rewrite (read_tokens_eol_end _ _ (Reader START_RECORD [] [])).
Qed.

(** The last field of a record, then the terminator. *)
Lemma last_field f s fs term rest :
  terminator term → fits f →
  s = START_FIELD ∨ (s = START_RECORD ∧ f ≠ []) →
  read_tokens (Reader s fs []) (eols (write_field f ++ term) ++ rest) =
    let '(rows, e) := read_tokens parse_reset rest in
    ((fs ++ [f]) :: rows, e).
Proof.
  intros Hterm Hfit Hs. rewrite eols_app, <- app_assoc.
  unfold write_field. destruct (existsb special f) eqn:Hsp.
  - cbn [eols flat_map]. fold (eols (double_quotes f ++ [DQUOTE])).
    change (DQUOTE =? LF) with false. cbn iota. cbn [app].
    step (Reader IN_QUOTED_FIELD fs []); [|by destruct Hs as [-> | [-> _]]].
    rewrite eols_app, <- app_assoc, quoted_body by done.
    cbn [eols flat_map app]. change (DQUOTE =? LF) with false. cbn iota.
    cbn [app]. step (Reader QUOTE_IN_QUOTED_FIELD fs f); [|reflexivity].
    fold (eols term). rewrite field_end by (cbn; tauto). done.
  - rewrite unquoted_body by tauto. cbn [app]. destruct f as [|c f].
    + destruct Hs as [-> | [_ ?]]; [|done].
      rewrite field_end by (cbn; tauto). done.
    + rewrite field_end by (cbn; tauto). done.
Qed.

(** The fields of a record from the second on, or all of them. *)
Lemma joined_fields gs : ∀ s fs term rest,
  terminator term → Forall fits gs → gs ≠ [] →
  s = START_FIELD ∨ (s = START_RECORD ∧ gs ≠ [[]]) →
  read_tokens (Reader s fs []) (eols (join_fields gs ++ term) ++ rest) =
    let '(rows, e) := read_tokens parse_reset rest in
    ((fs ++ gs) :: rows, e).
Proof.
  induction gs as [|f gs IH]; intros s fs term rest Hterm Hfit Hne Hs; [done|].
  apply Forall_cons in Hfit as [Hf Hfit]. destruct gs as [|g gs].
  - cbn [join_fields]. apply last_field; [done..|].
    destruct Hs as [-> | [-> Hs]]; [by left|right].
    split; [done|]. by intros ->.
  - cbn [join_fields]. fold (join_fields (g :: gs)).
    rewrite <- !app_assoc. cbn [app]. rewrite eols_app, <- app_assoc.
    cbn [eols flat_map]. change (COMMA =? LF) with false. cbn iota.
    fold (eols (join_fields (g :: gs) ++ term)). cbn [app].
    rewrite field_comma by (done || (destruct Hs as [-> | [-> _]]; tauto)).
    rewrite IH by (done || tauto).
    by rewrite <- app_assoc.
Qed.

(** One written record is read back as it was. *)
Lemma written_record row term rest :
  terminator term → Forall fits row →
  read_tokens parse_reset (eols (join_record row ++ term) ++ rest) =
    let '(rows, e) := read_tokens parse_reset rest in (row :: rows, e).
Proof.
  intros Hterm Hfit. destruct row as [|f row].
  { by apply empty_record. }
  destruct (decide (f :: row = [[]])) as [[= -> ->]|Hne].
  - cbn [join_record app eols flat_map]. change (DQUOTE =? LF) with false.
    cbn iota. cbn [app]. fold (eols term).
    step (Reader IN_QUOTED_FIELD [] []); [|reflexivity].
    step (Reader QUOTE_IN_QUOTED_FIELD [] []); [|reflexivity].
    rewrite field_end by (cbn; tauto). done.
  - assert (join_record (f :: row) = join_fields (f :: row)) as ->.
    { destruct f, row; done. }
    unfold parse_reset. rewrite joined_fields; [done..|tauto].
Qed.

(** Round trip: what the writer wrote, the reader reads. *)
Lemma read_written rows term :
  terminator term → Forall (Forall fits) rows →
  read_tokens parse_reset (eols (writerows_with term rows)) = (rows, None).
Proof.
  intros Hterm. induction rows as [|row rows IH]; intros Hfit; [done|].
  apply Forall_cons in Hfit as [Hrow Hfit].
  cbn [writerows_with flat_map]. fold (writerows_with term rows).
  rewrite eols_app, written_record, IH by done. done.
Qed.

Lemma open_from_writerows term rows :
  terminator term → ∀ b, rows ≠ [] → open_from b (writerows_with term rows) = false.
Proof.
  intros Hterm. induction rows as [|row rows IH]; intros b Hne; [done|].
  cbn [writerows_with flat_map]. fold (writerows_with term rows).
  rewrite !open_from_app.
  assert (open_from (open_from b (join_record row)) term = false) as ->.
  { by destruct Hterm as [-> | ->]. }
  destruct rows; [done|]. by apply IH.
Qed.

Lemma writerows_eq rows : writerows rows = writerows_with [CR; LF] rows.
Proof. done. Qed.

(** The round trip over lines, as [csv.reader] is used. *)
Lemma reader_rows_written rows term :
  terminator term → Forall (Forall fits) rows →
  reader_rows (map Some (text_lines (writerows_with term rows))) = (rows, None).
Proof.
  intros Hterm Hfit. unfold reader_rows, text_lines.
  rewrite read_rows_tokens, tokens_lines. cbn [map app].
  rewrite bool_decide_eq_true_2 by done. cbn [negb].
  destruct rows as [|row rows]; [done|].
  rewrite open_from_writerows, app_nil_r by done. by apply read_written.
Qed.

End csv_facts.

Section reader_invariant.
Local Open Scope N_scope.
Context (P : N → Prop).
Implicit Types (r : reader).

Lemma good_reset : good P parse_reset.
Proof. repeat split; constructor || (unfold fits, field_limit; cbn; lia). Qed.

Lemma good_state r s : good P r → good P (Reader s (fields r) (field r)).
Proof. done. Qed.

Lemma good_save r s : good P r → good P (parse_save_field r s).
Proof.
  intros (Hfs & Hfit & Hf). split_and!; cbn.
  - apply Forall_app. split; [done|]. by repeat constructor.
  - unfold fits, field_limit. cbn. lia.
  - constructor.
Qed.

Lemma good_add r s c r' :
  good P r → P c → parse_add_char r s c = Some r' → good P r'.
Proof.
  intros (Hfs & Hfit & Hf) Hc. unfold parse_add_char.
  destruct (N.leb_spec field_limit (N.of_nat (length (field r)))); [done|].
  intros [= <-]. split_and!; cbn; [done| |].
  - unfold fits. rewrite length_app. cbn. lia.
  - apply Forall_app. split; [done|]. by repeat constructor.
Qed.

Lemma parse_process_char_good r tok r' :
  good P r → (∀ c, tok = Some c → P c) →
  parse_process_char r tok = Some r' → good P r'.
Proof.
  intros Hr Hc. unfold parse_process_char.
  destruct (st r), tok as [c|]; repeat case_match;
    try (intros [= <-]); try done;
    eauto using good_state, good_save, good_add.
Qed.

Lemma feed_good line : ∀ r r',
  good P r → Forall P line → feed r line = Some r' → good P r'.
Proof.
  induction line as [|c line IH]; intros r r' Hr Hl; cbn.
  - by intros [= <-].
  - apply Forall_cons in Hl as [Hc Hl].
    destruct (parse_process_char r (Some c)) as [r1|] eqn:H1; [|done].
    apply IH; [|done].
    apply (parse_process_char_good r (Some c) r1); [done| |exact H1].
    by intros ? [= <-].
Qed.

(** Every field the reader yields fits and is made of characters of the
    input lines. *)
Lemma read_rows_good lines : ∀ r,
  good P r → Forall (λ l, ∀ t, l = Some t → Forall P t) lines →
  Forall (Forall (λ f, fits f ∧ Forall P f)) (read_rows r lines).1.
Proof.
  induction lines as [|l lines IH]; intros r Hr Hl; cbn [read_rows].
  - case_match; cbn; [|constructor]. repeat constructor.
    by apply (good_save r (st r)).
  - apply Forall_cons in Hl as [Hl0 Hl]. destruct l as [line|]; [|constructor].
    unfold feed_line. destruct (feed r line) as [r1|] eqn:H1; [|constructor].
    destruct (parse_process_char r1 None) as [r2|] eqn:H2; [|constructor].
    assert (good P r2) as Hr2.
    { apply (parse_process_char_good r1 None r2); [|by intros ? [=]|exact H2].
      apply (feed_good line r r1); [done| |exact H1]. by apply Hl0. }
    case_match.
    + specialize (IH parse_reset good_reset Hl).
      destruct (read_rows parse_reset lines) as [rows e]. cbn in *.
      constructor; [apply Hr2|done].
    + by apply IH.
Qed.

End reader_invariant.

Section newlines.
Local Open Scope N_scope.
Implicit Types (t f : text).

Lemma translate_true_cons c t :
  translate true (c :: t) = if c =? LF then translate false t
                            else translate false (c :: t).
Proof.
  cbn [translate]. destruct (N.eqb_spec c LF) as [->|Hlf]; [done|].
  by destruct (c =? CR).
Qed.

(** The two forms of the translation agree. *)
Lemma universal_newlines_translate t :
  universal_newlines t = translate false t.
Proof.
  remember (length t) as n eqn:Hn. revert t Hn.
  induction n as [n IH] using lt_wf_ind. intros [|c t] Hn; [done|].
  cbn [universal_newlines translate]. destruct (c =? CR) eqn:Hc.
  - destruct t as [|c' t]; [done|]. rewrite translate_true_cons.
    destruct (c' =? LF); f_equal; eapply IH; try reflexivity; cbn in *; lia.
  - destruct (N.eqb_spec c LF) as [->|?]; f_equal; eapply IH;
      try reflexivity; cbn in *; lia.
Qed.

Lemma translate_length b t : (length (translate b t) ≤ length t)%nat.
Proof.
  revert b. induction t as [|c t IH]; intros b; cbn; [done|].
  pose proof (IH true). pose proof (IH false). repeat case_match; cbn; lia.
Qed.

Lemma translate_Forall (P : N → Prop) b t :
  P LF → Forall P t → Forall P (translate b t).
Proof.
  intros HLF. revert b. induction t as [|c t IH]; intros b Ht; cbn; [done|].
  apply Forall_cons in Ht as [Hc Ht].
  repeat case_match; try constructor; auto.
Qed.

(** Text without CR or LF goes through untouched and leaves no pending CR;
    a pending CR is forgotten after its first character. *)
Lemma translate_plain t : ∀ b rest,
  Forall (λ c, c ≠ CR ∧ c ≠ LF) t →
  translate b (t ++ rest) = t ++ translate (match t with [] => b | _ => false end) rest.
Proof.
  induction t as [|c t IH]; intros b rest Ht; [done|].
  apply Forall_cons in Ht as [[Hcr Hlf] Ht]. cbn [app translate].
  rewrite (proj2 (N.eqb_neq _ _) Hcr), (proj2 (N.eqb_neq _ _) Hlf).
  rewrite IH by done. by destruct t.
Qed.

(** The data of a quoted field up to the closing quote. *)
Lemma translate_quoted f : ∀ b rest,
  translate b (double_quotes f ++ DQUOTE :: rest) =
  double_quotes (translate b f) ++ DQUOTE :: translate false rest.
Proof.
  induction f as [|c f IH]; intros b rest; [done|].
  cbn [double_quotes flat_map]. fold (double_quotes f).
  destruct (N.eqb_spec c DQUOTE) as [->|Hq].
  - cbn [app translate]. change (DQUOTE =? CR) with false.
    change (DQUOTE =? LF) with false. cbn iota.
    cbn [double_quotes flat_map]. change (DQUOTE =? DQUOTE) with true.
    cbn iota. cbn [app]. by rewrite IH.
  - cbn [app translate]. destruct (c =? CR) eqn:Hcr.
    + cbn [double_quotes flat_map]. change (LF =? DQUOTE) with false.
      cbn iota. cbn [app]. by rewrite IH.
    + destruct (c =? LF) eqn:Hlf.
      * destruct b; [by rewrite IH|].
        cbn [double_quotes flat_map]. change (LF =? DQUOTE) with false.
        cbn iota. cbn [app]. by rewrite IH.
      * cbn [double_quotes flat_map]. rewrite (proj2 (N.eqb_neq _ _) Hq).
        cbn [app]. by rewrite IH.
Qed.

Lemma special_translate b f :
  existsb special (translate b f) = true → existsb special f = true.
Proof.
  revert b. induction f as [|c f IH]; intros b; cbn; [done|].
  destruct (N.eqb_spec c CR) as [->|Hcr].
  { intros _. done. }
  destruct (N.eqb_spec c LF) as [->|Hlf].
  { intros _. done. }
  cbn. intros [H|H]%orb_true_iff; apply orb_true_iff; [by left|right].
  by apply (IH false).
Qed.

Lemma translate_special b f :
  existsb special f = true → b = false → existsb special (translate b f) = true.
Proof.
  revert b. induction f as [|c f IH]; intros b; cbn; [done|].
  intros H ->. destruct (N.eqb_spec c CR) as [->|Hcr]; [done|].
  destruct (N.eqb_spec c LF) as [->|Hlf]; [done|].
  cbn. apply orb_true_iff in H as [H|H]; apply orb_true_iff; [by left|right].
  by apply IH.
Qed.

Lemma not_special_plain f :
  existsb special f = false → Forall (λ c, c ≠ CR ∧ c ≠ LF) f.
Proof.
  induction f as [|c f IH]; cbn; [constructor|].
  intros [Hc Hf]%orb_false_iff. constructor; [|by apply IH].
  unfold special in Hc. rewrite !orb_false_iff, !N.eqb_neq in Hc. tauto.
Qed.

(** A written field, translated, is the written translated field. *)
Lemma translate_write_field f rest :
  translate false (write_field f ++ rest) =
  write_field (translate false f) ++ translate false rest.
Proof.
  unfold write_field. destruct (existsb special f) eqn:Hsp.
  - rewrite translate_special by done. cbn [app translate].
    change (DQUOTE =? CR) with false. change (DQUOTE =? LF) with false.
    cbn iota. rewrite <- !app_assoc. cbn [app]. by rewrite translate_quoted.
  - pose proof (not_special_plain _ Hsp) as Hplain.
    rewrite translate_plain by done.
    pose proof (translate_plain f false [] Hplain) as Hf.
    rewrite !app_nil_r in Hf. rewrite Hf, Hsp. by destruct f.
Qed.

Lemma translate_join_fields gs : ∀ rest,
  translate false (join_fields gs ++ rest) =
  join_fields (map (translate false) gs) ++ translate false rest.
Proof.
  induction gs as [|f gs IH]; intros rest; [done|].
  destruct gs as [|g gs].
  - cbn [join_fields map]. apply translate_write_field.
  - cbn [join_fields map]. fold (join_fields (g :: gs)).
    fold (join_fields (map (translate false) (g :: gs))).
    rewrite <- !app_assoc, translate_write_field. cbn [app translate].
    change (COMMA =? CR) with false. change (COMMA =? LF) with false.
    cbn iota. by rewrite IH.
Qed.

Lemma translate_nil_inv b f : translate b f = [] → f = [] ∨ (b = true ∧ f = [LF]).
Proof.
  destruct f as [|c f]; [by left|]. cbn. destruct (c =? CR); [done|].
  destruct (N.eqb_spec c LF) as [->|?]; [|done]. destruct b; [|done].
  destruct f as [|c' f]; [by right|]. cbn. repeat case_match; done.
Qed.

Lemma translate_join_record row rest :
  translate false (join_record row ++ rest) =
  join_record (map (translate false) row) ++ translate false rest.
Proof.
  destruct row as [|f row]; [done|].
  destruct (decide (f :: row = [[]])) as [[= -> ->]|Hne]; [done|].
  assert (join_record (f :: row) = join_fields (f :: row)) as ->.
  { destruct f, row; done. }
  assert (join_record (map (translate false) (f :: row))
          = join_fields (map (translate false) (f :: row))) as ->.
  { cbn [map]. destruct row; [|by destruct (translate false f)].
    cbn [map]. destruct (translate false f) eqn:E; [|done].
    apply translate_nil_inv in E as [->|[? _]]; done. }
  apply translate_join_fields.
Qed.

(** What a text-mode reader sees of a written file: the same records with
    the newlines inside their fields translated, LF-terminated. *)
Lemma universal_newlines_writerows rows :
  universal_newlines (writerows rows) =
  writerows_with [LF] (map (map universal_newlines) rows).
Proof.
  rewrite universal_newlines_translate.
  rewrite (map_ext _ (map (translate false))).
  2:{ intros row. apply map_ext. apply universal_newlines_translate. }
  induction rows as [|row rows IH]; [done|].
  cbn [writerows writerows_with flat_map map]. unfold writerow.
  rewrite <- !app_assoc, translate_join_record. cbn [app].
  change (translate false (CR :: LF :: ?x)) with (LF :: translate false x).
  f_equal. f_equal. apply IH.
Qed.

End newlines.

(** * Facts about the record-level loops *)

Section records.
Context (fp : string).
Implicit Types (m : gmap nat record) (rows : list record) (line : record).

Lemma is_malformed_spec len line :
  is_malformed len line = true ↔ 0 < populated line < len.
Proof.
  unfold is_malformed. rewrite andb_true_iff, !Nat.ltb_lt. lia.
Qed.

Lemma populated_le line : populated line ≤ length line.
Proof. unfold populated. apply List.filter_length_le. Qed.

Lemma is_malformed_nonempty len line : is_malformed len line = true → line ≠ [].
Proof.
  rewrite is_malformed_spec. intros [H _] ->. cbn in H. lia.
Qed.

(** What the scan leaves in the dictionary: the malformed records at their
    line numbers, on top of what was there. *)
Lemma scan_lookup len rows : ∀ idx m j,
  (scan fp len idx rows m).1 !! j =
    match rows !! (j - idx) with
    | Some line =>
      if (idx <=? j) && is_malformed len line then Some line else m !! j
    | None => m !! j
    end.
Proof.
  induction rows as [|line rest IH]; intros idx m j; [done|].
  cbn [scan]. fold (is_malformed len line).
  destruct (is_malformed len line) eqn:Hm.
  - destruct (scan fp len (S idx) rest (<[idx:=line]> m)) as [m' lg] eqn:Hs.
    cbn [fst]. change m' with (m', lg).1. rewrite <- Hs, IH.
    destruct (decide (j = idx)) as [->|Hne].
    + rewrite Nat.sub_diag. cbn [lookup list_lookup].
      rewrite Nat.leb_refl. cbn [andb]. rewrite Hm.
      replace (idx - S idx) with 0 by lia.
      destruct (rest !! 0) as [l0|] eqn:H0.
      * replace (S idx <=? idx) with false by (symmetry; apply Nat.leb_gt; lia).
        cbn [andb]. apply lookup_insert_eq.
      * apply lookup_insert_eq.
    + rewrite lookup_insert_ne by done.
      destruct (decide (idx < j)) as [Hlt|Hge].
      * replace (j - idx) with (S (j - S idx)) by lia. cbn [lookup list_lookup].
        replace (S idx <=? j) with true by (symmetry; apply Nat.leb_le; lia).
        replace (idx <=? j) with true by (symmetry; apply Nat.leb_le; lia).
        done.
      * replace (j - S idx) with 0 by lia. replace (j - idx) with 0 by lia.
        cbn [lookup list_lookup].
        replace (S idx <=? j) with false by (symmetry; apply Nat.leb_gt; lia).
        replace (idx <=? j) with false by (symmetry; apply Nat.leb_gt; lia).
        cbn [andb]. by destruct (rest !! 0).
  - rewrite IH.
    destruct (decide (idx < j)) as [Hlt|Hge].
    + replace (j - idx) with (S (j - S idx)) by lia. cbn [lookup list_lookup].
      replace (S idx <=? j) with true by (symmetry; apply Nat.leb_le; lia).
      replace (idx <=? j) with true by (symmetry; apply Nat.leb_le; lia).
      done.
    + replace (j - S idx) with 0 by lia.
      replace (S idx <=? j) with false by (symmetry; apply Nat.leb_gt; lia).
      replace (j - idx) with 0 by lia. cbn [lookup list_lookup andb].
      rewrite Hm, andb_false_r. by destruct (rest !! 0).
Qed.

Lemma malformed_index_lookup headers data j r :
  malformed_index fp (headers :: data) !! j = Some r ↔
  2 ≤ j ∧ data !! (j - 2) = Some r ∧ is_malformed (length headers) r = true.
Proof.
  unfold malformed_index. rewrite scan_lookup, lookup_empty.
  destruct (data !! (j - 2)) as [line|] eqn:Hl.
  - destruct (2 <=? j) eqn:Hj; cbn [andb].
    + apply Nat.leb_le in Hj.
      destruct (is_malformed (length headers) line) eqn:Hm.
      * split; [by intros [= ->]|by intros (_ & [= ->] & _)].
      * split; [done|]. intros (_ & [= ->] & Hm'). congruence.
    + apply Nat.leb_gt in Hj. split; [done|]. intros (? & _). lia.
  - split; [done|]. by intros (_ & ? & _).
Qed.

(** A line number in the dictionary is the number of that record in the
    file, header included. *)
Lemma malformed_index_row headers data j r :
  malformed_index fp (headers :: data) !! j = Some r →
  (headers :: data) !! (j - 1) = Some r ∧ r ≠ [] ∧ 2 ≤ j.
Proof.
  rewrite malformed_index_lookup. intros (Hj & Hl & Hm).
  split_and!; [|by eapply is_malformed_nonempty|done].
  replace (j - 1) with (S (j - 2)) by lia. done.
Qed.

(** Every message of the scan names a line that went into the dictionary. *)
Lemma scan_log len rows : ∀ idx m e,
  e ∈ (scan fp len idx rows m).2 →
  ∃ n line, e = Malformed n fp ∧ idx ≤ n ∧ rows !! (n - idx) = Some line
            ∧ is_malformed len line = true.
Proof.
  induction rows as [|line rest IH]; intros idx m e; cbn [scan].
  - cbn. by intros ?%elem_of_nil.
  - fold (is_malformed len line). destruct (is_malformed len line) eqn:Hm.
    + destruct (scan fp len (S idx) rest (<[idx:=line]> m)) as [m' lg] eqn:Hs.
      cbn [snd]. intros [->|He]%elem_of_cons.
      * exists idx, line. rewrite Nat.sub_diag. done.
      * change lg with (m', lg).2 in He. rewrite <- Hs in He.
        apply IH in He as (n & l & -> & Hn & Hl & Hml).
        exists n, l. split_and!; [done|lia| |done].
        replace (n - idx) with (S (n - S idx)) by lia. done.
    + intros He. apply IH in He as (n & l & -> & Hn & Hl & Hml).
      exists n, l. split_and!; [done|lia| |done].
      replace (n - idx) with (S (n - S idx)) by lia. done.
Qed.

Lemma fix_steps_app m N rows1 rows2 : ∀ idx,
  fix_steps fp m N idx (rows1 ++ rows2) =
  fix_steps fp m N idx rows1 ++ fix_steps fp m N (idx + length rows1) rows2.
Proof.
  induction rows1 as [|line rest IH]; intros idx; cbn [fix_steps app length].
  - by rewrite Nat.add_0_r.
  - rewrite IH. do 3 f_equal. lia.
Qed.

Lemma written_app s1 s2 : written (s1 ++ s2) = written s1 ++ written s2.
Proof. apply flat_map_app. Qed.

Lemma logged_app s1 s2 : logged (s1 ++ s2) = logged s1 ++ logged s2.
Proof. apply flat_map_app. Qed.

(** The first branch of the loop body: a non-empty record outside the
    dictionary is copied. *)
Lemma fix_line_copy m N idx line :
  m !! idx = None → line ≠ [] → fix_line fp m N idx line = ([line], []).
Proof.
  intros Hm Hl. unfold fix_line.
  by rewrite (bool_decide_eq_true_2 _ Hm), (bool_decide_eq_true_2 _ Hl).
Qed.


(** The third branch, for a line of the dictionary. *)
Lemma fix_line_corrupt m N idx line this_line :
  m !! idx = Some this_line → this_line ≠ [] → line ≠ [] →
  fix_line fp m N idx line =
    match m !! (idx + 1) with
    | Some next_line =>
      if bool_decide (next_line ≠ []) then
        if length this_line + length next_line =? N
        then ([this_line ++ next_line], [Combined idx (idx + 1) fp])
        else ([], [])
      else ([], [])
    | None => ([], [])
    end.
Proof.
  intros Hm Ht Hl. unfold fix_line. rewrite Hm.
  rewrite bool_decide_eq_false_2 by done. cbn [andb].
  destruct line as [|f line]; [done|]. cbn [length Nat.eqb].
  destruct (m !! (idx + 1)) as [next|]; [|done].
  by rewrite (bool_decide_eq_true_2 _ Ht).
Qed.

End records.

Section repair_facts.
Context (fp : string).
Implicit Types (m : gmap nat record) (rows : list record) (line : record).

Lemma size_pos_lookup m i r : m !! i = Some r → (0 <? size m) = true.
Proof.
  intros H. apply Nat.ltb_lt.
  assert (size m ≠ 0) by (eapply map_size_ne_0_lookup_2; eauto). lia.
Qed.

Lemma filter_none {A} (f : A → bool) (l : list A) :
  (∀ x, x ∈ l → f x = false) → List.filter f l = [].
Proof.
  induction l as [|x l IH]; intros H; [done|]. cbn.
  rewrite (H x) by apply list_elem_of_here.
  apply IH. intros y Hy. apply H. by apply list_elem_of_further.
Qed.

(** A record of the file splits it at its line number. *)
Lemma split_at_line rows k r :
  rows !! k = Some r → rows = take k rows ++ r :: drop (S k) rows ∧ length (take k rows) = k.
Proof.
  intros H. split; [by rewrite take_drop_middle|].
  rewrite length_take. apply lookup_lt_Some in H. lia.
Qed.

(** Only the merge branch logs [Combined], and it writes the merged record
    then. *)
Lemma fix_line_combined m N idx line a b f :
  Combined a b f ∈ (fix_line fp m N idx line).2 →
  ∃ this_line next_line,
    m !! idx = Some this_line ∧ m !! (idx + 1) = Some next_line ∧
    a = idx ∧ b = idx + 1 ∧ f = fp ∧
    length this_line + length next_line = N ∧
    fix_line fp m N idx line =
      ([this_line ++ next_line], [Combined idx (idx + 1) fp]).
Proof.
  unfold fix_line.
  destruct (bool_decide (m !! idx = None) && bool_decide (line ≠ [])).
  { cbn. by intros ?%elem_of_nil. }
  destruct (length line =? 0).
  { cbn. intros [?|?%elem_of_nil]%elem_of_cons; done. }
  destruct (m !! idx) as [this|]; [|cbn; by intros ?%elem_of_nil].
  destruct (m !! (idx + 1)) as [next|]; [|cbn; by intros ?%elem_of_nil].
  destruct (bool_decide (this ≠ []) && bool_decide (next ≠ []));
    [|cbn; by intros ?%elem_of_nil].
  destruct (length this + length next =? N) eqn:HN;
    [|cbn; by intros ?%elem_of_nil].
  cbn. intros [[= -> -> ->]|?%elem_of_nil]%elem_of_cons; [|done].
  apply Nat.eqb_eq in HN. by exists this, next.
Qed.



(** A message of iteration [idx] names [idx], or [idx + 1] when that line is
    in the dictionary. *)
Lemma fix_line_cites m N idx line j e :
  e ∈ (fix_line fp m N idx line).2 → cites j e = true →
  j = idx ∨ (j = idx + 1 ∧ is_Some (m !! j)).
Proof.
  unfold fix_line.
  destruct (bool_decide (m !! idx = None) && bool_decide (line ≠ [])).
  { cbn. by intros ?%elem_of_nil. }
  destruct (length line =? 0).
  { cbn. intros [->|?%elem_of_nil]%elem_of_cons; [|done].
    cbn. intros ?%Nat.eqb_eq. by left. }
  destruct (m !! idx) as [this|]; [|cbn; by intros ?%elem_of_nil].
  destruct (m !! (idx + 1)) as [next|] eqn:Hn; [|cbn; by intros ?%elem_of_nil].
  destruct (bool_decide (this ≠ []) && bool_decide (next ≠ []));
    [|cbn; by intros ?%elem_of_nil].
  destruct (length this + length next =? N); [|cbn; by intros ?%elem_of_nil].
  cbn. intros [->|?%elem_of_nil]%elem_of_cons; [|done].
  cbn. intros [?%Nat.eqb_eq|?%Nat.eqb_eq]%orb_true_iff; [by left|].
  right. subst j. by rewrite Hn.
Qed.


(** The iteration for the record at position [k] of the file. *)
Lemma fix_steps_lookup m N rows : ∀ idx k s,
  fix_steps fp m N idx rows !! k = Some s →
  ∃ line, rows !! k = Some line ∧ s = fix_line fp m N (idx + k) line.
Proof.
  induction rows as [|l rows IH]; intros idx [|k] s; cbn; try done.
  - intros [= <-]. exists l. by rewrite Nat.add_0_r.
  - intros H. apply IH in H as (l' & Hl & ->). exists l'. split; [done|].
    f_equal. lia.
Qed.

(** [repair] in terms of the dictionary and of the loop. *)
Lemma repair_eq headers data :
  repair fp (headers :: data) =
    let m := malformed_index fp (headers :: data) in
    let steps := fix_steps fp m (length headers) 1 (headers :: data) in
    let lg := (scan fp (length headers) 2 data ∅).2 in
    if 0 <? size m then Some (written steps, lg ++ Fixing fp :: logged steps)
    else Some (headers :: data, lg).
Proof.
  unfold repair, malformed_index.
  by destruct (scan fp (length headers) 2 data ∅).
Qed.

(** An iteration logs at most one message. *)
Lemma fix_line_one_message m N idx line :
  length (fix_line fp m N idx line).2 ≤ 1.
Proof.
  unfold fix_line. repeat case_match; cbn; lia.
Qed.

(** At most two messages of the loop name a given line: the one of its own
    iteration and the merge logged by the iteration before. *)
Lemma fix_steps_cites_twice m N j rows : ∀ idx,
  length (List.filter (cites j) (logged (fix_steps fp m N idx rows))) ≤
    if j <? idx then 0 else if j =? idx then 1 else 2.
Proof.
  induction rows as [|line rest IH]; intros idx.
  { cbn. repeat case_match; lia. }
  cbn [fix_steps logged flat_map]. rewrite List.filter_app, length_app.
  specialize (IH (S idx)). fold (logged (fix_steps fp m N (S idx) rest)) in IH |- *.
  pose proof (fix_line_one_message m N idx line) as H1.
  pose proof (List.filter_length_le (cites j) (fix_line fp m N idx line).2) as H2.
  assert (j < idx ∨ idx + 1 < j →
          List.filter (cites j) (fix_line fp m N idx line).2 = []) as H0.
  { intros Hj. apply filter_none. intros e He.
    destruct (cites j e) eqn:Hc; [|done].
    destruct (fix_line_cites _ _ _ _ _ _ He Hc) as [->|[-> _]]; lia. }
  destruct (j <? idx) eqn:E1; [apply Nat.ltb_lt in E1|apply Nat.ltb_ge in E1].
  - rewrite H0 by lia. replace (j <? S idx) with true in IH
      by (symmetry; apply Nat.ltb_lt; lia). cbn. lia.
  - destruct (j =? idx) eqn:E2; [apply Nat.eqb_eq in E2|apply Nat.eqb_neq in E2].
    + replace (j <? S idx) with true in IH by (symmetry; apply Nat.ltb_lt; lia).
      lia.
    + replace (j <? S idx) with false in IH by (symmetry; apply Nat.ltb_ge; lia).
      destruct (j =? S idx) eqn:E3; [lia|apply Nat.eqb_neq in E3].
      rewrite H0 by lia. cbn. lia.
Qed.

End repair_facts.

(** * Facts about the passes over the store *)

Section store_facts.
Implicit Types (σ : fs) (tr : list fs) (steps : list step).

Lemma string_length_app (a b : string) :
  String.length (a +:+ b) = String.length a + String.length b.
Proof.
  induction a as [|c a IH]; [done|].
  change (S (String.length (a +:+ b)) = S (String.length a + String.length b)).
  by rewrite IH.
Qed.

(** The temporary file is never the file itself. *)
Lemma tmp_ne (fp : string) : fp +:+ "_tmp" ≠ fp.
Proof.
  intros H. apply (f_equal String.length) in H.
  rewrite string_length_app in H. cbn in H. lia.
Qed.

Lemma last_cons_default {A} (x d : A) l : List.last (x :: l) d = List.last l x.
Proof.
  revert x d. induction l as [|y l IH]; intros x d; [done|].
  change (List.last (x :: y :: l) d) with (List.last (y :: l) d).
  by rewrite (IH y d), (IH y x).
Qed.

Lemma writerows_app rows1 rows2 :
  writerows (rows1 ++ rows2) = writerows rows1 ++ writerows rows2.
Proof. apply flat_map_app. Qed.

Lemma written_cons rows lg steps :
  written ((rows, lg) :: steps) = rows ++ written steps.
Proof. done. Qed.

Lemma encode_app_None_l t1 t2 : Utf8.encode t1 = None → Utf8.encode (t1 ++ t2) = None.
Proof.
  intros H. destruct (Utf8.encode (t1 ++ t2)) eqn:E; [|done].
  apply encode_app_inv in E as (? & ? & ? & _). congruence.
Qed.

Lemma encode_app_None_r t1 t2 : Utf8.encode t2 = None → Utf8.encode (t1 ++ t2) = None.
Proof.
  intros H. destruct (Utf8.encode (t1 ++ t2)) eqn:E; [|done].
  apply encode_app_inv in E as (? & ? & _ & ? & _). congruence.
Qed.

(** The writing loop: every state differs from the first in the temporary
    file only; the loop fails exactly when the text to write cannot be
    encoded, and otherwise leaves the encoded text appended. *)
Lemma write_steps_spec steps : ∀ σ tmp acc,
  σ !! tmp = Some acc →
  match write_steps σ tmp acc steps with
  | (tr, lg, e) =>
    Forall (λ σ', ∃ x, σ' = <[tmp := x]> σ) tr ∧
    match e with
    | None =>
      lg = logged steps ∧
      ∃ b, Utf8.encode (writerows (written steps)) = Some b ∧
           final σ tr = <[tmp := acc ++ b]> σ
    | Some err =>
      err = UnicodeEncodeError ∧
      Utf8.encode (writerows (written steps)) = None
    end
  end.
Proof.
  induction steps as [|[rows lg] steps IH]; intros σ tmp acc Hacc.
  { cbn. split; [constructor|]. split; [done|]. exists [].
    by rewrite app_nil_r, insert_id. }
  cbn [write_steps]. rewrite written_cons, writerows_app.
  destruct (Utf8.encode (writerows rows)) as [b|] eqn:Hb.
  2:{ split; [constructor|]. split; [done|]. by apply encode_app_None_l. }
  specialize (IH (<[tmp := acc ++ b]> σ) tmp (acc ++ b) (lookup_insert_eq _ _ _)).
  destruct (write_steps (<[tmp:=acc ++ b]> σ) tmp (acc ++ b) steps)
    as [[tr lgs] e].
  destruct IH as [Htr He].
  assert (Forall (λ σ', ∃ x, σ' = <[tmp:=x]> σ) tr) as Htr'.
  { eapply Forall_impl; [exact Htr|]. intros σ' [x ->]. exists x.
    apply insert_insert_eq. }
  split.
  { destruct rows; [done|]. constructor; [by eexists|done]. }
  destruct e as [err|].
  - destruct He as [-> He]. split; [done|]. by apply encode_app_None_r.
  - destruct He as [-> (b' & Hb' & Hfin)]. split; [done|].
    exists (b ++ b'). split; [by apply encode_app|].
    rewrite insert_insert_eq in Hfin. rewrite app_assoc, <- Hfin.
    unfold final. destruct rows as [|row rows].
    + cbn in Hb. injection Hb as <-. rewrite app_nil_r.
      rewrite (insert_id σ) by done. done.
    + apply last_cons_default.
Qed.

(** A pass: the states before the replacement differ from the first in the
    temporary file only; the replacement happens exactly when nothing
    failed, and puts the whole encoded text in place of [fp]. *)
Lemma rewrite_pass_spec σ fp tmp steps perr :
  match rewrite_pass σ fp tmp steps perr with
  | (tr, lg, e) =>
    match e with
    | None =>
      perr = None ∧ lg = logged steps ∧
      ∃ b body,
        Utf8.encode (writerows (written steps)) = Some b ∧
        tr = body ++ [<[fp := b]> (delete tmp σ)] ∧
        Forall (λ σ', ∃ x, σ' = <[tmp := x]> σ) body
    | Some err =>
      Forall (λ σ', ∃ x, σ' = <[tmp := x]> σ) tr ∧
      (perr = None → err = UnicodeEncodeError) ∧
      (Utf8.encode (writerows (written steps)) = None ∨ perr = Some err)
    end
  end.
Proof.
  unfold rewrite_pass.
  pose proof (write_steps_spec steps (<[tmp := []]> σ) tmp []
                (lookup_insert_eq _ _ _)) as H.
  destruct (write_steps (<[tmp:=[]]> σ) tmp [] steps) as [[tr lg] werr].
  destruct H as [Htr He].
  assert (Forall (λ σ', ∃ x, σ' = <[tmp:=x]> σ) (<[tmp:=[]]> σ :: tr)) as Htr'.
  { constructor; [by eexists|]. eapply Forall_impl; [exact Htr|].
    intros σ' [x ->]. exists x. apply insert_insert_eq. }
  destruct werr as [err|].
  - destruct He as [-> He]. split; [done|]. split; [done|]. by left.
  - destruct He as [-> (b & Hb & Hfin)]. destruct perr as [err|].
    + split; [done|]. split; [done|]. by right.
    + split; [done|]. split; [done|]. exists b, (<[tmp:=[]]> σ :: tr).
      split; [done|]. split; [|done]. cbn [app]. do 2 f_equal.
      rewrite Hfin. cbn [app]. rewrite insert_insert_eq. unfold os_replace.
      rewrite lookup_insert_eq. by rewrite delete_insert_eq.
Qed.

Lemma Forall_scalar_encode t : Forall Utf8.scalar t → is_Some (Utf8.encode t).
Proof.
  induction 1 as [|c t Hc _ IH]; cbn; [done|].
  destruct (scalar_encodable c Hc) as [bc ->]. destruct IH as [b ->]. done.
Qed.

Lemma join_fields_Forall (P : N → Prop) gs :
  P COMMA → P DQUOTE → Forall (Forall P) gs → Forall P (join_fields gs).
Proof.
  intros Hcomma Hq. induction 1 as [|f gs Hf _ IH]; [constructor|].
  assert (Forall P (write_field f)) as Hw.
  { unfold write_field. case_match; [|done]. constructor; [done|].
    apply Forall_app. split; [|by repeat constructor].
    unfold double_quotes. apply Forall_flat_map.
    eapply Forall_impl; [exact Hf|]. intros c Hc. case_match; by repeat constructor. }
  cbn [join_fields]. destruct gs; [done|].
  apply Forall_app. split; [done|]. by constructor.
Qed.

(** The written text is made of the characters of the fields and of the
    four characters the writer adds. *)
Lemma writerows_Forall (P : N → Prop) rows :
  P COMMA → P DQUOTE → P CR → P LF →
  Forall (Forall (Forall P)) rows → Forall P (writerows rows).
Proof.
  intros Hcomma Hq Hcr Hlf Hrows. unfold writerows. apply Forall_flat_map.
  eapply Forall_impl; [exact Hrows|]. intros row Hrow. unfold writerow.
  apply Forall_app. split; [|by repeat constructor].
  unfold join_record. destruct row as [|[|c f] [|g gs]];
    try (by apply join_fields_Forall). by repeat constructor.
Qed.

(** The lines the sanitizing pass hands to the reader hold scalar values
    other than U+0000. *)
Lemma sanitized_lines_chars content :
  Forall (λ l, ∀ t, l = Some t → Forall (λ c, c ≠ 0%N ∧ Utf8.scalar c) t)
    (sanitized_lines content).
Proof.
  unfold sanitized_lines. apply Forall_map, Forall_forall. intros line _ t Ht.
  cbn in Ht. apply decode_scalar in Ht as [Hs Hz].
  assert (0%N ∉ t) as Hz'.
  { apply Hz. unfold replace_nul. rewrite list_elem_of_In, filter_In.
    intros [_ H]. done. }
  apply Forall_forall. intros c Hc. split.
  - intros ->. done.
  - rewrite Forall_forall in Hs. by apply Hs.
Qed.

(** The records the sanitizing pass reads can always be written back. *)
Lemma sanitized_rows_writable content :
  let rows := (reader_rows (sanitized_lines content)).1 in
  Forall (Forall fits) rows ∧ (0%N ∉ writerows rows) ∧
  is_Some (Utf8.encode (writerows rows)).
Proof.
  intros rows.
  pose proof (read_rows_good _ _ parse_reset
                (good_reset _) (sanitized_lines_chars content)) as H.
  fold (reader_rows (sanitized_lines content)) in H. fold rows in H.
  assert (Forall (λ c, c ≠ 0%N ∧ Utf8.scalar c) (writerows rows)) as Hw.
  { apply writerows_Forall;
      try (unfold Utf8.scalar, COMMA, DQUOTE, CR, LF; lia).
    eapply Forall_impl; [exact H|]. intros row Hrow.
    eapply Forall_impl; [exact Hrow|]. by intros f [_ Hf]. }
  split_and!.
  - eapply Forall_impl; [exact H|]. intros row Hrow.
    eapply Forall_impl; [exact Hrow|]. by intros f [Hf _].
  - rewrite list_elem_of_In. intros Hin. rewrite Forall_forall in Hw.
    by destruct (Hw _ (proj2 (list_elem_of_In _ _) Hin)).
  - apply Forall_scalar_encode. eapply Forall_impl; [exact Hw|]. by intros c [_ ?].
Qed.

End store_facts.

Section pass_facts.
Implicit Types (σ : fs) (tr : list fs) (fp : string).

Lemma written_singletons (rows : list record) :
  written (map (λ r, ([r], [])) rows) = rows.
Proof. induction rows as [|r rows IH]; [done|]. cbn. by f_equal. Qed.

Lemma logged_singletons (rows : list record) :
  logged (map (λ r, ([r], [])) rows) = [].
Proof. induction rows as [|r rows IH]; [done|]. cbn. done. Qed.

Lemma write_steps_silent steps : ∀ σ tmp acc,
  Forall (λ s : step, s.2 = []) steps → (write_steps σ tmp acc steps).1.2 = [].
Proof.
  induction steps as [|[rows lg] steps IH]; intros σ tmp acc Hs; [done|].
  apply Forall_cons in Hs as [Hlg Hs]. cbn in Hlg. subst lg. cbn [write_steps].
  destruct (Utf8.encode (writerows rows)) as [b|]; [|done].
  specialize (IH (<[tmp:=acc ++ b]> σ) tmp (acc ++ b) Hs).
  by destruct (write_steps (<[tmp:=acc ++ b]> σ) tmp (acc ++ b) steps) as [[? ?] ?].
Qed.

(** A pass whose iterations log nothing logs nothing. *)
Lemma rewrite_pass_silent σ fp tmp steps perr :
  Forall (λ s : step, s.2 = []) steps →
  (rewrite_pass σ fp tmp steps perr).1.2 = [].
Proof.
  intros Hs. unfold rewrite_pass.
  pose proof (write_steps_silent steps (<[tmp:=[]]> σ) tmp [] Hs) as H.
  destruct (write_steps (<[tmp:=[]]> σ) tmp [] steps) as [[tr lg] werr].
  cbn in H. subst lg. by destruct werr, perr.
Qed.

(** The sanitizing pass fails exactly when its reader does, before any
    replacement; otherwise it replaces the file by the records it read,
    written back. It logs nothing. *)
Lemma sanitize_spec fp σ content :
  σ !! fp = Some content →
  let tmp := fp +:+ "_tmp" in
  match reader_rows (sanitized_lines content) with
  | (rows, None) =>
    ∃ new body,
      Utf8.encode (writerows rows) = Some new ∧
      sanitize fp σ = (body ++ [<[fp := new]> (delete tmp σ)], [], None) ∧
      Forall (λ σ', ∃ x, σ' = <[tmp := x]> σ) body
  | (rows, Some err) =>
    ∃ tr, sanitize fp σ = (tr, [], Some err) ∧
          Forall (λ σ', ∃ x, σ' = <[tmp := x]> σ) tr
  end.
Proof.
  intros Hσ tmp. unfold sanitize. rewrite Hσ. fold tmp.
  destruct (sanitized_rows_writable content) as (_ & _ & [new Hnew]).
  destruct (reader_rows (sanitized_lines content)) as [rows rerr].
  cbn [fst] in Hnew.
  pose proof (rewrite_pass_spec σ fp tmp (map (λ r, ([r], [])) rows) rerr) as H.
  pose proof (rewrite_pass_silent σ fp tmp (map (λ r, ([r], [])) rows) rerr) as Hlg.
  destruct (rewrite_pass σ fp tmp (map (λ r, ([r], [])) rows) rerr)
    as [[tr lg] e].
  cbn in Hlg. rewrite Hlg by (apply Forall_map, Forall_forall; done). clear Hlg.
  rewrite written_singletons, logged_singletons in H.
  destruct e as [err|].
  - destruct H as (Htr & Hperr & [Henc | ->]); [congruence|]. eauto.
  - destruct H as (-> & -> & b & body & Hb & -> & Hbody).
    exists b, body. done.
Qed.

(** Reading a written file back the way the sanitizing pass reads. *)
Lemma sanitized_lines_written (rows : list record) new :
  Utf8.encode (writerows rows) = Some new → 0%N ∉ writerows rows →
  Forall (Forall fits) rows →
  reader_rows (sanitized_lines new) = (rows, None).
Proof.
  intros Hnew Hz Hfit. rewrite (sanitized_lines_encode _ _ Hnew Hz).
  rewrite writerows_eq. apply reader_rows_written; [by left|done].
Qed.

(** Reading a written file back in text mode: the records come back with
    the newlines inside their fields translated. *)
Lemma text_reader_written (rows : list record) new :
  Utf8.encode (writerows rows) = Some new → Forall (Forall fits) rows →
  text_reader new = (map (map universal_newlines) rows, None).
Proof.
  intros Hnew Hfit. unfold text_reader, read_text_lines.
  rewrite (utf8_decode_encode _ _ Hnew). cbn [fmap option_fmap option_map compose].
  rewrite universal_newlines_writerows.
  apply reader_rows_written; [by right|].
  apply Forall_map. eapply Forall_impl; [exact Hfit|]. intros row Hrow.
  apply Forall_map. eapply Forall_impl; [exact Hrow|]. intros f Hf. cbn.
  rewrite universal_newlines_translate. unfold fits in *.
  pose proof (translate_length false f). lia.
Qed.

Lemma final_app σ tr1 tr2 : final σ (tr1 ++ tr2) = final (final σ tr1) tr2.
Proof.
  unfold final. revert σ. induction tr1 as [|x tr1 IH]; intros σ; [done|].
  cbn [app]. rewrite !last_cons_default. apply IH.
Qed.

Lemma final_snoc σ tr x : final σ (tr ++ [x]) = x.
Proof. apply last_last. Qed.

(** [preprocess] over a list of files in two parts. *)
Lemma preprocess_app DATA files1 files2 : ∀ σ,
  preprocess DATA (files1 ++ files2) σ =
    let '(tr, lg, e) := preprocess DATA files1 σ in
    match e with
    | Some err => (tr, lg, Some err)
    | None =>
      let '(tr', lg', e') := preprocess DATA files2 (final σ tr) in
      (tr ++ tr', lg ++ lg', e')
    end.
Proof.
  induction files1 as [|fin files1 IH]; intros σ.
  { cbn. by destruct (preprocess DATA files2 σ) as [[? ?] ?]. }
  cbn [app preprocess].
  destruct (preprocess_file DATA fin σ) as [[tr lg] [err|]]; [done|].
  rewrite IH. destruct (preprocess DATA files1 (final σ tr)) as [[tr1 lg1] [err|]].
  { done. }
  rewrite final_app.
  destruct (preprocess DATA files2 (final (final σ tr) tr1)) as [[tr2 lg2] e2].
  by rewrite !app_assoc.
Qed.

End pass_facts.

(** * One iteration of [preprocess], end to end *)

Section end_to_end.
Implicit Types (σ : fs) (tr : list fs) (fp : string).

(** What the repair loop writes is made of the records of the file and of
    the dictionary. *)
Lemma fix_steps_written_Forall (Q : record → Prop) fp m N rows :
  (∀ a b, Q a → Q b → Q (a ++ b)) →
  (∀ j r, m !! j = Some r → Q r) →
  ∀ idx, Forall Q rows → Forall Q (written (fix_steps fp m N idx rows)).
Proof.
  intros Happ Hm idx Hrows. revert idx.
  induction Hrows as [|line rows Hline _ IH]; intros idx; [constructor|].
  cbn [fix_steps written flat_map]. apply Forall_app. split; [|apply IH].
  unfold fix_line. repeat case_match; cbn; repeat constructor; eauto.
Qed.

Lemma sanitized_rows_scalar content :
  Forall (Forall (Forall Utf8.scalar)) (reader_rows (sanitized_lines content)).1.
Proof.
  pose proof (read_rows_good _ _ parse_reset
                (good_reset _) (sanitized_lines_chars content)) as H.
  eapply Forall_impl; [exact H|]. intros row Hrow.
  eapply Forall_impl; [exact Hrow|]. intros f [_ Hf].
  eapply Forall_impl; [exact Hf|]. by intros c [_ ?].
Qed.

(** The whole of one iteration of [preprocess] on a file the sanitizing pass
    gets through: it succeeds, and what it logs and leaves in the file is
    what [repair] gives for the records of the sanitized file as a text-mode
    reader sees them. When no line is malformed, the file stays as the
    sanitizing pass wrote it. *)
Theorem preprocess_file_repairs DATA fin σ content rows :
  σ !! data_path DATA fin = Some content →
  reader_rows (sanitized_lines content) = (rows, None) → rows ≠ [] →
  let fp := data_path DATA fin in
  let rows' := map (map universal_newlines) rows in
  ∃ out lg tr new,
    repair fp rows' = Some (out, lg) ∧
    preprocess_file DATA fin σ = (tr, lg, None) ∧
    final σ tr !! fp = Some new ∧
    Utf8.encode (writerows (if 0 <? size (malformed_index fp rows')
                            then out else rows)) = Some new.
Proof.
  intros Hσ Hrows Hne fp rows'. unfold preprocess_file. fold fp in Hσ |- *.
  pose proof (sanitize_spec fp σ content Hσ) as H1. cbv zeta in H1.
  destruct (sanitized_rows_writable content) as (Hfit & Hz & _).
  pose proof (sanitized_rows_scalar content) as Hsc.
  rewrite Hrows in H1, Hfit, Hz, Hsc. cbn [fst] in *.
  destruct H1 as (new1 & body & Hnew1 & -> & _). rewrite final_snoc.
  set (tmp := fp +:+ "_tmp") in *.
  set (σ1 := <[fp:=new1]> (delete tmp σ)).
  assert (σ1 !! fp = Some new1) as Hσ1 by apply lookup_insert_eq.
  pose proof (text_reader_written rows new1 Hnew1 Hfit) as Hread.
  fold rows' in Hread.
  assert (Forall (Forall (Forall Utf8.scalar)) rows') as Hsc'.
  { apply Forall_map. eapply Forall_impl; [exact Hsc|]. intros row Hrow.
    apply Forall_map. eapply Forall_impl; [exact Hrow|]. intros f Hf. cbn.
    rewrite universal_newlines_translate. apply translate_Forall; [|done].
    unfold Utf8.scalar, LF. lia. }
  destruct rows' as [|headers data] eqn:Hrows'.
  { destruct rows; done. }
  pose proof (repair_eq fp headers data) as Hrep. cbv zeta in Hrep.
  unfold scan_and_fix. rewrite Hσ1, Hread.
  set (m := malformed_index fp (headers :: data)) in *.
  assert ((scan fp (length headers) 2 data ∅).1 = m) as Hm by done.
  destruct (scan fp (length headers) 2 data ∅) as [m' lg0]. cbn [fst snd] in *.
  subst m'. destruct (0 <? size m) eqn:Hsz.
  - unfold fix_bad_line. rewrite Hσ1, Hread. fold tmp.
    set (steps := fix_steps fp m (length headers) 1 (headers :: data)) in *.
    pose proof (rewrite_pass_spec σ1 fp tmp steps None) as H2.
    destruct (rewrite_pass σ1 fp tmp steps None) as [[tr2 lg2] e2].
    assert (is_Some (Utf8.encode (writerows (written steps)))) as [b Hb].
    { apply Forall_scalar_encode.
      apply writerows_Forall; try (unfold Utf8.scalar, COMMA, DQUOTE, CR, LF; lia).
      apply fix_steps_written_Forall; [|by subst m; intros j r (Hr & _)%malformed_index_row;
        rewrite Forall_forall in Hsc'; apply Hsc', list_elem_of_lookup; eauto|done].
      intros a b Ha Hb. by apply Forall_app. }
    destruct e2 as [err|].
    { destruct H2 as (_ & _ & [H2|H2]); congruence. }
    destruct H2 as (_ & -> & b' & body2 & Hb' & -> & _).
    eexists _, _, _, b. split; [exact Hrep|]. split; [done|].
    rewrite app_assoc, final_snoc. split; [|done].
    assert (b' = b) as -> by congruence. apply lookup_insert_eq.
  - eexists _, _, _, new1. split; [exact Hrep|]. rewrite app_nil_r, final_snoc.
    done.
Qed.

End end_to_end.

(** * What the repair loop writes *)

Section output_facts.
Context (fp : string).
Implicit Types (m : gmap nat record) (rows : list record) (line : record).

(** What an iteration of the repair loop writes: the record itself when its
    line is not in the dictionary, or two consecutive records of the
    dictionary joined. *)
Lemma fix_line_written_cases m N idx line r :
  r ∈ (fix_line fp m N idx line).1 →
  (r = line ∧ m !! idx = None ∧ line ≠ []) ∨
  (∃ a b, m !! idx = Some a ∧ m !! (idx + 1) = Some b ∧ r = a ++ b ∧
          length a + length b = N).
Proof.
  unfold fix_line.
  destruct (bool_decide (m !! idx = None)) eqn:Hm;
    destruct (bool_decide (line ≠ [])) eqn:Hl; cbn [andb].
  { apply bool_decide_eq_true in Hm, Hl. cbn.
    intros [->|?%elem_of_nil]%elem_of_cons; [|done]. by left. }
  all: destruct (length line =? 0); [cbn; by intros ?%elem_of_nil|].
  all: destruct (m !! idx) as [a|]; [|cbn; by intros ?%elem_of_nil].
  all: destruct (m !! (idx + 1)) as [b|]; [|cbn; by intros ?%elem_of_nil].
  all: destruct (bool_decide (a ≠ []) && bool_decide (b ≠ []));
    [|cbn; by intros ?%elem_of_nil].
  all: destruct (length a + length b =? N) eqn:HN; [|cbn; by intros ?%elem_of_nil].
  all: cbn; intros [->|?%elem_of_nil]%elem_of_cons; [|done].
  all: right; exists a, b; apply Nat.eqb_eq in HN; done.
Qed.

(** A record of the dictionary that is shorter than the header is nowhere in
    the repaired file: it is not copied, and a joined record has the width
    of the header. *)
Lemma dictionary_record_not_written headers data j r :
  malformed_index fp (headers :: data) !! j = Some r →
  length r < length headers →
  r ∉ written (fix_steps fp (malformed_index fp (headers :: data))
                 (length headers) 1 (headers :: data)).
Proof.
  intros Hj Hlen Hin. set (m := malformed_index fp (headers :: data)) in *.
  unfold written in Hin.
  apply list_elem_of_In, in_flat_map in Hin as (s & Hs & Hr).
  apply list_elem_of_In, list_elem_of_lookup in Hs as [k Hk].
  apply fix_steps_lookup in Hk as (line & Hline & ->).
  apply list_elem_of_In, fix_line_written_cases in Hr
    as [(-> & Hnone & _) | (a & b & _ & _ & -> & Hab)].
  - destruct k as [|k]; cbn in Hline.
    + injection Hline as ->. lia.
    + apply malformed_index_lookup in Hj as (_ & _ & Hm).
      assert (m !! (1 + S k) = Some line) as Hsome.
      { apply malformed_index_lookup. split_and!; [lia| |done].
        by replace (1 + S k - 2) with k by lia. }
      congruence.
  - rewrite length_app in Hlen. lia.
Qed.

(** A field that occurs in line [j] only is written by the iterations of
    lines [j - 1] and [j] only, once each at most. *)
Lemma fix_steps_field_twice m N (f : text) j rows : ∀ idx,
  (∀ i a, m !! i = Some a → i ≠ j → f ∉ a) →
  (∀ k line, rows !! k = Some line → idx + k ≠ j → f ∉ line) →
  length (List.filter (λ r, bool_decide (f ∈ r))
            (written (fix_steps fp m N idx rows)))
    ≤ if j <? idx then 0 else if j =? idx then 1 else 2.
Proof.
  intros idx Hm. revert idx.
  induction rows as [|line rest IH]; intros idx Hrows.
  { cbn. repeat case_match; lia. }
  cbn [fix_steps written flat_map]. rewrite List.filter_app, length_app.
  fold (written (fix_steps fp m N (S idx) rest)).
  assert (∀ k l, rest !! k = Some l → S idx + k ≠ j → f ∉ l) as Hrest.
  { intros k l Hk Hne. apply (Hrows (S k) l); [done|lia]. }
  specialize (IH (S idx) Hrest).
  pose proof (List.filter_length_le (λ r, bool_decide (f ∈ r))
                (fix_line fp m N idx line).1) as Hle.
  assert (length (fix_line fp m N idx line).1 ≤ 1) as H1.
  { unfold fix_line. repeat case_match; cbn; lia. }
  assert (idx ≠ j → idx + 1 ≠ j →
          List.filter (λ r, bool_decide (f ∈ r)) (fix_line fp m N idx line).1 = [])
    as Hfree.
  { intros Hi Hi1.
    destruct ((fix_line fp m N idx line).1) as [|r [|r' l]] eqn:E;
      [done| |cbn in H1; lia].
    assert (r ∈ (fix_line fp m N idx line).1) as Hr
      by (rewrite E; apply list_elem_of_here).
    assert (f ∉ r) as Hf.
    { apply fix_line_written_cases in Hr
        as [(-> & _ & _) | (a & b & Ha & Hb & -> & _)].
      - apply (Hrows 0 line); [done|lia].
      - rewrite elem_of_app. intros [?|?]; [by eapply (Hm idx a)|by eapply (Hm (idx + 1) b)]. }
    cbn. by rewrite bool_decide_eq_false_2. }
  destruct (Nat.ltb_spec j idx) as [Hlt|Hge].
  { rewrite Hfree by lia. destruct (Nat.ltb_spec j (S idx)); [cbn; lia|lia]. }
  destruct (Nat.eqb_spec j idx) as [->|Hne].
  { rewrite (proj2 (Nat.ltb_lt idx (S idx))) in IH by lia. lia. }
  destruct (Nat.ltb_spec j (S idx)); [lia|].
  destruct (Nat.eqb_spec j (S idx)) as [->|Hne']; [lia|].
  rewrite Hfree by lia. cbn. lia.
Qed.

End output_facts.

(** * The repair step on records *)

(** C1, as the code has it. For two adjacent lines [i] and [i + 1] of the
    malformed-line dictionary whose numbers of raw fields (empty ones
    included) add up to the number of header fields, the repaired file holds,
    at the place of line [i], exactly one record: the fields of line [i]
    followed by those of line [i + 1], as many as the header has. Neither
    record is written on its own by its iteration, and no record of the
    repaired file is line [i] or line [i + 1] as it was. *)
Theorem merge_adjacent fp headers data i ri rj :
  let rows := headers :: data in
  let m := malformed_index fp rows in
  let width := length headers in
  m !! i = Some ri → m !! (i + 1) = Some rj →
  length ri + length rj = width →
  ∃ pre post out lg,
    rows = pre ++ ri :: rj :: post ∧ length pre + 1 = i ∧
    repair fp rows = Some (out, lg) ∧
    out = written (fix_steps fp m width 1 pre) ++ (ri ++ rj)
            :: written (fix_steps fp m width (i + 1) (rj :: post)) ∧
    Combined i (i + 1) fp ∈ lg ∧
    length (ri ++ rj) = width ∧
    (ri ∉ (fix_line fp m width i ri).1) ∧
    (rj ∉ (fix_line fp m width (i + 1) rj).1) ∧
    (ri ∉ out) ∧ (rj ∉ out).
Proof.
  intros rows m width Hi Hj Hlen.
  destruct (malformed_index_row _ _ _ _ _ Hi) as (Hri & Hne_i & Hge).
  destruct (malformed_index_row _ _ _ _ _ Hj) as (Hrj & Hne_j & _).
  replace (i + 1 - 1) with i in Hrj by lia. fold rows in Hri, Hrj.
  destruct (split_at_line _ _ _ Hri) as [Hsplit Hpre].
  replace (S (i - 1)) with i in Hsplit by lia.
  rewrite (drop_S _ _ _ Hrj) in Hsplit.
  set (pre := take (i - 1) rows) in *. set (post := drop (S i) rows) in *.
  assert (fix_line fp m width i ri = ([ri ++ rj], [Combined i (i + 1) fp])) as Hstep.
  { rewrite (fix_line_corrupt fp m width i ri ri) by done.
    rewrite Hj, bool_decide_eq_true_2 by done.
    by rewrite (proj2 (Nat.eqb_eq _ _) Hlen). }
  pose proof (repair_eq fp headers data) as Hrep. cbv zeta in Hrep.
  fold rows m width in Hrep. rewrite (size_pos_lookup _ _ _ Hi) in Hrep.
  assert (fix_steps fp m width 1 rows =
          fix_steps fp m width 1 pre ++ fix_line fp m width i ri
            :: fix_steps fp m width (i + 1) (rj :: post)) as Hsteps.
  { rewrite Hsplit at 1. rewrite fix_steps_app. cbn [fix_steps]. rewrite Hpre.
    replace (1 + (i - 1)) with i by lia. by rewrite Nat.add_1_r. }
  assert (0 < length ri ∧ 0 < length rj) as [Hli Hlj].
  { destruct ri, rj; cbn; try done; lia. }
  exists pre, post, (written (fix_steps fp m width 1 rows)),
    ((scan fp width 2 data ∅).2 ++ Fixing fp :: logged (fix_steps fp m width 1 rows)).
  split_and!.
  - done.
  - lia.
  - done.
  - rewrite Hsteps, written_app. cbn [written flat_map]. rewrite Hstep.
    reflexivity.
  - rewrite Hsteps, logged_app. cbn [logged flat_map]. rewrite Hstep.
    apply elem_of_app. right. apply elem_of_cons. right.
    apply elem_of_app. right. apply list_elem_of_here.
  - by rewrite length_app.
  - rewrite Hstep. cbn. intros [Heq|?%elem_of_nil]%elem_of_cons; [|done].
    apply (f_equal length) in Heq. rewrite length_app in Heq. lia.
  - rewrite (fix_line_corrupt fp m width (i + 1) rj rj) by done.
    destruct (m !! (i + 1 + 1)) as [rk|]; [|cbn; by intros ?%elem_of_nil].
    destruct (bool_decide (rk ≠ [])) eqn:Hk; [|cbn; by intros ?%elem_of_nil].
    apply bool_decide_eq_true in Hk.
    destruct (length rj + length rk =? width); [|cbn; by intros ?%elem_of_nil].
    cbn. intros [Heq|?%elem_of_nil]%elem_of_cons; [|done].
    apply (f_equal length) in Heq. rewrite length_app in Heq.
    destruct rk; [done|cbn in Heq; lia].
  - apply (dictionary_record_not_written fp headers data i ri); [done|].
    fold width. lia.
  - apply (dictionary_record_not_written fp headers data (i + 1) rj); [done|].
    fold width. lia.
Qed.

Lemma merge_adjacent_witness :
  ∃ pre post out lg,
    [txt "a"; txt "b"; txt "c"] :: [[txt "1"]; [txt "2"; txt "3"]]
      = pre ++ [txt "1"] :: [txt "2"; txt "3"] :: post ∧
    length pre + 1 = 2 ∧
    repair "f" ([txt "a"; txt "b"; txt "c"] :: [[txt "1"]; [txt "2"; txt "3"]])
      = Some (out, lg) ∧
    out = written (fix_steps "f"
              (malformed_index "f"
                 ([txt "a"; txt "b"; txt "c"] :: [[txt "1"]; [txt "2"; txt "3"]]))
              (length [txt "a"; txt "b"; txt "c"]) 1 pre)
            ++ ([txt "1"] ++ [txt "2"; txt "3"])
            :: written (fix_steps "f"
                 (malformed_index "f"
                    ([txt "a"; txt "b"; txt "c"] :: [[txt "1"]; [txt "2"; txt "3"]]))
                 (length [txt "a"; txt "b"; txt "c"]) (2 + 1)
                 ([txt "2"; txt "3"] :: post)) ∧
    Combined 2 (2 + 1) "f" ∈ lg ∧
    length ([txt "1"] ++ [txt "2"; txt "3"]) = length [txt "a"; txt "b"; txt "c"] ∧
    ([txt "1"] ∉ (fix_line "f"
        (malformed_index "f"
           ([txt "a"; txt "b"; txt "c"] :: [[txt "1"]; [txt "2"; txt "3"]]))
        (length [txt "a"; txt "b"; txt "c"]) 2 [txt "1"]).1) ∧
    ([txt "2"; txt "3"] ∉ (fix_line "f"
        (malformed_index "f"
           ([txt "a"; txt "b"; txt "c"] :: [[txt "1"]; [txt "2"; txt "3"]]))
        (length [txt "a"; txt "b"; txt "c"]) (2 + 1) [txt "2"; txt "3"]).1) ∧
    ([txt "1"] ∉ out) ∧ ([txt "2"; txt "3"] ∉ out).
Proof.
  apply (merge_adjacent "f" [txt "a"; txt "b"; txt "c"]
           [[txt "1"]; [txt "2"; txt "3"]] 2 [txt "1"] [txt "2"; txt "3"]).
  - vm_compute. reflexivity.
  - vm_compute. reflexivity.
  - reflexivity.
Defined.

(** C1 as stated fails: with a three-field header, the malformed records
    [x,,] and [,y,z] have populated counts 1 and 2, which add up to 3, yet
    nothing is written for them (their raw lengths add up to 6): the
    repaired file holds the header alone. *)
Lemma merge_by_populated_count_fails :
  malformed_index "f" [[txt "a"; txt "b"; txt "c"];
                       [txt "x"; []; []]; [[]; txt "y"; txt "z"]] !! 2
    = Some [txt "x"; []; []] ∧
  malformed_index "f" [[txt "a"; txt "b"; txt "c"];
                       [txt "x"; []; []]; [[]; txt "y"; txt "z"]] !! 3
    = Some [[]; txt "y"; txt "z"] ∧
  populated [txt "x"; []; []] + populated [[]; txt "y"; txt "z"]
    = length [txt "a"; txt "b"; txt "c"] ∧
  repair "f" [[txt "a"; txt "b"; txt "c"];
              [txt "x"; []; []]; [[]; txt "y"; txt "z"]]
    = Some ([[txt "a"; txt "b"; txt "c"]],
            [Malformed 2 "f"; Malformed 3 "f"; Fixing "f"]) ∧
  ¬ ∃ out lg row,
      repair "f" [[txt "a"; txt "b"; txt "c"];
                  [txt "x"; []; []]; [[]; txt "y"; txt "z"]] = Some (out, lg) ∧
      row ∈ out ∧ length row = 3 ∧
      row = [txt "x"; []; []] ++ [[]; txt "y"; txt "z"].
Proof.
  split_and!; try (vm_compute; reflexivity).
  intros (out & lg & row & _ & _ & Hlen & ->). vm_compute in Hlen. lia.
Qed.

(** C2, as the code has it. Nothing marks line [i + 1] as consumed after the
    merge of lines [i] and [i + 1]: its own iteration runs the merge branch
    again, writing line [i + 1] followed by line [i + 2] when that line is in
    the dictionary and the two raw lengths add up to the header's, and
    writing nothing otherwise, never line [i + 1] alone. A line is named by
    at most two messages of the loop. In the repaired file, a field that
    occurs in one line of the file only is in at most two records: the one
    written by the iteration of the line before and the one written by its
    own. *)
Theorem merged_row_processed_again fp headers data i ri rj :
  let rows := headers :: data in
  let m := malformed_index fp rows in
  let width := length headers in
  m !! i = Some ri → m !! (i + 1) = Some rj →
  length ri + length rj = width →
  fix_line fp m width i ri = ([ri ++ rj], [Combined i (i + 1) fp]) ∧
  fix_line fp m width (i + 1) rj =
    match m !! (i + 1 + 1) with
    | Some rk =>
      if length rj + length rk =? width
      then ([rj ++ rk], [Combined (i + 1) (i + 1 + 1) fp])
      else ([], [])
    | None => ([], [])
    end ∧
  (∀ j, length (List.filter (cites j) (logged (fix_steps fp m width 1 rows))) ≤ 2) ∧
  ∃ out lg,
    repair fp rows = Some (out, lg) ∧
    ∀ j (f : text),
      (∀ k line, rows !! k = Some line → k + 1 ≠ j → f ∉ line) →
      length (List.filter (λ r, bool_decide (f ∈ r)) out) ≤ 2.
Proof.
  intros rows m width Hi Hj Hlen.
  destruct (malformed_index_row _ _ _ _ _ Hi) as (_ & Hne_i & _).
  destruct (malformed_index_row _ _ _ _ _ Hj) as (_ & Hne_j & _).
  split_and!.
  - rewrite (fix_line_corrupt fp m width i ri ri) by done.
    rewrite Hj, bool_decide_eq_true_2 by done.
    by rewrite (proj2 (Nat.eqb_eq _ _) Hlen).
  - rewrite (fix_line_corrupt fp m width (i + 1) rj rj) by done.
    destruct (m !! (i + 1 + 1)) as [rk|] eqn:Hk; [|done].
    destruct (malformed_index_row _ _ _ _ _ Hk) as (_ & Hne_k & _).
    by rewrite bool_decide_eq_true_2.
  - intros j. pose proof (fix_steps_cites_twice fp m width j rows 1) as H.
    repeat case_match; lia.
  - pose proof (repair_eq fp headers data) as Hrep. cbv zeta in Hrep.
    fold rows m width in Hrep. rewrite (size_pos_lookup _ _ _ Hi) in Hrep.
    eexists _, _. split; [exact Hrep|]. intros j f Hf.
    pose proof (fix_steps_field_twice fp m width f j rows 1) as H.
    assert (∀ i' a, m !! i' = Some a → i' ≠ j → f ∉ a) as Hm.
    { intros i' a (Ha & _ & Hge)%malformed_index_row Hne.
      apply (Hf (i' - 1) a); [done|lia]. }
    specialize (H Hm). 
    assert (∀ k line, rows !! k = Some line → 1 + k ≠ j → f ∉ line) as Hrows.
    { intros k line Hk Hne. apply (Hf k line); [done|lia]. }
    specialize (H Hrows). repeat case_match; lia.
Qed.

Lemma merged_row_processed_again_witness :
  fix_line "f"
    (malformed_index "f" ([txt "a"; txt "b"; txt "c"; txt "d"]
       :: [[txt "1"; txt "2"]; [txt "3"; txt "4"]; [txt "5"; txt "6"]]))
    (length [txt "a"; txt "b"; txt "c"; txt "d"]) 2 [txt "1"; txt "2"]
  = ([[txt "1"; txt "2"] ++ [txt "3"; txt "4"]], [Combined 2 (2 + 1) "f"]) ∧
  fix_line "f"
    (malformed_index "f" ([txt "a"; txt "b"; txt "c"; txt "d"]
       :: [[txt "1"; txt "2"]; [txt "3"; txt "4"]; [txt "5"; txt "6"]]))
    (length [txt "a"; txt "b"; txt "c"; txt "d"]) (2 + 1) [txt "3"; txt "4"]
  = match malformed_index "f" ([txt "a"; txt "b"; txt "c"; txt "d"]
       :: [[txt "1"; txt "2"]; [txt "3"; txt "4"]; [txt "5"; txt "6"]])
          !! (2 + 1 + 1) with
    | Some rk =>
      if length [txt "3"; txt "4"] + length rk
           =? length [txt "a"; txt "b"; txt "c"; txt "d"]
      then ([[txt "3"; txt "4"] ++ rk], [Combined (2 + 1) (2 + 1 + 1) "f"])
      else ([], [])
    | None => ([], [])
    end ∧
  (∀ j, length (List.filter (cites j) (logged (fix_steps "f"
         (malformed_index "f" ([txt "a"; txt "b"; txt "c"; txt "d"]
            :: [[txt "1"; txt "2"]; [txt "3"; txt "4"]; [txt "5"; txt "6"]]))
         (length [txt "a"; txt "b"; txt "c"; txt "d"]) 1
         ([txt "a"; txt "b"; txt "c"; txt "d"]
            :: [[txt "1"; txt "2"]; [txt "3"; txt "4"]; [txt "5"; txt "6"]])))) ≤ 2) ∧
  ∃ out lg,
    repair "f" ([txt "a"; txt "b"; txt "c"; txt "d"]
       :: [[txt "1"; txt "2"]; [txt "3"; txt "4"]; [txt "5"; txt "6"]])
      = Some (out, lg) ∧
    ∀ j (f : text),
      (∀ k line,
         ([txt "a"; txt "b"; txt "c"; txt "d"]
            :: [[txt "1"; txt "2"]; [txt "3"; txt "4"]; [txt "5"; txt "6"]]) !! k
           = Some line → k + 1 ≠ j → f ∉ line) →
      length (List.filter (λ r, bool_decide (f ∈ r)) out) ≤ 2.
Proof.
  apply (merged_row_processed_again "f" [txt "a"; txt "b"; txt "c"; txt "d"]
           [[txt "1"; txt "2"]; [txt "3"; txt "4"]; [txt "5"; txt "6"]]
           2 [txt "1"; txt "2"] [txt "3"; txt "4"]).
  - vm_compute. reflexivity.
  - vm_compute. reflexivity.
  - reflexivity.
Defined.

(** C2 as stated fails: in a run of three malformed lines under a four-field
    header, both the first and the second pair are merged, and the fields of
    the middle line are written twice. *)
Lemma run_of_three_merges_twice :
  malformed_index "f" [[txt "a"; txt "b"; txt "c"; txt "d"];
      [txt "1"; txt "2"]; [txt "3"; txt "4"]; [txt "5"; txt "6"]] !! 2
    = Some [txt "1"; txt "2"] ∧
  malformed_index "f" [[txt "a"; txt "b"; txt "c"; txt "d"];
      [txt "1"; txt "2"]; [txt "3"; txt "4"]; [txt "5"; txt "6"]] !! 3
    = Some [txt "3"; txt "4"] ∧
  malformed_index "f" [[txt "a"; txt "b"; txt "c"; txt "d"];
      [txt "1"; txt "2"]; [txt "3"; txt "4"]; [txt "5"; txt "6"]] !! 4
    = Some [txt "5"; txt "6"] ∧
  repair "f" [[txt "a"; txt "b"; txt "c"; txt "d"];
      [txt "1"; txt "2"]; [txt "3"; txt "4"]; [txt "5"; txt "6"]]
    = Some ([[txt "a"; txt "b"; txt "c"; txt "d"];
             [txt "1"; txt "2"; txt "3"; txt "4"];
             [txt "3"; txt "4"; txt "5"; txt "6"]],
            [Malformed 2 "f"; Malformed 3 "f"; Malformed 4 "f"; Fixing "f";
             Combined 2 3 "f"; Combined 3 4 "f"]) ∧
  ¬ ∀ out lg,
      repair "f" [[txt "a"; txt "b"; txt "c"; txt "d"];
        [txt "1"; txt "2"]; [txt "3"; txt "4"]; [txt "5"; txt "6"]]
        = Some (out, lg) →
      length (List.filter (λ r, bool_decide (txt "3" ∈ r)) out) ≤ 1.
Proof.
  split_and!; try (vm_compute; reflexivity).
  intros H. specialize (H _ _ eq_refl). vm_compute in H. lia.
Qed.




(** C9. Whenever an iteration of the repair loop takes the merge branch (it
    logs the combination of lines [a] and [b]), the record it writes is the
    concatenation of the two dictionary entries and has exactly as many
    fields as the header. *)
Theorem merged_row_has_header_width fp headers data k s a b f :
  let rows := headers :: data in
  let m := malformed_index fp rows in
  fix_steps fp m (length headers) 1 rows !! k = Some s →
  Combined a b f ∈ s.2 →
  ∃ this_line next_line,
    a = k + 1 ∧ b = a + 1 ∧
    m !! a = Some this_line ∧ m !! b = Some next_line ∧
    s.1 = [this_line ++ next_line] ∧
    length (this_line ++ next_line) = length headers.
Proof.
  intros rows m Hk Hc.
  apply fix_steps_lookup in Hk as (line & _ & ->).
  rewrite (Nat.add_comm 1 k) in Hc |- *.
  apply fix_line_combined in Hc
    as (this & next & Ht & Hn & -> & -> & -> & HN & Heq).
  exists this, next. rewrite Heq, length_app. split_and!; try done.
Qed.

Lemma merged_row_has_header_width_witness :
  ∃ this_line next_line : record,
    2 = 1 + 1 ∧ 3 = 2 + 1 ∧
    malformed_index "f" [[txt "a"; txt "b"; txt "c"];
                         [txt "1"]; [txt "2"; txt "3"]] !! 2 = Some this_line ∧
    malformed_index "f" [[txt "a"; txt "b"; txt "c"];
                         [txt "1"]; [txt "2"; txt "3"]] !! 3 = Some next_line ∧
    ([[txt "1"; txt "2"; txt "3"]], [Combined 2 3 "f"]).1
      = [this_line ++ next_line] ∧
    length (this_line ++ next_line) = 3.
Proof.
  apply (merged_row_has_header_width "f" [txt "a"; txt "b"; txt "c"]
           [[txt "1"]; [txt "2"; txt "3"]] 1
           ([[txt "1"; txt "2"; txt "3"]], [Combined 2 3 "f"]) 2 3 "f").
  - vm_compute. reflexivity.
  - apply list_elem_of_here.
Defined.

(** C10. A data record with at least as many populated fields as the header
    has fields (more included) does not enter the malformed-line dictionary,
    and the file holds it unchanged after the repair, between what the
    records before it and the records after it give: the outputs of their
    iterations when the repair runs, themselves when it does not. *)
Theorem full_row_copied fp headers pre line post :
  length headers ≤ populated line →
  let rows := headers :: pre ++ line :: post in
  let m := malformed_index fp rows in
  let N := length headers in
  m !! (length pre + 2) = None ∧
  ∃ o1 o2 lg,
    repair fp rows = Some (o1 ++ line :: o2, lg) ∧
    if 0 <? size m
    then o1 = written (fix_steps fp m N 1 (headers :: pre)) ∧
         o2 = written (fix_steps fp m N (length pre + 3) post)
    else o1 = headers :: pre ∧ o2 = post.
Proof.
  intros Hpop rows m N.
  assert (m !! (length pre + 2) = None) as Hnone.
  { destruct (m !! (length pre + 2)) as [r|] eqn:Hr; [|done].
    apply malformed_index_lookup in Hr as (_ & Hl & Hm).
    replace (length pre + 2 - 2) with (length pre + 0) in Hl by lia.
    rewrite lookup_app_r, Nat.add_0_r, Nat.sub_diag in Hl by lia.
    injection Hl as <-. apply is_malformed_spec in Hm. lia. }
  split; [done|].
  pose proof (repair_eq fp headers (pre ++ line :: post)) as Hrep.
  cbv zeta in Hrep. fold rows m N in Hrep. rewrite Hrep. clear Hrep.
  destruct (0 <? size m) eqn:Hsz.
  - assert (line ≠ []) as Hl.
    { apply Nat.ltb_lt in Hsz.
      destruct (map_size_ne_0_lookup_1 m) as [i [r Hr]]; [lia|].
      apply malformed_index_lookup in Hr as (_ & _ & Hm%is_malformed_spec).
      intros ->. cbn in Hpop. lia. }
    eexists _, _, _. split; [|split; reflexivity].
    f_equal. f_equal. unfold rows.
    change (headers :: pre ++ line :: post) with ((headers :: pre) ++ line :: post).
    rewrite fix_steps_app, written_app. f_equal. cbn [fix_steps written flat_map].
    cbn [length]. replace (1 + S (length pre)) with (length pre + 2) by lia.
    rewrite fix_line_copy by done. cbn. do 3 f_equal. lia.
  - by eexists (headers :: pre), post, _.
Qed.

Lemma full_row_copied_witness :
  malformed_index "f" ([txt "a"; txt "b"] :: [[txt "1"; []]]
      ++ [txt "x"; txt "y"; txt "z"] :: [[txt "2"; txt "3"]])
    !! (length [[txt "1"; []]] + 2) = None ∧
  ∃ o1 o2 lg,
    repair "f" ([txt "a"; txt "b"] :: [[txt "1"; []]]
      ++ [txt "x"; txt "y"; txt "z"] :: [[txt "2"; txt "3"]])
      = Some (o1 ++ [txt "x"; txt "y"; txt "z"] :: o2, lg) ∧
    if 0 <? size (malformed_index "f" ([txt "a"; txt "b"] :: [[txt "1"; []]]
      ++ [txt "x"; txt "y"; txt "z"] :: [[txt "2"; txt "3"]]))
    then o1 = written (fix_steps "f"
                (malformed_index "f" ([txt "a"; txt "b"] :: [[txt "1"; []]]
                   ++ [txt "x"; txt "y"; txt "z"] :: [[txt "2"; txt "3"]]))
                (length [txt "a"; txt "b"]) 1 ([txt "a"; txt "b"] :: [[txt "1"; []]])) ∧
         o2 = written (fix_steps "f"
                (malformed_index "f" ([txt "a"; txt "b"] :: [[txt "1"; []]]
                   ++ [txt "x"; txt "y"; txt "z"] :: [[txt "2"; txt "3"]]))
                (length [txt "a"; txt "b"]) (length [[txt "1"; []]] + 3)
                [[txt "2"; txt "3"]])
    else o1 = [txt "a"; txt "b"] :: [[txt "1"; []]] ∧ o2 = [[txt "2"; txt "3"]].
Proof.
  apply (full_row_copied "f" [txt "a"; txt "b"] [[txt "1"; []]]
           [txt "x"; txt "y"; txt "z"] [[txt "2"; txt "3"]]).
  vm_compute. lia.
Defined.

(** * The passes over the store *)

(** C4, as the code has it. Sanitizing a file that the sanitizing pass has
    already rewritten gives the same bytes again: the second pass succeeds,
    logs nothing and leaves the store as the first pass left it. *)
Theorem sanitize_twice fp σ tr lg :
  sanitize fp σ = (tr, lg, None) →
  ∃ tr', sanitize fp (final σ tr) = (tr', [], None) ∧
         final (final σ tr) tr' = final σ tr.
Proof.
  intros Hrun. destruct (σ !! fp) as [content|] eqn:Hσ.
  2:{ unfold sanitize in Hrun. by rewrite Hσ in Hrun. }
  pose proof (sanitize_spec fp σ content Hσ) as H1. cbv zeta in H1.
  destruct (sanitized_rows_writable content) as (Hfit & Hz & _).
  destruct (reader_rows (sanitized_lines content)) as [rows [err|]];
    cbn [fst] in *.
  { destruct H1 as (tr0 & H1 & _). congruence. }
  destruct H1 as (new & body & Hnew & H1 & _).
  rewrite H1 in Hrun. injection Hrun as <- <-. rewrite final_snoc.
  set (tmp := fp +:+ "_tmp") in *.
  set (σ1 := <[fp:=new]> (delete tmp σ)).
  assert (σ1 !! fp = Some new) as Hσ1 by apply lookup_insert_eq.
  pose proof (sanitize_spec fp σ1 new Hσ1) as H2. cbv zeta in H2.
  rewrite (sanitized_lines_written rows new) in H2 by done.
  destruct H2 as (new' & body' & Hnew' & H2 & _).
  exists (body' ++ [<[fp:=new']> (delete (fp +:+ "_tmp") σ1)]).
  split; [done|]. rewrite final_snoc. fold tmp.
  assert (new' = new) as -> by congruence. unfold σ1.
  rewrite delete_insert_ne by apply tmp_ne.
  by rewrite delete_delete_eq, insert_insert_eq.
Qed.

Lemma sanitize_twice_witness :
  ∃ tr',
    sanitize "d/x.csv"
      (final {[ "d/x.csv" := [x61; x00; x2c; x62; x0a] ]}
         [ {[ "d/x.csv_tmp" := [];
              "d/x.csv" := [x61; x00; x2c; x62; x0a] ]};
           {[ "d/x.csv_tmp" := [x61; x2c; x62; x0d; x0a];
              "d/x.csv" := [x61; x00; x2c; x62; x0a] ]};
           {[ "d/x.csv" := [x61; x2c; x62; x0d; x0a] ]} ])
      = (tr', [], None) ∧
    final (final {[ "d/x.csv" := [x61; x00; x2c; x62; x0a] ]}
         [ {[ "d/x.csv_tmp" := [];
              "d/x.csv" := [x61; x00; x2c; x62; x0a] ]};
           {[ "d/x.csv_tmp" := [x61; x2c; x62; x0d; x0a];
              "d/x.csv" := [x61; x00; x2c; x62; x0a] ]};
           {[ "d/x.csv" := [x61; x2c; x62; x0d; x0a] ]} ]) tr'
    = final {[ "d/x.csv" := [x61; x00; x2c; x62; x0a] ]}
         [ {[ "d/x.csv_tmp" := [];
              "d/x.csv" := [x61; x00; x2c; x62; x0a] ]};
           {[ "d/x.csv_tmp" := [x61; x2c; x62; x0d; x0a];
              "d/x.csv" := [x61; x00; x2c; x62; x0a] ]};
           {[ "d/x.csv" := [x61; x2c; x62; x0d; x0a] ]} ].
Proof.
  apply (sanitize_twice "d/x.csv"
           {[ "d/x.csv" := [x61; x00; x2c; x62; x0a] ]} _ []).
  vm_compute. reflexivity.
Defined.

(** C4 as stated fails: a file without any NUL byte whose line ends in LF
    comes out of the sanitizing pass with a CR LF line end. *)
Lemma sanitize_changes_clean_file :
  (x00 ∉ [x61; x2c; x62; x0a]) ∧
  sanitize "d/x.csv" {[ "d/x.csv" := [x61; x2c; x62; x0a] ]}
    = ([ {[ "d/x.csv_tmp" := []; "d/x.csv" := [x61; x2c; x62; x0a] ]};
         {[ "d/x.csv_tmp" := [x61; x2c; x62; x0d; x0a];
            "d/x.csv" := [x61; x2c; x62; x0a] ]};
         {[ "d/x.csv" := [x61; x2c; x62; x0d; x0a] ]} ], [], None) ∧
  ({[ "d/x.csv" := [x61; x2c; x62; x0d; x0a] ]} : fs) !! "d/x.csv"
    ≠ ({[ "d/x.csv" := [x61; x2c; x62; x0a] ]} : fs) !! "d/x.csv".
Proof.
  split_and!.
  - rewrite list_elem_of_In. cbn. intros [?|[?|[?|[?|[]]]]]; discriminate.
  - vm_compute. reflexivity.
  - vm_compute. discriminate.
Qed.

(** C5, as the code has it. When the reader of the sanitizing pass gets
    through the file, the pass succeeds; the file then holds no NUL byte,
    and its records, read the same way, are the records of the input lines
    with their NUL bytes removed, in the same order. The bytes are those the
    writer makes of these records. *)
Theorem sanitized_records_kept fp σ content rows :
  σ !! fp = Some content →
  reader_rows (sanitized_lines content) = (rows, None) →
  ∃ tr new,
    sanitize fp σ = (tr, [], None) ∧
    final σ tr !! fp = Some new ∧
    Utf8.encode (writerows rows) = Some new ∧
    (x00 ∉ new) ∧
    reader_rows (sanitized_lines new) = (rows, None).
Proof.
  intros Hσ Hrows.
  pose proof (sanitize_spec fp σ content Hσ) as H1. cbv zeta in H1.
  destruct (sanitized_rows_writable content) as (Hfit & Hz & _).
  rewrite Hrows in H1, Hfit, Hz. cbn [fst] in *.
  destruct H1 as (new & body & Hnew & H1 & _).
  eexists _, new. split; [exact H1|]. rewrite final_snoc.
  split_and!.
  - apply lookup_insert_eq.
  - done.
  - by eapply encode_no_nul.
  - by apply sanitized_lines_written.
Qed.

Lemma sanitized_records_kept_witness :
  ∃ tr new,
    sanitize "d/x.csv" {[ "d/x.csv" := [x22; x78; x22; x2c; x00; x79; x0a] ]}
      = (tr, [], None) ∧
    final {[ "d/x.csv" := [x22; x78; x22; x2c; x00; x79; x0a] ]} tr !! "d/x.csv"
      = Some new ∧
    Utf8.encode (writerows [[txt "x"; txt "y"]]) = Some new ∧
    (x00 ∉ new) ∧
    reader_rows (sanitized_lines new) = ([[txt "x"; txt "y"]], None).
Proof.
  apply (sanitized_records_kept "d/x.csv"
           {[ "d/x.csv" := [x22; x78; x22; x2c; x00; x79; x0a] ]}
           [x22; x78; x22; x2c; x00; x79; x0a] [[txt "x"; txt "y"]]).
  - vm_compute. reflexivity.
  - vm_compute. reflexivity.
Defined.

(** C5 as stated fails: the pass is not a pure subtraction of NUL bytes. The
    seven input bytes hold a quoted field, a NUL and an LF; the output lacks
    the NUL, and also the quotes, and ends in CR LF. *)
Lemma sanitize_is_not_subtraction :
  replace_nul [x22; x78; x22; x2c; x00; x79; x0a]
    = [x22; x78; x22; x2c; x79; x0a] ∧
  sanitize "d/x.csv" {[ "d/x.csv" := [x22; x78; x22; x2c; x00; x79; x0a] ]}
    = ([ {[ "d/x.csv_tmp" := [];
            "d/x.csv" := [x22; x78; x22; x2c; x00; x79; x0a] ]};
         {[ "d/x.csv_tmp" := [x78; x2c; x79; x0d; x0a];
            "d/x.csv" := [x22; x78; x22; x2c; x00; x79; x0a] ]};
         {[ "d/x.csv" := [x78; x2c; x79; x0d; x0a] ]} ], [], None) ∧
  [x78; x2c; x79; x0d; x0a]
    ≠ replace_nul [x22; x78; x22; x2c; x00; x79; x0a].
Proof.
  split_and!.
  - reflexivity.
  - vm_compute. reflexivity.
  - vm_compute. discriminate.
Qed.

(** C6, as the code has it. Nothing in [preprocess] catches an exception:
    when the sanitizing pass of a file fails with a decode error, the error
    leaves [preprocess] at once and none of the remaining files is processed.
    The files before it keep what their passes wrote; from there on only the
    temporary file of the failing file changes, so the failing file and the
    remaining files hold what they held. *)
Theorem decode_error_stops_batch DATA files fin rest σ tr0 lg0 content :
  preprocess DATA files σ = (tr0, lg0, None) →
  final σ tr0 !! data_path DATA fin = Some content →
  (reader_rows (sanitized_lines content)).2 = Some UnicodeDecodeError →
  ∃ tr,
    preprocess DATA (files ++ fin :: rest) σ
      = (tr0 ++ tr, lg0, Some UnicodeDecodeError) ∧
    ∀ σ', σ' ∈ tr →
      ∀ p, p ≠ data_path DATA fin +:+ "_tmp" → σ' !! p = final σ tr0 !! p.
Proof.
  intros Hpre Hσ Herr. rewrite preprocess_app, Hpre. cbn [preprocess].
  unfold preprocess_file.
  pose proof (sanitize_spec _ _ _ Hσ) as H. cbv zeta in H.
  destruct (reader_rows (sanitized_lines content)) as [rows rerr].
  cbn in Herr. subst rerr. destruct H as (tr & -> & Htr).
  exists tr. rewrite app_nil_r. split; [done|].
  intros σ' Hin p Hp. rewrite Forall_forall in Htr.
  destruct (Htr _ Hin) as [x ->]. by rewrite lookup_insert_ne.
Qed.

Lemma decode_error_stops_batch_witness :
  ∃ tr,
    preprocess "d" ([] ++ "a.csv" :: ["b.csv"])
      {[ "d/a.csv" := [xff; x0a]; "d/b.csv" := [x41; x00; x0a] ]}
      = ([] ++ tr, [], Some UnicodeDecodeError) ∧
    ∀ σ', σ' ∈ tr →
      ∀ p, p ≠ data_path "d" "a.csv" +:+ "_tmp" →
        σ' !! p = final {[ "d/a.csv" := [xff; x0a];
                           "d/b.csv" := [x41; x00; x0a] ]} [] !! p.
Proof.
  apply (decode_error_stops_batch "d" [] "a.csv" ["b.csv"]
           {[ "d/a.csv" := [xff; x0a]; "d/b.csv" := [x41; x00; x0a] ]}
           [] [] [xff; x0a]).
  - reflexivity.
  - vm_compute. reflexivity.
  - vm_compute. reflexivity.
Defined.

(** C6 as stated fails: with a first file that is not UTF-8 and a second
    file holding a NUL byte, [preprocess] raises on the first and never
    touches the second, which still holds its NUL byte at the end; processed
    on its own, the second file is sanitized. *)
Lemma failure_is_not_isolated :
  preprocess "d" ["a.csv"; "b.csv"]
    {[ "d/a.csv" := [xff; x0a]; "d/b.csv" := [x41; x00; x0a] ]}
    = ([ {[ "d/a.csv_tmp" := []; "d/a.csv" := [xff; x0a];
            "d/b.csv" := [x41; x00; x0a] ]} ],
       [], Some UnicodeDecodeError) ∧
  ({[ "d/a.csv_tmp" := []; "d/a.csv" := [xff; x0a];
      "d/b.csv" := [x41; x00; x0a] ]} : fs) !! "d/b.csv"
    = Some [x41; x00; x0a] ∧
  final {[ "d/a.csv" := [xff; x0a]; "d/b.csv" := [x41; x00; x0a] ]}
    (preprocess "d" ["b.csv"]
       {[ "d/a.csv" := [xff; x0a]; "d/b.csv" := [x41; x00; x0a] ]}).1.1
    !! "d/b.csv" = Some [x41; x0d; x0a].
Proof.
  split_and!; vm_compute; reflexivity.
Qed.

(** C7, as the code has it. For a file in which the sanitizing pass reads
    exactly one record, the header, [preprocess] succeeds without a single
    log entry and without running the repair; the file then holds that one
    record as the writer writes it, and reads back as the same record. *)
Theorem header_only_file DATA fin σ content headers :
  σ !! data_path DATA fin = Some content →
  reader_rows (sanitized_lines content) = ([headers], None) →
  ∃ tr new,
    preprocess_file DATA fin σ = (tr, [], None) ∧
    Utf8.encode (writerow headers) = Some new ∧
    final σ tr !! data_path DATA fin = Some new ∧
    reader_rows (sanitized_lines new) = ([headers], None).
Proof.
  intros Hσ Hrows. unfold preprocess_file.
  set (fp := data_path DATA fin) in *.
  pose proof (sanitize_spec fp σ content Hσ) as H1. cbv zeta in H1.
  destruct (sanitized_rows_writable content) as (Hfit & Hz & _).
  rewrite Hrows in H1, Hfit, Hz. cbn [fst] in *.
  destruct H1 as (new & body & Hnew & -> & _). rewrite final_snoc.
  set (σ1 := <[fp:=new]> (delete (fp +:+ "_tmp") σ)).
  assert (scan_and_fix fp σ1 = ([], [], None)) as ->.
  { unfold scan_and_fix, σ1. rewrite lookup_insert_eq.
    rewrite (text_reader_written [headers] new) by done. cbn [map scan].
    by rewrite map_size_empty. }
  exists (body ++ [σ1]), new. rewrite !app_nil_r, final_snoc.
  split_and!; [done| |apply lookup_insert_eq|by apply sanitized_lines_written].
  cbn in Hnew. by rewrite app_nil_r in Hnew.
Qed.

Lemma header_only_file_witness :
  ∃ tr new,
    preprocess_file "d" "h.csv"
      {[ "d/h.csv" := [x69; x64; x2c; x6e; x00; x0a] ]} = (tr, [], None) ∧
    Utf8.encode (writerow [txt "id"; txt "n"]) = Some new ∧
    final {[ "d/h.csv" := [x69; x64; x2c; x6e; x00; x0a] ]} tr
      !! data_path "d" "h.csv" = Some new ∧
    reader_rows (sanitized_lines new) = ([[txt "id"; txt "n"]], None).
Proof.
  apply (header_only_file "d" "h.csv"
           {[ "d/h.csv" := [x69; x64; x2c; x6e; x00; x0a] ]}
           [x69; x64; x2c; x6e; x00; x0a] [txt "id"; txt "n"]).
  - vm_compute. reflexivity.
  - vm_compute. reflexivity.
Defined.

(** C7 as stated fails: a header-only file whose single line has no line
    end comes out two bytes longer, with CR LF appended. *)
Lemma header_only_file_changes :
  reader_rows (sanitized_lines [x69; x64; x2c; x6e])
    = ([[txt "id"; txt "n"]], None) ∧
  preprocess_file "d" "h.csv" {[ "d/h.csv" := [x69; x64; x2c; x6e] ]}
    = ([ {[ "d/h.csv_tmp" := []; "d/h.csv" := [x69; x64; x2c; x6e] ]};
         {[ "d/h.csv_tmp" := [x69; x64; x2c; x6e; x0d; x0a];
            "d/h.csv" := [x69; x64; x2c; x6e] ]};
         {[ "d/h.csv" := [x69; x64; x2c; x6e; x0d; x0a] ]} ], [], None) ∧
  [x69; x64; x2c; x6e; x0d; x0a] ≠ [x69; x64; x2c; x6e].
Proof.
  split_and!.
  - vm_compute. reflexivity.
  - vm_compute. reflexivity.
  - discriminate.
Qed.

(** C8. Both rewriting passes replace the file atomically. While a pass
    runs, only its temporary file changes: the file itself, like every other
    file, keeps its old content in every state of a failed pass, and in
    every state but the last of a successful one; in that last state the
    file holds the whole new content, and only the file and the temporary
    file differ from before. *)
Theorem passes_replace_atomically fp σ content :
  σ !! fp = Some content →
  (∀ tr lg e, sanitize fp σ = (tr, lg, e) →
     replaced_atomically fp σ
       (writerows (reader_rows (sanitized_lines content)).1) tr e) ∧
  (∀ m N tr lg e, fix_bad_line fp m N σ = (tr, lg, e) →
     replaced_atomically fp σ
       (writerows (written (fix_steps fp m N 1 (text_reader content).1))) tr e).
Proof.
  intros Hσ.
  assert (∀ steps perr tr lg e,
            rewrite_pass σ fp (fp +:+ "_tmp") steps perr = (tr, lg, e) →
            replaced_atomically fp σ (writerows (written steps)) tr e)
    as Hpass.
  { intros steps perr tr lg e Hrun.
    pose proof (rewrite_pass_spec σ fp (fp +:+ "_tmp") steps perr) as H.
    rewrite Hrun in H.
    assert (∀ body : list fs,
              Forall (λ σ', ∃ x, σ' = <[fp +:+ "_tmp" := x]> σ) body →
              ∀ σ', σ' ∈ body →
              ∀ p, p ≠ fp +:+ "_tmp" → σ' !! p = σ !! p) as Hbody.
    { intros body Hall σ' Hin p Hp. rewrite Forall_forall in Hall.
      destruct (Hall _ Hin) as [x ->]. by rewrite lookup_insert_ne. }
    destruct e as [err|]; cbn.
    - destruct H as (Htr & _). by apply Hbody.
    - destruct H as (_ & _ & b & body & Hb & -> & Hall).
      eexists body, _, b. split_and!; [done|by apply Hbody|done| |].
      + apply lookup_insert_eq.
      + intros p Hp Hfp. rewrite lookup_insert_ne by done.
        by rewrite lookup_delete_ne. }
  split.
  - intros tr lg e. unfold sanitize. rewrite Hσ.
    destruct (reader_rows (sanitized_lines content)) as [rows rerr].
    intros Hrun%Hpass. by rewrite written_singletons in Hrun.
  - intros m N tr lg e. unfold fix_bad_line. rewrite Hσ.
    destruct (text_reader content) as [rows rerr]. apply Hpass.
Qed.

Lemma passes_replace_atomically_witness :
  (∀ tr lg e,
     sanitize "d/x.csv" {[ "d/x.csv" := [x61; xff; x0a] ]} = (tr, lg, e) →
     replaced_atomically "d/x.csv" {[ "d/x.csv" := [x61; xff; x0a] ]}
       (writerows (reader_rows (sanitized_lines [x61; xff; x0a])).1) tr e) ∧
  (∀ m N tr lg e,
     fix_bad_line "d/x.csv" m N {[ "d/x.csv" := [x61; xff; x0a] ]} = (tr, lg, e) →
     replaced_atomically "d/x.csv" {[ "d/x.csv" := [x61; xff; x0a] ]}
       (writerows (written (fix_steps "d/x.csv" m N 1
                              (text_reader [x61; xff; x0a]).1))) tr e).
Proof.
  apply (passes_replace_atomically "d/x.csv"
           {[ "d/x.csv" := [x61; xff; x0a] ]} [x61; xff; x0a]).
  vm_compute. reflexivity.
Defined.

(** * Further properties of the scan and the repair *)

Section scan_more.
Context (fp : string).
Implicit Types (m : gmap nat record) (rows : list record) (line : record).

(** The scan adds one key per message when it starts above every key. *)
Lemma scan_size_log len rows : ∀ idx m,
  (∀ k, is_Some (m !! k) → k < idx) →
  size (scan fp len idx rows m).1 = size m + length (scan fp len idx rows m).2.
Proof.
  induction rows as [|line rest IH]; intros idx m Hm; cbn [scan].
  { cbn. lia. }
  fold (is_malformed len line). destruct (is_malformed len line).
  - specialize (IH (S idx) (<[idx:=line]> m)).
    destruct (scan fp len (S idx) rest (<[idx:=line]> m)) as [m' lg].
    cbn [fst snd length] in *. rewrite IH.
    + rewrite map_size_insert_None; [lia|].
      destruct (m !! idx) eqn:E; [|done].
      assert (idx < idx) by (apply Hm; by rewrite E). lia.
    + intros k. destruct (decide (k = idx)) as [->|Hne]; [lia|].
      rewrite lookup_insert_ne by done. intros Hk%Hm. lia.
  - apply IH. intros k Hk%Hm. lia.
Qed.

(** Every malformed record is logged. *)
Lemma scan_log_complete len rows : ∀ idx m j line,
  idx ≤ j → rows !! (j - idx) = Some line → is_malformed len line = true →
  Malformed j fp ∈ (scan fp len idx rows m).2.
Proof.
  induction rows as [|l rest IH]; intros idx m j line Hj Hl Hm; [done|].
  cbn [scan]. fold (is_malformed len l).
  destruct (decide (j = idx)) as [->|Hne].
  - rewrite Nat.sub_diag in Hl. injection Hl as ->. rewrite Hm.
    destruct (scan fp len (S idx) rest (<[idx:=line]> m)). apply list_elem_of_here.
  - replace (j - idx) with (S (j - S idx)) in Hl by lia. cbn in Hl.
    destruct (is_malformed len l).
    + pose proof (IH (S idx) (<[idx:=l]> m) j line ltac:(lia) Hl Hm) as H.
      destruct (scan fp len (S idx) rest (<[idx:=l]> m)).
      by apply list_elem_of_further.
    + apply (IH (S idx) m j line); [lia|done..].
Qed.

End scan_more.

(** When the repair runs, the first record it writes is the header. *)
Lemma repair_keeps_header fp headers data :
  0 < size (malformed_index fp (headers :: data)) →
  ∃ out lg, repair fp (headers :: data) = Some (headers :: out, lg).
Proof.
  intros Hsz. set (m := malformed_index fp (headers :: data)) in *.
  pose proof (repair_eq fp headers data) as Hrep. cbv zeta in Hrep.
  fold m in Hrep. rewrite (proj2 (Nat.ltb_lt _ _) Hsz) in Hrep.
  destruct (map_size_ne_0_lookup_1 m) as [i [r Hr]]; [lia|].
  assert (headers ≠ []) as Hh.
  { apply malformed_index_lookup in Hr as (_ & _ & Hm%is_malformed_spec).
    intros ->. cbn in Hm. lia. }
  assert (m !! 1 = None) as H1.
  { destruct (m !! 1) as [r1|] eqn:E; [|done].
    apply malformed_index_lookup in E as (? & _). lia. }
  cbn [fix_steps written flat_map] in Hrep.
  rewrite (fix_line_copy fp m _ 1 headers H1 Hh) in Hrep.
  cbn [fst app] in Hrep. eauto.
Qed.

(** An iteration of the repair loop writes at most one record. *)
Lemma fix_steps_written_length fp m N rows : ∀ idx,
  length (written (fix_steps fp m N idx rows)) ≤ length rows.
Proof.
  induction rows as [|line l IH]; intros idx;
    cbn [fix_steps written flat_map length]; [lia|].
  rewrite length_app. specialize (IH (S idx)).
  fold (written (fix_steps fp m N (S idx) l)).
  assert (length (fix_line fp m N idx line).1 ≤ 1); [|lia].
  unfold fix_line. repeat case_match; cbn; lia.
Qed.

Section log_facts.
Context (fp : string).

(** A message of the repair loop comes from the iteration of some record. *)
Lemma logged_fix_steps m N rows idx e :
  e ∈ logged (fix_steps fp m N idx rows) →
  ∃ k line, rows !! k = Some line ∧ e ∈ (fix_line fp m N (idx + k) line).2.
Proof.
  unfold logged. rewrite list_elem_of_In, in_flat_map.
  intros (s & Hs & He). apply list_elem_of_In, list_elem_of_lookup in Hs as [k Hk].
  apply fix_steps_lookup in Hk as (line & Hline & ->).
  exists k, line. split; [done|]. by apply list_elem_of_In.
Qed.

(** What an iteration writes is in the repaired file. *)
Lemma written_fix_steps m N rows idx k line r :
  rows !! k = Some line → r ∈ (fix_line fp m N (idx + k) line).1 →
  r ∈ written (fix_steps fp m N idx rows).
Proof.
  revert idx k. induction rows as [|l rows IH]; intros idx [|k] Hk Hr; try done.
  - injection Hk as ->. rewrite Nat.add_0_r in Hr.
    cbn [fix_steps written flat_map]. apply elem_of_app. by left.
  - cbn [fix_steps written flat_map]. apply elem_of_app. right.
    apply (IH (S idx) k); [done|]. by replace (S idx + k) with (idx + S k) by lia.
Qed.

Lemma fix_line_empty_inv m N idx line l f :
  Empty l f ∈ (fix_line fp m N idx line).2 → l = idx ∧ f = fp ∧ line = [].
Proof.
  unfold fix_line.
  destruct (bool_decide (m !! idx = None) && bool_decide (line ≠ [])).
  { cbn. by intros ?%elem_of_nil. }
  destruct (length line =? 0) eqn:Hlen.
  { cbn. intros [[= -> ->]|?%elem_of_nil]%elem_of_cons; [|done].
    apply Nat.eqb_eq in Hlen. by destruct line. }
  repeat case_match; cbn; try (by intros ?%elem_of_nil).
  by intros [?|?%elem_of_nil]%elem_of_cons.
Qed.

End log_facts.

(** X1. The malformed-line dictionary holds, at its line number counted
    from 2, every data record with at least one populated field and fewer
    populated fields than the header has fields, and nothing else; line 1,
    the header, is never in it. *)
Theorem malformed_index_exact fp headers data j r :
  malformed_index fp (headers :: data) !! j = Some r ↔
  2 ≤ j ∧ data !! (j - 2) = Some r ∧ 0 < populated r < length headers.
Proof. by rewrite malformed_index_lookup, is_malformed_spec. Qed.

(** X2. The scan logs exactly one message per line it puts in the
    dictionary: as many messages as keys, each naming the file and a key,
    and every key named. *)
Theorem scan_logs_each_key_once fp headers data :
  let m := malformed_index fp (headers :: data) in
  let lg := (scan fp (length headers) 2 data ∅).2 in
  length lg = size m ∧
  ∀ e, e ∈ lg ↔ ∃ j, e = Malformed j fp ∧ is_Some (m !! j).
Proof.
  intros m lg. split.
  - pose proof (scan_size_log fp (length headers) data 2 ∅) as H.
    rewrite map_size_empty in H. unfold m, malformed_index, lg. rewrite H; [done|].
    intros k [? Hk]. by rewrite lookup_empty in Hk.
  - intros e. split.
    + intros (n & line & -> & Hn & Hl & Hm)%scan_log. exists n. split; [done|].
      exists line. by apply malformed_index_lookup.
    + intros (j & -> & r & (Hj & Hl & Hm)%malformed_index_lookup).
      by eapply scan_log_complete.
Qed.

(** X3. A line of the dictionary that cannot be merged with the next line
    (the next line is not in the dictionary, or the two raw lengths do not
    add up to the header's) is dropped: its iteration writes nothing and
    logs nothing, and the repaired file holds what the records before it
    give followed by what the records after it give. *)
Theorem unmergeable_row_dropped fp headers data i ri :
  let rows := headers :: data in
  let m := malformed_index fp rows in
  let width := length headers in
  m !! i = Some ri →
  (∀ rj, m !! (i + 1) = Some rj → length ri + length rj ≠ width) →
  ∃ pre post lg,
    rows = pre ++ ri :: post ∧ length pre + 1 = i ∧
    fix_line fp m width i ri = ([], []) ∧
    repair fp rows =
      Some (written (fix_steps fp m width 1 pre)
              ++ written (fix_steps fp m width (i + 1) post), lg).
Proof.
  intros rows m width Hi Hnext.
  destruct (malformed_index_row _ _ _ _ _ Hi) as (Hri & Hne & Hge).
  fold rows in Hri. destruct (split_at_line _ _ _ Hri) as [Hsplit Hpre].
  replace (S (i - 1)) with i in Hsplit by lia.
  set (pre := take (i - 1) rows) in *. set (post := drop i rows) in *.
  assert (fix_line fp m width i ri = ([], [])) as Hstep.
  { rewrite (fix_line_corrupt fp m width i ri ri) by done.
    destruct (m !! (i + 1)) as [rj|] eqn:Hj; [|done].
    specialize (Hnext rj eq_refl). apply Nat.eqb_neq in Hnext.
    rewrite Hnext. by case_match. }
  pose proof (repair_eq fp headers data) as Hrep. cbv zeta in Hrep.
  fold rows m width in Hrep. rewrite (size_pos_lookup _ _ _ Hi) in Hrep.
  exists pre, post,
    ((scan fp width 2 data ∅).2 ++ Fixing fp :: logged (fix_steps fp m width 1 rows)).
  split_and!; [done|lia|done|].
  rewrite Hrep. do 2 f_equal. rewrite Hsplit at 1.
  rewrite fix_steps_app, written_app. cbn [fix_steps written flat_map].
  rewrite Hpre. replace (1 + (i - 1)) with i by lia. rewrite Hstep.
  cbn [fst app]. by rewrite Nat.add_1_r.
Qed.

Lemma unmergeable_row_dropped_witness :
  ∃ pre post lg,
    [txt "a"; txt "b"; txt "c"] :: [[txt "1"]; [txt "2"; txt "3"; txt "4"]]
      = pre ++ [txt "1"] :: post ∧
    length pre + 1 = 2 ∧
    fix_line "f"
      (malformed_index "f"
         ([txt "a"; txt "b"; txt "c"] :: [[txt "1"]; [txt "2"; txt "3"; txt "4"]]))
      (length [txt "a"; txt "b"; txt "c"]) 2 [txt "1"] = ([], []) ∧
    repair "f"
      ([txt "a"; txt "b"; txt "c"] :: [[txt "1"]; [txt "2"; txt "3"; txt "4"]])
      = Some (written (fix_steps "f"
                (malformed_index "f"
                   ([txt "a"; txt "b"; txt "c"]
                      :: [[txt "1"]; [txt "2"; txt "3"; txt "4"]]))
                (length [txt "a"; txt "b"; txt "c"]) 1 pre)
              ++ written (fix_steps "f"
                (malformed_index "f"
                   ([txt "a"; txt "b"; txt "c"]
                      :: [[txt "1"]; [txt "2"; txt "3"; txt "4"]]))
                (length [txt "a"; txt "b"; txt "c"]) (2 + 1) post), lg).
Proof.
  apply (unmergeable_row_dropped "f" [txt "a"; txt "b"; txt "c"]
           [[txt "1"]; [txt "2"; txt "3"; txt "4"]] 2 [txt "1"]).
  - vm_compute. reflexivity.
  - vm_compute. intros rj [=].
Defined.

(** X4. When the repair runs, the first record it writes is the header,
    unchanged. *)
Theorem header_written_first fp headers data :
  0 < size (malformed_index fp (headers :: data)) →
  ∃ out lg, repair fp (headers :: data) = Some (headers :: out, lg).
Proof. apply repair_keeps_header. Qed.

Lemma header_written_first_witness :
  ∃ out lg,
    repair "f" ([txt "a"; txt "b"] :: [[txt "x"; []]])
      = Some ([txt "a"; txt "b"] :: out, lg).
Proof.
  apply (header_written_first "f" [txt "a"; txt "b"] [[txt "x"; []]]).
  vm_compute. lia.
Defined.

(** X5. The repair invents nothing: every record of the repaired file is a
    record of the file, or two adjacent records of the file joined, with as
    many fields as the header; and the repaired file has no more records
    than the file. *)
Theorem repair_writes_only_input fp headers data out lg :
  let rows := headers :: data in
  repair fp rows = Some (out, lg) →
  length out ≤ length rows ∧
  ∀ r, r ∈ out →
    r ∈ rows ∨
    ∃ k a b, rows !! k = Some a ∧ rows !! (k + 1) = Some b ∧
             r = a ++ b ∧ length r = length headers.
Proof.
  intros rows Hrep.
  pose proof (repair_eq fp headers data) as Heq. cbv zeta in Heq.
  fold rows in Heq. rewrite Hrep in Heq.
  set (m := malformed_index fp rows) in *.
  destruct (0 <? size m); injection Heq as -> ->; [|split; [done|by left]].
  split.
  - apply (fix_steps_written_length fp m (length headers) rows 1).
  - intros r Hr.
    change (r ∈ written (fix_steps fp m (length headers) 1 rows)) in Hr.
    unfold written in Hr.
    apply list_elem_of_In, in_flat_map in Hr as (s & Hs & Hr).
    apply list_elem_of_In, list_elem_of_lookup in Hs as [k Hk].
    apply fix_steps_lookup in Hk as (line & Hline & ->).
    apply list_elem_of_In in Hr. revert Hr. unfold fix_line.
    destruct (bool_decide (m !! (1 + k) = None) && bool_decide (line ≠ [])).
    { cbn. intros [->|?%elem_of_nil]%elem_of_cons; [|done].
      left. apply list_elem_of_lookup. eauto. }
    destruct (length line =? 0); [cbn; by intros ?%elem_of_nil|].
    destruct (m !! (1 + k)) as [this|] eqn:Ht; [|cbn; by intros ?%elem_of_nil].
    destruct (m !! (1 + k + 1)) as [next|] eqn:Hn; [|cbn; by intros ?%elem_of_nil].
    destruct (bool_decide (this ≠ []) && bool_decide (next ≠ []));
      [|cbn; by intros ?%elem_of_nil].
    destruct (length this + length next =? length headers) eqn:HN;
      [|cbn; by intros ?%elem_of_nil].
    cbn. intros [->|?%elem_of_nil]%elem_of_cons; [|done]. right.
    apply malformed_index_row in Ht as (Ht & _ & _).
    apply malformed_index_row in Hn as (Hn & _ & _).
    replace (1 + k - 1) with k in Ht by lia.
    replace (1 + k + 1 - 1) with (k + 1) in Hn by lia.
    exists k, this, next. split_and!; [done..|].
    rewrite length_app. by apply Nat.eqb_eq.
Qed.

Lemma repair_writes_only_input_witness :
  length [[txt "a"; txt "b"]; [txt "1"; txt "2"]]
    ≤ length ([txt "a"; txt "b"] :: [[txt "1"]; [txt "2"]]) ∧
  ∀ r, r ∈ [[txt "a"; txt "b"]; [txt "1"; txt "2"]] →
    r ∈ [txt "a"; txt "b"] :: [[txt "1"]; [txt "2"]] ∨
    ∃ k a b,
      ([txt "a"; txt "b"] :: [[txt "1"]; [txt "2"]]) !! k = Some a ∧
      ([txt "a"; txt "b"] :: [[txt "1"]; [txt "2"]]) !! (k + 1) = Some b ∧
      r = a ++ b ∧ length r = length [txt "a"; txt "b"].
Proof.
  apply (repair_writes_only_input "f" [txt "a"; txt "b"] [[txt "1"]; [txt "2"]]
           [[txt "a"; txt "b"]; [txt "1"; txt "2"]]
           [Malformed 2 "f"; Malformed 3 "f"; Fixing "f"; Combined 2 3 "f"]).
  vm_compute. reflexivity.
Defined.

(** X6. The messages of one file, read off the log of the scan and the
    repair. The repair is announced exactly when a line was reported
    malformed. A combination is logged only for two consecutive lines that
    were both reported malformed, and the two records joined are then in
    the repaired file. A line is logged as empty only when its record has
    no field. *)
Theorem repair_log_shape fp headers data out lg :
  repair fp (headers :: data) = Some (out, lg) →
  let rows := headers :: data in
  (Fixing fp ∈ lg ↔ ∃ j, Malformed j fp ∈ lg) ∧
  (∀ a b f, Combined a b f ∈ lg →
     f = fp ∧ b = a + 1 ∧ Malformed a fp ∈ lg ∧ Malformed b fp ∈ lg ∧
     ∃ ra rb, rows !! (a - 1) = Some ra ∧ rows !! (b - 1) = Some rb ∧
              ra ++ rb ∈ out) ∧
  (∀ l f, Empty l f ∈ lg → f = fp ∧ rows !! (l - 1) = Some []).
Proof.
  intros Hrep rows.
  pose proof (repair_eq fp headers data) as Heq. cbv zeta in Heq.
  fold rows in Heq, Hrep. rewrite Hrep in Heq.
  set (m := malformed_index fp rows) in *.
  set (slg := (scan fp (length headers) 2 data ∅).2) in *.
  assert (∀ j, is_Some (m !! j) → Malformed j fp ∈ slg) as Hkey.
  { intros j [r (Hj & Hl & Hm)%malformed_index_lookup].
    by apply (scan_log_complete fp (length headers) data 2 ∅ j r). }
  assert (∀ e, e ∈ slg → ∃ j, e = Malformed j fp ∧ is_Some (m !! j)) as Hslg.
  { intros e (n & line & -> & Hn & Hl & Hm)%scan_log. exists n. split; [done|].
    exists line. by apply malformed_index_lookup. }
  destruct (0 <? size m) eqn:Hsz; injection Heq as -> ->.
  - set (steps := fix_steps fp m (length headers) 1 rows).
    assert (∀ e, e ∈ logged steps →
              ∃ k line, rows !! k = Some line ∧
                        e ∈ (fix_line fp m (length headers) (1 + k) line).2) as Hst.
    { intros e. apply logged_fix_steps. }
    split_and!.
    + split.
      * intros _. apply Nat.ltb_lt in Hsz.
        destruct (map_size_ne_0_lookup_1 m) as [j Hj]; [lia|].
        exists j. apply elem_of_app. left. by apply Hkey.
      * intros _. apply elem_of_app. right. apply list_elem_of_here.
    + intros a b f [He|He]%elem_of_app.
      { apply Hslg in He as (? & ? & _). done. }
      apply elem_of_cons in He as [?|He]; [done|].
      destruct (Hst _ He) as (k & line & Hline & Hin).
      apply fix_line_combined in Hin
        as (this & next & Ht & Hn & -> & -> & -> & _ & Hfix).
      split_and!; [done..| | |].
      * apply elem_of_app. left. by apply Hkey.
      * apply elem_of_app. left. by apply Hkey.
      * apply malformed_index_row in Ht as (Ht' & _ & _).
        apply malformed_index_row in Hn as (Hn' & _ & _).
        exists this, next. split_and!; [done..|].
        apply (written_fix_steps fp m (length headers) rows 1 k line); [done|].
        rewrite Hfix. apply list_elem_of_here.
    + intros l f [He|He]%elem_of_app.
      { apply Hslg in He as (? & ? & _). done. }
      apply elem_of_cons in He as [?|He]; [done|].
      destruct (Hst _ He) as (k & line & Hline & Hin).
      apply fix_line_empty_inv in Hin as (-> & -> & ->).
      split; [done|]. by replace (1 + k - 1) with k by lia.
  - assert (∀ j, m !! j = None) as Hnone.
    { intros j. destruct (m !! j) eqn:E; [|done].
      by rewrite (size_pos_lookup _ _ _ E) in Hsz. }
    split_and!.
    + split.
      * intros (? & ? & _)%Hslg. done.
      * intros [j (? & [= <-] & [r Hr])%Hslg]. by rewrite Hnone in Hr.
    + intros a b f (? & ? & _)%Hslg. done.
    + intros l f (? & ? & _)%Hslg. done.
Qed.

Lemma repair_log_shape_witness :
  (Fixing "f" ∈ [Malformed 2 "f"; Malformed 3 "f"; Fixing "f"; Combined 2 3 "f"]
   ↔ ∃ j, Malformed j "f"
          ∈ [Malformed 2 "f"; Malformed 3 "f"; Fixing "f"; Combined 2 3 "f"]) ∧
  (∀ a b f,
     Combined a b f
       ∈ [Malformed 2 "f"; Malformed 3 "f"; Fixing "f"; Combined 2 3 "f"] →
     f = "f" ∧ b = a + 1 ∧
     Malformed a "f"
       ∈ [Malformed 2 "f"; Malformed 3 "f"; Fixing "f"; Combined 2 3 "f"] ∧
     Malformed b "f"
       ∈ [Malformed 2 "f"; Malformed 3 "f"; Fixing "f"; Combined 2 3 "f"] ∧
     ∃ ra rb,
       ([txt "a"; txt "b"] :: [[txt "1"]; [txt "2"]]) !! (a - 1) = Some ra ∧
       ([txt "a"; txt "b"] :: [[txt "1"]; [txt "2"]]) !! (b - 1) = Some rb ∧
       ra ++ rb ∈ [[txt "a"; txt "b"]; [txt "1"; txt "2"]]) ∧
  (∀ l f,
     Empty l f ∈ [Malformed 2 "f"; Malformed 3 "f"; Fixing "f"; Combined 2 3 "f"] →
     f = "f" ∧ ([txt "a"; txt "b"] :: [[txt "1"]; [txt "2"]]) !! (l - 1) = Some []).
Proof.
  apply (repair_log_shape "f" [txt "a"; txt "b"] [[txt "1"]; [txt "2"]]
           [[txt "a"; txt "b"]; [txt "1"; txt "2"]]
           [Malformed 2 "f"; Malformed 3 "f"; Fixing "f"; Combined 2 3 "f"]).
  vm_compute. reflexivity.
Defined.

(** * Further properties of [preprocess] on the store *)

Section outcome_facts.
Implicit Types (σ : fs) (tr : list fs) (fp : string).

Lemma lines_from_nil {A} (nl : A → bool) l : ∀ cur,
  lines_from nl cur l = [] → cur = [] ∧ l = [].
Proof.
  induction l as [|x l IH]; intros cur; cbn.
  - by destruct cur.
  - destruct (nl x); [done|]. intros [H _]%IH. by destruct cur.
Qed.

(** After the end-of-line marker the parser is between two records or
    inside a quoted field. *)
Lemma feed_line_state r line r' :
  feed_line r line = Some r' → st r' = START_RECORD ∨ st r' = IN_QUOTED_FIELD.
Proof.
  unfold feed_line. destruct (feed r line) as [r0|]; [|done].
  unfold parse_process_char. destruct r0 as [[] fs f]; cbn; intros [= <-]; cbn; auto.
Qed.

(** A reader that has consumed a line yields a record or raises. *)
Lemma read_rows_quoted lines : ∀ r rows,
  st r = IN_QUOTED_FIELD → read_rows r lines = (rows, None) → rows ≠ [].
Proof.
  induction lines as [|[line|] lines IH]; intros r rows Hst; cbn [read_rows].
  - rewrite Hst. rewrite bool_decide_eq_true_2 by done. rewrite orb_true_r.
    by intros [= <-].
  - destruct (feed_line r line) as [r'|] eqn:Hf; [|done].
    destruct (feed_line_state _ _ _ Hf) as [H|H].
    + rewrite bool_decide_eq_true_2 by done.
      destruct (read_rows parse_reset lines). by intros [= <- _].
    + rewrite bool_decide_eq_false_2 by (rewrite H; done). by apply IH.
  - done.
Qed.

Lemma read_rows_nonempty r l lines rows :
  read_rows r (l :: lines) = (rows, None) → rows ≠ [].
Proof.
  destruct l as [line|]; cbn [read_rows]; [|done].
  destruct (feed_line r line) as [r'|] eqn:Hf; [|done].
  destruct (feed_line_state _ _ _ Hf) as [H|H].
  - rewrite bool_decide_eq_true_2 by done.
    destruct (read_rows parse_reset lines). by intros [= <- _].
  - rewrite bool_decide_eq_false_2 by (rewrite H; done). by apply read_rows_quoted.
Qed.

(** The reader raises nothing but the decoding error of its input and
    [csv.Error]. *)
Lemma read_rows_error lines : ∀ r e,
  (read_rows r lines).2 = Some e → e = UnicodeDecodeError ∨ e = CsvError.
Proof.
  induction lines as [|[line|] lines IH]; intros r e; cbn [read_rows].
  - by case_match.
  - destruct (feed_line r line) as [r'|]; [|cbn; intros [= <-]; auto].
    case_match; [|apply IH].
    specialize (IH parse_reset e).
    by destruct (read_rows parse_reset lines).
  - cbn. intros [= <-]. auto.
Qed.

(** A non-empty file has a line, so its sanitizing reader yields a record
    or raises. *)
Lemma sanitized_rows_nonempty content rows :
  content ≠ [] → reader_rows (sanitized_lines content) = (rows, None) → rows ≠ [].
Proof.
  intros Hc. unfold reader_rows, sanitized_lines.
  destruct (binary_lines content) as [|l ls] eqn:Hl.
  { apply lines_from_nil in Hl as [_ ?]. done. }
  cbn [map]. apply read_rows_nonempty.
Qed.

Lemma final_Forall (P : fs → Prop) σ tr : P σ → Forall P tr → P (final σ tr).
Proof.
  unfold final. revert σ. induction tr as [|x tr IH]; intros σ Hσ Htr; [done|].
  apply Forall_cons in Htr as [Hx Htr]. rewrite last_cons_default. by apply IH.
Qed.

Lemma final_nonempty (P : fs → Prop) σ tr : tr ≠ [] → Forall P tr → P (final σ tr).
Proof.
  destruct tr as [|x tr]; [done|]. intros _ [Hx Htr]%Forall_cons.
  unfold final. rewrite last_cons_default. by apply (final_Forall P x tr).
Qed.

Lemma rewrite_pass_nonempty σ fp tmp steps perr :
  (rewrite_pass σ fp tmp steps perr).1.1 ≠ [].
Proof.
  unfold rewrite_pass.
  destruct (write_steps (<[tmp:=[]]> σ) tmp [] steps) as [[tr lg] werr].
  by destruct werr, perr.
Qed.

(** Where a pass leaves the store: after a failure the temporary file is
    there and nothing else has changed; after a success the temporary file
    is gone and the file has its new content. *)
Lemma rewrite_pass_final σ fp tmp steps perr :
  match rewrite_pass σ fp tmp steps perr with
  | (tr, _, None) => ∃ b, final σ tr = <[fp := b]> (delete tmp σ)
  | (tr, _, Some _) => ∃ x, final σ tr = <[tmp := x]> σ
  end.
Proof.
  pose proof (rewrite_pass_spec σ fp tmp steps perr) as H.
  pose proof (rewrite_pass_nonempty σ fp tmp steps perr) as Hne.
  destruct (rewrite_pass σ fp tmp steps perr) as [[tr lg] [err|]]; cbn in Hne.
  - destruct H as (Htr & _).
    by apply (final_nonempty (λ σ', ∃ x, σ' = <[tmp:=x]> σ)).
  - destruct H as (_ & _ & b & body & _ & -> & _). exists b. apply final_snoc.
Qed.

(** A pass touches nothing but the file and its temporary file. *)
Lemma rewrite_pass_frame σ fp tmp steps perr :
  Forall (λ σ', ∀ p, p ≠ fp → p ≠ tmp → σ' !! p = σ !! p)
    (rewrite_pass σ fp tmp steps perr).1.1.
Proof.
  pose proof (rewrite_pass_spec σ fp tmp steps perr) as H.
  assert (∀ body : list fs,
            Forall (λ σ', ∃ x, σ' = <[tmp := x]> σ) body →
            Forall (λ σ', ∀ p, p ≠ fp → p ≠ tmp → σ' !! p = σ !! p) body) as Hb.
  { intros body Hall. eapply Forall_impl; [exact Hall|].
    intros σ' [x ->] p _ Hp. by rewrite lookup_insert_ne. }
  destruct (rewrite_pass σ fp tmp steps perr) as [[tr lg] [err|]]; cbn.
  - destruct H as (Htr & _). by apply Hb.
  - destruct H as (_ & _ & b & body & _ & -> & Hall).
    apply Forall_app. split; [by apply Hb|]. apply Forall_singleton.
    intros p Hp Hq. rewrite lookup_insert_ne by done. by rewrite lookup_delete_ne.
Qed.

Lemma sanitize_frame fp σ :
  Forall (λ σ', ∀ p, p ≠ fp → p ≠ fp +:+ "_tmp" → σ' !! p = σ !! p)
    (sanitize fp σ).1.1.
Proof.
  unfold sanitize. destruct (σ !! fp) as [content|]; [|constructor].
  destruct (reader_rows (sanitized_lines content)) as [rows rerr].
  apply rewrite_pass_frame.
Qed.

Lemma fix_bad_line_frame fp m N σ :
  Forall (λ σ', ∀ p, p ≠ fp → p ≠ fp +:+ "_tmp" → σ' !! p = σ !! p)
    (fix_bad_line fp m N σ).1.1.
Proof.
  unfold fix_bad_line. destruct (σ !! fp) as [content|]; [|constructor].
  destruct (text_reader content) as [rows rerr]. apply rewrite_pass_frame.
Qed.

Lemma scan_and_fix_frame fp σ :
  Forall (λ σ', ∀ p, p ≠ fp → p ≠ fp +:+ "_tmp" → σ' !! p = σ !! p)
    (scan_and_fix fp σ).1.1.
Proof.
  unfold scan_and_fix. destruct (σ !! fp) as [content|]; [|constructor].
  destruct (text_reader content) as [[|headers data] rerr]; [constructor|].
  destruct (scan fp (length headers) 2 data ∅) as [m lg].
  destruct rerr; [constructor|]. destruct (0 <? size m); [|constructor].
  pose proof (fix_bad_line_frame fp m (length headers) σ) as H.
  by destruct (fix_bad_line fp m (length headers) σ) as [[tr lg'] e].
Qed.

Lemma preprocess_file_frame DATA fin σ :
  Forall (λ σ', ∀ p, p ≠ data_path DATA fin →
                     p ≠ data_path DATA fin +:+ "_tmp" → σ' !! p = σ !! p)
    (preprocess_file DATA fin σ).1.1.
Proof.
  unfold preprocess_file. set (fp := data_path DATA fin).
  pose proof (sanitize_frame fp σ) as H1.
  destruct (sanitize fp σ) as [[tr1 lg1] [err|]]; [done|]. cbn in H1.
  pose proof (scan_and_fix_frame fp (final σ tr1)) as H2.
  destruct (scan_and_fix fp (final σ tr1)) as [[tr2 lg2] e2]. cbn in H2 |- *.
  apply Forall_app. split; [done|].
  eapply Forall_impl; [exact H2|]. intros σ' Hσ' p Hp Hq. rewrite Hσ' by done.
  by apply (final_Forall (λ σ', σ' !! p = σ !! p));
    [|eapply Forall_impl; [exact H1|]; intros ? Hx; apply Hx].
Qed.

Lemma preprocess_frame_all DATA files : ∀ σ,
  Forall (λ σ', ∀ p,
            (∀ f, f ∈ files →
               p ≠ data_path DATA f ∧ p ≠ data_path DATA f +:+ "_tmp") →
            σ' !! p = σ !! p)
    (preprocess DATA files σ).1.1.
Proof.
  induction files as [|fin rest IH]; intros σ; [constructor|].
  cbn [preprocess].
  pose proof (preprocess_file_frame DATA fin σ) as H1.
  destruct (preprocess_file DATA fin σ) as [[tr lg] [err|]]; cbn in H1 |- *.
  { eapply Forall_impl; [exact H1|]. intros σ' Hσ' p Hp.
    destruct (Hp fin) as [? ?]; [apply list_elem_of_here|]. by apply Hσ'. }
  specialize (IH (final σ tr)).
  destruct (preprocess DATA rest (final σ tr)) as [[tr' lg'] e']. cbn in IH |- *.
  apply Forall_app. split.
  { eapply Forall_impl; [exact H1|]. intros σ' Hσ' p Hp.
    destruct (Hp fin) as [? ?]; [apply list_elem_of_here|]. by apply Hσ'. }
  eapply Forall_impl; [exact IH|]. intros σ' Hσ' p Hp. cbn beta in Hσ'.
  rewrite Hσ' by (intros f Hf; apply Hp; by apply list_elem_of_further).
  destruct (Hp fin) as [? ?]; [apply list_elem_of_here|].
  apply (final_Forall (λ σ', σ' !! p = σ !! p)); [done|].
  eapply Forall_impl; [exact H1|]. intros ? Hx. by apply Hx.
Qed.

End outcome_facts.

Section outcome_more.
Implicit Types (σ : fs) (tr : list fs) (fp : string).

Lemma scan_and_fix_final fp σ :
  match scan_and_fix fp σ with
  | (tr, _, None) =>
    final σ tr = σ ∨ ∃ b, final σ tr = <[fp := b]> (delete (fp +:+ "_tmp") σ)
  | _ => True
  end.
Proof.
  unfold scan_and_fix. destruct (σ !! fp) as [content|] eqn:Hσ; [|done].
  destruct (text_reader content) as [[|headers data] rerr] eqn:Hr; [done|].
  destruct (scan fp (length headers) 2 data ∅) as [m lg].
  destruct rerr; [done|]. destruct (0 <? size m); [|by left].
  unfold fix_bad_line. rewrite Hσ, Hr.
  pose proof (rewrite_pass_final σ fp (fp +:+ "_tmp")
                (fix_steps fp m (length headers) 1 (headers :: data)) None) as H.
  destruct (rewrite_pass σ fp (fp +:+ "_tmp")
              (fix_steps fp m (length headers) 1 (headers :: data)) None)
    as [[tr lg'] [err|]]; [done|]. by right.
Qed.

(** One iteration of [preprocess] on a file the sanitizing pass gets through
    and finds a record in: where it leaves the store. *)
Lemma preprocess_file_succeeds DATA fin σ content rows :
  σ !! data_path DATA fin = Some content →
  reader_rows (sanitized_lines content) = (rows, None) → rows ≠ [] →
  let fp := data_path DATA fin in
  let rows' := map (map universal_newlines) rows in
  ∃ out lg tr new,
    repair fp rows' = Some (out, lg) ∧
    preprocess_file DATA fin σ = (tr, lg, None) ∧
    final σ tr = <[fp := new]> (delete (fp +:+ "_tmp") σ) ∧
    Utf8.encode (writerows (if 0 <? size (malformed_index fp rows')
                            then out else rows)) = Some new.
Proof.
  intros Hσ Hrows Hne fp rows'.
  destruct (preprocess_file_repairs DATA fin σ content rows Hσ Hrows Hne)
    as (out & lg & tr & new & Hrep & Hrun & Hfin & Hnew).
  fold fp rows' in Hrep, Hfin, Hnew. exists out, lg, tr, new.
  split_and!; [done..| |done].
  unfold preprocess_file in Hrun. fold fp in Hrun, Hσ.
  pose proof (sanitize_spec fp σ content Hσ) as H1. cbv zeta in H1.
  rewrite Hrows in H1. destruct H1 as (new1 & body & _ & H1 & _).
  rewrite H1, final_snoc in Hrun.
  set (tmp := fp +:+ "_tmp") in *.
  set (σ1 := <[fp:=new1]> (delete tmp σ)) in *.
  pose proof (scan_and_fix_final fp σ1) as H2. fold tmp in H2.
  destruct (scan_and_fix fp σ1) as [[tr2 lg2] e2].
  injection Hrun as <- <- ->.
  assert (final σ ((body ++ [σ1]) ++ tr2) = final σ1 tr2) as Hf.
  { by rewrite final_app, final_snoc. }
  rewrite Hf in Hfin |- *.
  assert (∃ b, final σ1 tr2 = <[fp:=b]> (delete tmp σ)) as [b Hb].
  { destruct H2 as [-> | [b ->]]; [by eexists|]. exists b. unfold σ1.
    rewrite delete_insert_ne by apply tmp_ne.
    by rewrite delete_delete_eq, insert_insert_eq. }
  rewrite Hb in Hfin |- *. rewrite lookup_insert_eq in Hfin. congruence.
Qed.

(** The sanitizing pass on an existing file always writes to the temporary
    file. *)
Lemma sanitize_fails fp σ content rows err :
  σ !! fp = Some content →
  reader_rows (sanitized_lines content) = (rows, Some err) →
  ∃ tr x, sanitize fp σ = (tr, [], Some err) ∧
          final σ tr = <[fp +:+ "_tmp" := x]> σ.
Proof.
  intros Hσ Hrows.
  pose proof (sanitize_spec fp σ content Hσ) as H1. cbv zeta in H1.
  rewrite Hrows in H1. destruct H1 as (tr & H1 & _). exists tr.
  unfold sanitize in H1 |- *. rewrite Hσ, Hrows in H1 |- *.
  pose proof (rewrite_pass_final σ fp (fp +:+ "_tmp")
                (map (λ r, ([r], [])) rows) (Some err)) as H.
  rewrite H1 in H |- *. destruct H as [x Hx]. by exists x.
Qed.

(** An empty file: the sanitizing pass writes it back empty, and the scan
    finds no header. *)
Lemma preprocess_file_empty DATA fin σ :
  σ !! data_path DATA fin = Some [] →
  let fp := data_path DATA fin in
  ∃ tr, preprocess_file DATA fin σ = (tr, [], Some StopIteration) ∧
        final σ tr = <[fp := []]> (delete (fp +:+ "_tmp") σ).
Proof.
  intros Hσ fp. fold fp in Hσ.
  pose proof (sanitize_spec fp σ [] Hσ) as H1. cbv zeta in H1.
  change (reader_rows (sanitized_lines [])) with ([] : list record, None : option error) in H1.
  destruct H1 as (new & body & Hnew & H1 & _). cbn in Hnew. injection Hnew as <-.
  unfold preprocess_file. fold fp. rewrite H1, final_snoc.
  unfold scan_and_fix. rewrite lookup_insert_eq.
  change (text_reader []) with ([] : list record, None : option error).
  cbn [default]. eexists. split; [done|]. by rewrite app_nil_r, final_snoc.
Qed.

End outcome_more.

(** X7. [preprocess] on plain file names touches nothing but the files it
    is given and their temporary files: in every state of a run, whether it
    ends well or not, every other path holds what it held at the start. *)
Theorem preprocess_touches_only_its_files DATA files σ k σ' p :
  forallb plain_name files = true →
  (preprocess DATA files σ).1.1 !! k = Some σ' →
  Forall (λ f, p ≠ data_path DATA f ∧ p ≠ data_path DATA f +:+ "_tmp") files →
  σ' !! p = σ !! p.
Proof.
  intros _ Hk Hp. pose proof (preprocess_frame_all DATA files σ) as H.
  rewrite Forall_forall in H. apply (H σ'); [by eapply list_elem_of_lookup_2|].
  intros f Hf. rewrite Forall_forall in Hp. by apply Hp.
Qed.

Lemma preprocess_touches_only_its_files_witness :
  ({[ "d/a.csv_tmp" := [x61; x0d; x0a]; "d/a.csv" := [x61; x0a];
      "d/b.csv" := [x62; x00] ]} : fs) !! "d/b.csv"
  = ({[ "d/a.csv" := [x61; x0a]; "d/b.csv" := [x62; x00] ]} : fs) !! "d/b.csv".
Proof.
  apply (preprocess_touches_only_its_files "d" ["a.csv"]
           {[ "d/a.csv" := [x61; x0a]; "d/b.csv" := [x62; x00] ]} 1).
  - vm_compute. reflexivity.
  - vm_compute. reflexivity.
  - apply List.Forall_cons; [|apply List.Forall_nil]. split; discriminate.
Defined.

(** X8. What an iteration of [preprocess] on an existing file ends with is
    decided by the sanitizing pass alone. An empty file ends in
    [StopIteration] (no header to read). A file with bytes ends as its
    sanitizing reader does: without exception, or with the decoding error or
    the [csv.Error] that reader raised; the scan and the repair never fail
    on a file the sanitizing pass has written. *)
Theorem preprocess_file_outcome DATA fin σ content :
  σ !! data_path DATA fin = Some content →
  let e := (preprocess_file DATA fin σ).2 in
  (content = [] → e = Some StopIteration) ∧
  (content ≠ [] →
     e = (reader_rows (sanitized_lines content)).2 ∧
     (e = None ∨ e = Some UnicodeDecodeError ∨ e = Some CsvError)).
Proof.
  intros Hσ e. split.
  - intros ->. destruct (preprocess_file_empty DATA fin σ Hσ) as (tr & H & _).
    unfold e. by rewrite H.
  - intros Hc.
    assert (e = (reader_rows (sanitized_lines content)).2) as He.
    { destruct (reader_rows (sanitized_lines content)) as [rows [err|]] eqn:Hrows.
      - destruct (sanitize_fails _ _ _ _ _ Hσ Hrows) as (tr & x & H & _).
        unfold e, preprocess_file. by rewrite H.
      - pose proof (sanitized_rows_nonempty content rows Hc Hrows) as Hne.
        destruct (preprocess_file_succeeds DATA fin σ content rows Hσ Hrows Hne)
          as (out & lg & tr & new & _ & H & _).
        unfold e. by rewrite H. }
    split; [done|]. rewrite He.
    destruct ((reader_rows (sanitized_lines content)).2) as [err|] eqn:E; [|by left].
    right. apply read_rows_error in E as [-> | ->]; auto.
Qed.

Lemma preprocess_file_outcome_witness :
  ([x61; xff; x0a] = [] →
     (preprocess_file "d" "x.csv" {[ "d/x.csv" := [x61; xff; x0a] ]}).2
       = Some StopIteration) ∧
  ([x61; xff; x0a] ≠ [] →
     (preprocess_file "d" "x.csv" {[ "d/x.csv" := [x61; xff; x0a] ]}).2
       = (reader_rows (sanitized_lines [x61; xff; x0a])).2 ∧
     ((preprocess_file "d" "x.csv" {[ "d/x.csv" := [x61; xff; x0a] ]}).2 = None ∨
      (preprocess_file "d" "x.csv" {[ "d/x.csv" := [x61; xff; x0a] ]}).2
        = Some UnicodeDecodeError ∨
      (preprocess_file "d" "x.csv" {[ "d/x.csv" := [x61; xff; x0a] ]}).2
        = Some CsvError)).
Proof.
  apply (preprocess_file_outcome "d" "x.csv"
           {[ "d/x.csv" := [x61; xff; x0a] ]} [x61; xff; x0a]).
  vm_compute. reflexivity.
Defined.

(** X9. The temporary file after an iteration of [preprocess] on an
    existing file. When the iteration ends without exception or with
    [StopIteration], no temporary file is left, also when one was there
    before. When it ends with a decoding error or a [csv.Error], the
    temporary file is left behind and the file still holds its old
    content. *)
Theorem temporary_file_fate DATA fin σ content tr lg e :
  σ !! data_path DATA fin = Some content →
  preprocess_file DATA fin σ = (tr, lg, e) →
  let fp := data_path DATA fin in
  (e = None ∨ e = Some StopIteration → final σ tr !! (fp +:+ "_tmp") = None) ∧
  (e = Some UnicodeDecodeError ∨ e = Some CsvError →
     is_Some (final σ tr !! (fp +:+ "_tmp")) ∧ final σ tr !! fp = Some content).
Proof.
  intros Hσ Hrun fp. fold fp in Hσ.
  assert (∀ new, (<[fp:=new]> (delete (fp +:+ "_tmp") σ) : fs)
                   !! (fp +:+ "_tmp") = None) as Hgone.
  { intros new. pose proof (tmp_ne fp) as Hne.
    rewrite lookup_insert_ne by done. apply lookup_delete_eq. }
  destruct content as [|b0 content].
  { destruct (preprocess_file_empty DATA fin σ Hσ) as (tr' & H & Hfin).
    fold fp in Hfin. rewrite H in Hrun. injection Hrun as <- <- <-.
    rewrite Hfin. split; [done|]. by intros [|]. }
  destruct (reader_rows (sanitized_lines (b0 :: content))) as [rows [err|]] eqn:Hrows.
  - destruct (sanitize_fails _ _ _ _ _ Hσ Hrows) as (tr' & x & H & Hfin).
    unfold preprocess_file in Hrun. fold fp in Hrun. rewrite H in Hrun.
    injection Hrun as <- <- <-. rewrite Hfin.
    assert (err = UnicodeDecodeError ∨ err = CsvError) as Herr.
    { apply (read_rows_error (sanitized_lines (b0 :: content)) parse_reset).
      unfold reader_rows in Hrows. by rewrite Hrows. }
    split; [by destruct Herr as [-> | ->]; intros [|]|]. intros _.
    rewrite lookup_insert_eq. split; [done|].
    by rewrite lookup_insert_ne by apply tmp_ne.
  - assert (rows ≠ []) as Hne
    by (apply (sanitized_rows_nonempty (b0 :: content) rows); done).
    destruct (preprocess_file_succeeds DATA fin σ _ rows Hσ Hrows Hne)
      as (out & lg' & tr' & new & _ & H & Hfin & _).
    fold fp in Hfin. rewrite H in Hrun. injection Hrun as <- <- <-.
    rewrite Hfin. split; [done|]. by intros [|].
Qed.

Lemma temporary_file_fate_witness :
  ((Some UnicodeDecodeError = None ∨ Some UnicodeDecodeError = Some StopIteration) →
     final {[ "d/x.csv" := [x61; xff; x0a] ]}
       [ {[ "d/x.csv_tmp" := []; "d/x.csv" := [x61; xff; x0a] ]} ]
       !! (data_path "d" "x.csv" +:+ "_tmp") = None) ∧
  ((Some UnicodeDecodeError = Some UnicodeDecodeError
    ∨ Some UnicodeDecodeError = Some CsvError) →
     is_Some (final {[ "d/x.csv" := [x61; xff; x0a] ]}
                [ {[ "d/x.csv_tmp" := []; "d/x.csv" := [x61; xff; x0a] ]} ]
                !! (data_path "d" "x.csv" +:+ "_tmp")) ∧
     final {[ "d/x.csv" := [x61; xff; x0a] ]}
       [ {[ "d/x.csv_tmp" := []; "d/x.csv" := [x61; xff; x0a] ]} ]
       !! data_path "d" "x.csv" = Some [x61; xff; x0a]).
Proof.
  apply (temporary_file_fate "d" "x.csv" {[ "d/x.csv" := [x61; xff; x0a] ]}
           [x61; xff; x0a] _ [] (Some UnicodeDecodeError)).
  - vm_compute. reflexivity.
  - vm_compute. reflexivity.
Defined.

(** X10. An iteration of [preprocess] that logs nothing (it found no
    malformed line) has brought the file to a fixed point: a second
    iteration on the store it leaves succeeds, logs nothing and leaves the
    same store. *)
Theorem clean_file_is_fixed_point DATA fin σ tr :
  preprocess_file DATA fin σ = (tr, [], None) →
  ∃ tr', preprocess_file DATA fin (final σ tr) = (tr', [], None) ∧
         final (final σ tr) tr' = final σ tr.
Proof.
  intros Hrun. set (fp := data_path DATA fin).
  destruct (σ !! fp) as [content|] eqn:Hσ.
  2:{ unfold preprocess_file, sanitize in Hrun. fold fp in Hrun.
      by rewrite Hσ in Hrun. }
  destruct content as [|b0 content].
  { destruct (preprocess_file_empty DATA fin σ Hσ) as (? & H & _). congruence. }
  destruct (reader_rows (sanitized_lines (b0 :: content))) as [rows [err|]] eqn:Hrows.
  { destruct (sanitize_fails _ _ _ _ _ Hσ Hrows) as (tr' & x & H & _).
    unfold preprocess_file in Hrun. fold fp in Hrun. by rewrite H in Hrun. }
  assert (rows ≠ []) as Hne
    by (apply (sanitized_rows_nonempty (b0 :: content) rows); done).
  destruct (sanitized_rows_writable (b0 :: content)) as (Hfit & Hz & _).
  rewrite Hrows in Hfit, Hz. cbn [fst] in Hfit, Hz.
  destruct (preprocess_file_succeeds DATA fin σ _ rows Hσ Hrows Hne)
    as (out & lg & tr0 & new & Hrep & H & Hfin & Hnew).
  fold fp in Hrep, Hfin, Hnew. rewrite H in Hrun. injection Hrun as -> ->.
  set (rows' := map (map universal_newlines) rows) in *.
  assert ((0 <? size (malformed_index fp rows')) = false) as Hsz.
  { destruct rows' as [|headers data] eqn:E; [done|].
    pose proof (repair_eq fp headers data) as Heq. cbv zeta in Heq.
    rewrite Hrep in Heq. destruct (0 <? size _); [|done].
    injection Heq as _ Hlg. by destruct (scan fp (length headers) 2 data ∅).2. }
  rewrite Hsz in Hnew. rewrite Hfin.
  set (tmp := fp +:+ "_tmp") in *.
  set (σ1 := <[fp:=new]> (delete tmp σ)).
  assert (σ1 !! fp = Some new) as Hσ1 by apply lookup_insert_eq.
  pose proof (sanitized_lines_written rows new Hnew Hz Hfit) as Hrows1.
  destruct (preprocess_file_succeeds DATA fin σ1 new rows Hσ1 Hrows1 Hne)
    as (out1 & lg1 & tr1 & new1 & Hrep1 & H1 & Hfin1 & Hnew1).
  fold fp rows' tmp in Hrep1, Hfin1, Hnew1. rewrite Hsz in Hnew1.
  assert (lg1 = []) as -> by congruence. assert (new1 = new) as -> by congruence.
  exists tr1. split; [done|]. rewrite Hfin1. unfold σ1.
  rewrite delete_insert_ne by apply tmp_ne.
  by rewrite delete_delete_eq, insert_insert_eq.
Qed.

Lemma clean_file_is_fixed_point_witness :
  ∃ tr',
    preprocess_file "d" "x.csv"
      (final {[ "d/x.csv" := [x61; x00; x2c; x62; x0a] ]}
         [ {[ "d/x.csv_tmp" := [];
              "d/x.csv" := [x61; x00; x2c; x62; x0a] ]};
           {[ "d/x.csv_tmp" := [x61; x2c; x62; x0d; x0a];
              "d/x.csv" := [x61; x00; x2c; x62; x0a] ]};
           {[ "d/x.csv" := [x61; x2c; x62; x0d; x0a] ]} ])
      = (tr', [], None) ∧
    final (final {[ "d/x.csv" := [x61; x00; x2c; x62; x0a] ]}
         [ {[ "d/x.csv_tmp" := [];
              "d/x.csv" := [x61; x00; x2c; x62; x0a] ]};
           {[ "d/x.csv_tmp" := [x61; x2c; x62; x0d; x0a];
              "d/x.csv" := [x61; x00; x2c; x62; x0a] ]};
           {[ "d/x.csv" := [x61; x2c; x62; x0d; x0a] ]} ]) tr'
    = final {[ "d/x.csv" := [x61; x00; x2c; x62; x0a] ]}
         [ {[ "d/x.csv_tmp" := [];
              "d/x.csv" := [x61; x00; x2c; x62; x0a] ]};
           {[ "d/x.csv_tmp" := [x61; x2c; x62; x0d; x0a];
              "d/x.csv" := [x61; x00; x2c; x62; x0a] ]};
           {[ "d/x.csv" := [x61; x2c; x62; x0d; x0a] ]} ].
Proof.
  apply (clean_file_is_fixed_point "d" "x.csv"
           {[ "d/x.csv" := [x61; x00; x2c; x62; x0a] ]}).
  vm_compute. reflexivity.
Defined.

(** * File names, the upload and [etl] *)

Section names.

Lemma string_app_assoc (a b c : string) : (a +:+ b) +:+ c = a +:+ b +:+ c.
Proof.
  induction a as [|x a IH]; [done|].
  change (String x ((a +:+ b) +:+ c) = String x (a +:+ b +:+ c)). by rewrite IH.
Qed.

(** Two ways of cutting one string at the same distance from its end. *)
Lemma string_app_suffix (a b s1 s2 : string) :
  a +:+ s1 = b +:+ s2 → String.length s1 = String.length s2 → s1 = s2.
Proof.
  revert b. induction a as [|x a IH]; intros [|y b] H Hlen.
  - done.
  - apply (f_equal String.length) in H. rewrite !string_length_app in H.
    cbn [String.length] in H. lia.
  - apply (f_equal String.length) in H. rewrite !string_length_app in H.
    cbn [String.length] in H. lia.
  - change (String x (a +:+ s1) = String y (b +:+ s2)) in H.
    injection H as _ H. by apply (IH b).
Qed.

Lemma endswith_self (s : string) : endswith s s = true.
Proof. destruct s; cbn [endswith]; by rewrite String.eqb_refl. Qed.

Lemma endswith_spec (s suffix : string) :
  endswith s suffix = true ↔ ∃ x, s = x +:+ suffix.
Proof.
  split.
  - induction s as [|c s IH]; cbn [endswith].
    + rewrite orb_false_r. intros ->%String.eqb_eq. by exists EmptyString.
    + intros [->%String.eqb_eq | H]%orb_true_iff; [by exists EmptyString|].
      destruct (IH H) as [x ->]. by exists (String c x).
  - intros [x ->]. induction x as [|c x IH]; [apply endswith_self|].
    change (endswith (String c x +:+ suffix) suffix)
      with (String.eqb (String c x +:+ suffix) suffix
            || endswith (x +:+ suffix) suffix).
    rewrite IH. apply orb_true_r.
Qed.

(** The loop keeps the names of the last directory only. *)
Lemma walk_loop_last fns dirs d ds fn :
  walk_loop fns (dirs ++ [(d, ds, fn)]) = List.filter (λ f, endswith f ".csv") fn.
Proof.
  revert fns. induction dirs as [|[[? ?] ?] dirs IH]; intros fns; [done|].
  cbn. apply IH.
Qed.

Lemma listed_endswith walk f :
  f ∈ get_data_file_names walk → endswith f ".csv" = true.
Proof.
  destruct walk as [|t walk _] using rev_ind.
  { by intros ?%elem_of_nil. }
  destruct t as [[d ds] fn]. unfold get_data_file_names.
  rewrite walk_loop_last, list_elem_of_In, filter_In. by intros [_ ?].
Qed.

(** A path that ends in [_tmp] is not the path of a [.csv] file. *)
Lemma tmp_ne_csv DATA (p f : string) :
  endswith f ".csv" = true → p +:+ "_tmp" ≠ data_path DATA f.
Proof.
  intros [x ->]%endswith_spec. unfold data_path.
  rewrite <- (string_app_assoc "/" x ".csv"), <- string_app_assoc.
  intros H%string_app_suffix; done.
Qed.

Lemma before_underscore_split (s : string) :
  s = before_underscore s ∨ ∃ rest, s = before_underscore s +:+ "_" +:+ rest.
Proof.
  induction s as [|c s IH]; [by left|]. cbn [before_underscore].
  destruct (Ascii.eqb_spec c "_") as [->|Hc]; [right; by exists s|].
  destruct IH as [IH | [rest IH]]; [left|right; exists rest].
  - by rewrite <- IH.
  - change (String c s = String c (before_underscore s +:+ "_" +:+ rest)).
    by rewrite <- IH.
Qed.

Lemma before_underscore_free (s : string) :
  "_"%char ∉ list_ascii_of_string (before_underscore s).
Proof.
  induction s as [|c s IH]; cbn; [apply not_elem_of_nil|].
  destruct (Ascii.eqb_spec c "_"); [apply not_elem_of_nil|].
  cbn. by apply not_elem_of_cons.
Qed.

End names.

(** X11. [get_data_file_names] returns the [.csv] names of the last
    directory [os.walk] yields, in the order given, and nothing of the
    directories before it: a name is listed exactly when it is a file of
    that last directory and ends in [.csv]. Without any directory the list
    is empty. *)
Theorem only_last_directory_listed dirs d ds fn :
  get_data_file_names [] = [] ∧
  get_data_file_names (dirs ++ [(d, ds, fn)])
    = List.filter (λ f, endswith f ".csv") fn ∧
  ∀ f, f ∈ get_data_file_names (dirs ++ [(d, ds, fn)]) ↔
       f ∈ fn ∧ ∃ x, f = x +:+ ".csv".
Proof.
  split; [done|]. unfold get_data_file_names. rewrite walk_loop_last.
  split; [done|]. intros f.
  by rewrite list_elem_of_In, filter_In, <- list_elem_of_In, endswith_spec.
Qed.

(** X12. The temporary file of a pass is never one of the data files: no
    path made by appending [_tmp] is the path of a name that
    [get_data_file_names] lists, so a pass over one listed file cannot
    overwrite another. *)
Theorem temporary_file_is_no_data_file DATA walk k f p :
  get_data_file_names walk !! k = Some f →
  p +:+ "_tmp" ≠ data_path DATA f.
Proof.
  intros Hk. apply tmp_ne_csv. eapply listed_endswith.
  by eapply list_elem_of_lookup_2.
Qed.

Lemma temporary_file_is_no_data_file_witness :
  data_path "d" "a.csv" +:+ "_tmp" ≠ data_path "d" "b.csv".
Proof.
  apply (temporary_file_is_no_data_file "d"
           [("d", [], ["a.csv"; "b.csv"; "notes.txt"])] 1 "b.csv").
  vm_compute. reflexivity.
Defined.

(** X13. The table a file is copied into is what comes before the first
    underscore of its name, with [user] replaced by [users]: the name is
    [t] or [t_rest] for a [t] without underscore, and the table is [t], or
    [users] when [t] is [user]. No file is copied into a table [user]. *)
Theorem table_name_spec fin :
  ∃ t, (fin = t ∨ ∃ rest, fin = t +:+ "_" +:+ rest) ∧
       ("_"%char ∉ list_ascii_of_string t) ∧
       table_name fin = (if String.eqb t "user" then "users" else t) ∧
       table_name fin ≠ "user".
Proof.
  exists (before_underscore fin).
  split_and!; [apply before_underscore_split|apply before_underscore_free|done|].
  unfold table_name. by destruct (String.eqb_spec (before_underscore fin) "user").
Qed.

Section upload_facts.
Implicit Types (σ : fs) (tr : list fs) (fp : string).

Lemma readable_spec σ p :
  readable σ p = true ↔
  ∃ content line rest,
    σ !! p = Some content ∧ read_text_lines content = Some (line :: rest).
Proof.
  unfold readable. split.
  - destruct (σ !! p) as [content|]; [|done].
    destruct (read_text_lines content) as [[|line rest]|] eqn:Hr; try done.
    intros _. by exists content, line, rest.
  - intros (content & line & rest & Hσ & Hr). by rewrite Hσ, Hr.
Qed.

(** A file the writer has put a record in has a first line. *)
Lemma written_file_readable (rows : list record) new :
  rows ≠ [] → Utf8.encode (writerows rows) = Some new →
  ∃ line rest, read_text_lines new = Some (line :: rest).
Proof.
  intros Hne Hnew. unfold read_text_lines.
  rewrite (utf8_decode_encode _ _ Hnew). cbn [fmap option_fmap option_map compose].
  destruct (text_lines (universal_newlines (writerows rows))) as [|line rest] eqn:E;
    [|eauto].
  apply lines_from_nil in E as [_ E]. destruct rows as [|r rows]; [done|].
  cbn [writerows flat_map] in E. unfold writerow in E.
  destruct (join_record r) as [|c t]; cbn in E; [done|].
  destruct (c =? CR)%N; [|done]. destruct t; cbn in E; [done|]. by case_match.
Qed.

(** An iteration of [preprocess] that ends well leaves a file with a first
    line. *)
Lemma preprocess_file_readable DATA fin σ tr lg :
  preprocess_file DATA fin σ = (tr, lg, None) →
  readable (final σ tr) (data_path DATA fin) = true.
Proof.
  intros Hrun. set (fp := data_path DATA fin).
  destruct (σ !! fp) as [content|] eqn:Hσ.
  2:{ unfold preprocess_file, sanitize in Hrun. fold fp in Hrun.
      by rewrite Hσ in Hrun. }
  destruct content as [|b0 content].
  { destruct (preprocess_file_empty DATA fin σ Hσ) as (? & H & _). congruence. }
  destruct (reader_rows (sanitized_lines (b0 :: content))) as [rows [err|]] eqn:Hrows.
  { destruct (sanitize_fails _ _ _ _ _ Hσ Hrows) as (tr' & x & H & _).
    unfold preprocess_file in Hrun. fold fp in Hrun. by rewrite H in Hrun. }
  assert (rows ≠ []) as Hne
    by (apply (sanitized_rows_nonempty (b0 :: content) rows); done).
  destruct (preprocess_file_succeeds DATA fin σ _ rows Hσ Hrows Hne)
    as (out & lg' & tr' & new & Hrep & H & Hfin & Hnew).
  fold fp in Hrep, Hfin, Hnew. rewrite H in Hrun. injection Hrun as -> ->.
  set (rows' := map (map universal_newlines) rows) in *.
  assert ((if 0 <? size (malformed_index fp rows') then out else rows) ≠ [])
    as Hout.
  { destruct (0 <? size (malformed_index fp rows')) eqn:Hsz; [|done].
    destruct rows' as [|headers data] eqn:E; [done|].
    apply Nat.ltb_lt in Hsz.
    destruct (repair_keeps_header fp headers data Hsz) as (out' & lg'' & Hrep').
    rewrite Hrep in Hrep'. by injection Hrep' as -> _. }
  destruct (written_file_readable _ new Hout Hnew) as (line & rest & Hread).
  apply readable_spec. exists new, line, rest. rewrite Hfin.
  by rewrite lookup_insert_eq.
Qed.

(** A file with a first line keeps one through [preprocess], unless it is
    the temporary file of one of the files processed. *)
Lemma preprocess_keeps_readable DATA p files : ∀ σ tr lg,
  readable σ p = true →
  (∀ g, g ∈ files → p ≠ data_path DATA g +:+ "_tmp") →
  preprocess DATA files σ = (tr, lg, None) →
  readable (final σ tr) p = true.
Proof.
  induction files as [|g rest IH]; intros σ tr lg Hp Htmp; cbn [preprocess].
  { by intros [= <- _]. }
  destruct (preprocess_file DATA g σ) as [[tr1 lg1] [err|]] eqn:H1; [done|].
  destruct (preprocess DATA rest (final σ tr1)) as [[tr' lg'] e'] eqn:H2.
  intros [= <- <- ->]. rewrite final_app.
  apply (IH (final σ tr1) tr' lg'); [|by intros; apply Htmp, list_elem_of_further|done].
  destruct (decide (p = data_path DATA g)) as [->|Hne].
  { by eapply preprocess_file_readable. }
  pose proof (preprocess_file_frame DATA g σ) as Hfr. rewrite H1 in Hfr.
  cbn [fst] in Hfr. unfold readable.
  rewrite (final_Forall (λ σ', σ' !! p = σ !! p) σ tr1); [exact Hp|done|].
  eapply Forall_impl; [exact Hfr|]. intros σ' Hσ'. apply Hσ'; [done|].
  apply Htmp, list_elem_of_here.
Qed.

(** After a [preprocess] that ends well, every file it was given has a first
    line, provided no file is the temporary file of another. *)
Lemma preprocess_all_readable DATA files : ∀ σ tr lg,
  (∀ f g, f ∈ files → g ∈ files → data_path DATA f ≠ data_path DATA g +:+ "_tmp") →
  preprocess DATA files σ = (tr, lg, None) →
  Forall (λ f, readable (final σ tr) (data_path DATA f) = true) files.
Proof.
  induction files as [|g rest IH]; intros σ tr lg Htmp; [constructor|].
  cbn [preprocess].
  destruct (preprocess_file DATA g σ) as [[tr1 lg1] [err|]] eqn:H1; [done|].
  destruct (preprocess DATA rest (final σ tr1)) as [[tr' lg'] e'] eqn:H2.
  intros [= <- <- ->]. rewrite final_app. constructor.
  - apply (preprocess_keeps_readable DATA _ rest (final σ tr1) tr' lg'); [|
      by intros; apply Htmp; [apply list_elem_of_here|apply list_elem_of_further]|done].
    by eapply preprocess_file_readable.
  - apply (IH (final σ tr1) tr' lg'); [|done].
    intros f h Hf Hh. by apply Htmp; apply list_elem_of_further.
Qed.

(** The loop of [upload_to_db] over files that all have a first line. *)
Lemma copy_files_readable DATA files σ :
  Forall (λ f, readable σ (data_path DATA f) = true) files →
  ∃ copies,
    copy_files DATA files σ = (copies, None) ∧
    Forall2 (λ f c, ∃ content line rest,
               σ !! data_path DATA f = Some content ∧
               read_text_lines content = Some (line :: rest) ∧
               c = CopyFrom rest (table_name f) "," "NULL")
      files copies.
Proof.
  induction 1 as [|f files Hf _ (copies & IH & Hall)]; [by exists []|].
  apply readable_spec in Hf as (content & line & rest & Hσ & Hread).
  cbn [copy_files]. rewrite Hσ, Hread, IH. eexists. split; [done|].
  constructor; [|done]. by exists content, line, rest.
Qed.


Lemma join_record_Forall (P : N → Prop) row :
  P COMMA → P DQUOTE → Forall (Forall P) row → Forall P (join_record row).
Proof.
  intros Hcomma Hq Hrow. unfold join_record.
  destruct row as [|[|c f] [|g gs]]; try (by apply join_fields_Forall).
  by repeat constructor.
Qed.

Lemma translate_id t : Forall (λ c, c ≠ CR ∧ c ≠ LF) t → translate false t = t.
Proof.
  intros Ht. pose proof (translate_plain t false [] Ht) as H.
  rewrite !app_nil_r in H. rewrite H. by destruct t.
Qed.

End upload_facts.



(** X15. What the upload sends for a file as the writer of [preprocess]
    leaves it. When no field of the header holds a line break, [next(f)]
    takes the whole header record and nothing else, and [copy_from] is
    given the data records, all of them and in order, as lines ending in
    LF. *)
Theorem upload_skips_header_record DATA fin σ headers data new :
  σ !! data_path DATA fin = Some new →
  Utf8.encode (writerows (headers :: data)) = Some new →
  Forall (Forall (λ c, c ≠ CR ∧ c ≠ LF)) headers →
  upload_to_db DATA [fin] σ
    = ([Execute CREATE_MARKETING; Execute CREATE_USER;
        CopyFrom (text_lines (writerows_with [LF]
                                (map (map universal_newlines) data)))
          (table_name fin) "," "NULL"],
       [CreatedMarketing; CreatedUsers], None).
Proof.
  intros Hσ Hnew Hh. unfold upload_to_db. cbn [copy_files]. rewrite Hσ.
  unfold read_text_lines. rewrite (utf8_decode_encode _ _ Hnew).
  cbn [fmap option_fmap option_map compose].
  rewrite universal_newlines_writerows. cbn [map writerows_with flat_map].
  assert (map universal_newlines headers = headers) as ->.
  { transitivity (map id headers); [|apply map_id]. apply map_ext_Forall.
    eapply Forall_impl; [exact Hh|]. intros f Hf. cbn.
    rewrite universal_newlines_translate. by apply translate_id. }
  assert (Forall (λ c, (c =? LF)%N = false) (join_record headers)) as Hj.
  { apply join_record_Forall; [done..|].
    eapply Forall_impl; [exact Hh|]. intros f Hf.
    eapply Forall_impl; [exact Hf|]. intros c [_ Hc]. by apply N.eqb_neq. }
  unfold text_lines. rewrite <- app_assoc.
  rewrite (lines_from_skip _ _ [] _ Hj). cbn [app lines_from].
  change (LF =? LF)%N with true. cbn iota. done.
Qed.

Lemma upload_skips_header_record_witness :
  upload_to_db "d" ["user_1.csv"]
    {[ "d/user_1.csv" := [x61; x2c; x62; x0d; x0a; x31; x2c; x32; x0d; x0a] ]}
    = ([Execute CREATE_MARKETING; Execute CREATE_USER;
        CopyFrom (text_lines (writerows_with [LF]
                                (map (map universal_newlines)
                                   [[txt "1"; txt "2"]])))
          (table_name "user_1.csv") "," "NULL"],
       [CreatedMarketing; CreatedUsers], None).
Proof.
  apply (upload_skips_header_record "d" "user_1.csv"
           {[ "d/user_1.csv" := [x61; x2c; x62; x0d; x0a; x31; x2c; x32; x0d; x0a] ]}
           [txt "a"; txt "b"] [[txt "1"; txt "2"]]
           [x61; x2c; x62; x0d; x0a; x31; x2c; x32; x0d; x0a]).
  - vm_compute. reflexivity.
  - vm_compute. reflexivity.
  - repeat (apply List.Forall_cons || apply List.Forall_nil); split; discriminate.
Defined.

(** X16. [etl] as a whole. An exception of [preprocess] ends [etl] before
    any call on the database. When [preprocess] ends well, the upload
    cannot fail on a file: every listed file is there, is UTF-8 and has a
    first line; both CREATE statements are executed, and [copy_from] is
    called for every listed file, in order, with the file past its first
    line and the table of its name. *)
Theorem etl_uploads_every_file DATA walk σ tr lg calls ulg e :
  etl DATA walk σ = (tr, lg, calls, ulg, e) →
  let files := get_data_file_names walk in
  preprocess DATA files σ = (tr, lg, e) ∧
  match e with
  | Some _ => calls = [] ∧ ulg = []
  | None =>
    ulg = [CreatedMarketing; CreatedUsers] ∧
    ∃ copies,
      calls = Execute CREATE_MARKETING :: Execute CREATE_USER :: copies ∧
      Forall2 (λ f c, ∃ content line rest,
                 final σ tr !! data_path DATA f = Some content ∧
                 read_text_lines content = Some (line :: rest) ∧
                 c = CopyFrom rest (table_name f) "," "NULL")
        files copies
  end.
Proof.
  intros Hrun files. unfold etl in Hrun. fold files in Hrun.
  destruct (preprocess DATA files σ) as [[tr0 lg0] [err|]] eqn:Hpre.
  { by injection Hrun as <- <- <- <- <-. }
  assert (Forall (λ f, readable (final σ tr0) (data_path DATA f) = true) files)
    as Hread.
  { apply (preprocess_all_readable DATA files σ tr0 lg0); [|done].
    intros f g Hf Hg H. symmetry in H. revert H. apply tmp_ne_csv.
    by eapply listed_endswith. }
  destruct (copy_files_readable DATA files _ Hread) as (copies & Hc & Hall).
  unfold upload_to_db in Hrun. rewrite Hc in Hrun.
  injection Hrun as <- <- <- <- <-. split; [done|]. split; [done|]. by exists copies.
Qed.

Lemma etl_uploads_every_file_witness :
  preprocess "d" (get_data_file_names [("d", [], ["user_1.csv"; "readme.txt"])])
    {[ "d/user_1.csv" := [x61; x2c; x62; x0a; x31; x2c; x32; x0a] ]}
    = ([ {[ "d/user_1.csv_tmp" := [];
            "d/user_1.csv" := [x61; x2c; x62; x0a; x31; x2c; x32; x0a] ]};
         {[ "d/user_1.csv_tmp" := [x61; x2c; x62; x0d; x0a];
            "d/user_1.csv" := [x61; x2c; x62; x0a; x31; x2c; x32; x0a] ]};
         {[ "d/user_1.csv_tmp" := [x61; x2c; x62; x0d; x0a; x31; x2c; x32; x0d; x0a];
            "d/user_1.csv" := [x61; x2c; x62; x0a; x31; x2c; x32; x0a] ]};
         {[ "d/user_1.csv" := [x61; x2c; x62; x0d; x0a; x31; x2c; x32; x0d; x0a] ]} ],
       [], None) ∧
  [CreatedMarketing; CreatedUsers] = [CreatedMarketing; CreatedUsers] ∧
  ∃ copies,
    [Execute CREATE_MARKETING; Execute CREATE_USER;
     CopyFrom [[49; 44; 50; 10]%N] "users" "," "NULL"]
      = Execute CREATE_MARKETING :: Execute CREATE_USER :: copies ∧
    Forall2 (λ f c, ∃ content line rest,
               final {[ "d/user_1.csv" := [x61; x2c; x62; x0a; x31; x2c; x32; x0a] ]}
                 [ {[ "d/user_1.csv_tmp" := [];
                      "d/user_1.csv" := [x61; x2c; x62; x0a; x31; x2c; x32; x0a] ]};
                   {[ "d/user_1.csv_tmp" := [x61; x2c; x62; x0d; x0a];
                      "d/user_1.csv" := [x61; x2c; x62; x0a; x31; x2c; x32; x0a] ]};
                   {[ "d/user_1.csv_tmp"
                        := [x61; x2c; x62; x0d; x0a; x31; x2c; x32; x0d; x0a];
                      "d/user_1.csv" := [x61; x2c; x62; x0a; x31; x2c; x32; x0a] ]};
                   {[ "d/user_1.csv"
                        := [x61; x2c; x62; x0d; x0a; x31; x2c; x32; x0d; x0a] ]} ]
                 !! data_path "d" f = Some content ∧
               read_text_lines content = Some (line :: rest) ∧
               c = CopyFrom rest (table_name f) "," "NULL")
      (get_data_file_names [("d", [], ["user_1.csv"; "readme.txt"])]) copies.
Proof.
  apply (etl_uploads_every_file "d" [("d", [], ["user_1.csv"; "readme.txt"])]
           {[ "d/user_1.csv" := [x61; x2c; x62; x0a; x31; x2c; x32; x0a] ]}
           _ [] _ _ None).
  vm_compute. reflexivity.
Defined.
